(** * neemata: client errors and streams, application lifecycle, supervisor

    A shallow embedding of

    - [ApiError] and [BaseClient.stream]  (packages/common/lib/api.ts,
                                           lines 7-32 and 114-136),
    - [Application]                       (same file, lines 178-389: the
                                           lifecycle methods, 226-275),
    - [ApplicationServer]                 (packages/server/lib/server.ts),
    - [tryExit] / [exitProcess]           (packages/cli/cli.ts, lines 82-98),
    - the connections of [Application]    (api.ts, lines 362-388) and the
      command name of [execute]           (cli.ts, lines 146-165),

    followed by the properties proved about them.  Definitions come first,
    one module per source class; the theorems follow. *)

From stdpp Require Import base tactics option numbers strings list sorting gmap.

(** ** JavaScript values and numbers *)

(** The values that travel as [any] (error data, worker options, task
    payloads): the primitives, and any other value by its JSON text. *)
Inductive JsValue : Type :=
| VUndefined
| VNull
| VBool (b : bool)
| VNumber (n : Z)
| VString (s : string)
| VJson (text : string).

(** A JavaScript number is an IEEE double.  A counter that starts at [0] and
    only ever grows by [++] stays an integer in [0, 2^53]: below [2^53] the
    sum [n + 1] is exact, at [2^53] it rounds back to [2^53] (ties to even). *)
Definition MAX_EXACT : Z := (2 ^ 53)%Z.

Definition js_incr (n : Z) : Z := if (n <? MAX_EXACT)%Z then (n + 1)%Z else n.

(** Truthiness of [string | undefined] and of [number | undefined]. *)
Definition truthy_string (s : option string) : bool :=
  match s with
  | Some s => negb (String.eqb s "")
  | None => false
  end.

Definition truthy_number (n : option Z) : bool :=
  match n with
  | Some n => negb (n =? 0)%Z
  | None => false
  end.

(** ** ApiError *)

Module ApiError.

(** An instance after construction.  [Error(message)] defines an OWN data
    property [message] on the new object when [message] is not [undefined]
    (ECMA-262, Error constructor: CreateNonEnumerableDataPropertyOrThrow(O,
    "message", msg)); with [undefined] no own property is created.  [code]
    and [data] are the fields the constructor assigns. *)
Record t : Type := mk {
  own_message : option string;
  code : string;
  data : JsValue;
}.

(** [constructor(code, message?, data?) { super(message); this.code = code;
    this.data = data }]: an omitted argument is [undefined]. *)
Definition new (code : string) (message : option string) (data : JsValue) : t :=
  {| own_message := message; code := code; data := data |}.

(** [Error.prototype.message] is the empty string; it is what
    [super.message] reads inside the accessor of [ApiError.prototype]. *)
Definition Error_prototype_message : string := "".

(** [get message() { return this.code + super.message }], the accessor
    installed on [ApiError.prototype]. *)
Definition message_getter (e : t) : string :=
  code e +:+ Error_prototype_message.

(** Reading [e.message]: an own property is found before the prototype
    chain is searched, so the accessor runs only when the instance has no
    own [message]. *)
Definition message (e : t) : string :=
  match own_message e with
  | Some m => m
  | None => message_getter e
  end.

(** [toString() { return `${this.code} ${this.message}` }] *)
Definition toString (e : t) : string :=
  code e +:+ " " +:+ message e.

(** The client wire error. *)
Record WireError : Type := mkWire {
  wire_code : string;
  wire_message : string;
  wire_data : JsValue;
}.

(** [toJSON() { return { code: this.code, message: this.message,
    data: this.data } }] *)
Definition toJSON (e : t) : WireError :=
  {| wire_code := code e; wire_message := message e; wire_data := data e |}.

End ApiError.

(** ** BaseClient: upstream allocation *)

Module BaseClient.

Local Open Scope Z_scope.

(** The sources [stream] accepts.  A [File] is a [Blob]. *)
Inductive Source : Type :=
| SFile (size : Z) (type : string) (name : string)
| SBlob (size : Z) (type : string)
| SArrayBuffer (byteLength : Z)
| SReadableStream.

Definition instanceof_File (s : Source) : bool :=
  match s with SFile _ _ _ => true | _ => false end.

Definition instanceof_Blob (s : Source) : bool :=
  match s with SFile _ _ _ | SBlob _ _ => true | _ => false end.

Definition instanceof_ArrayBuffer (s : Source) : bool :=
  match s with SArrayBuffer _ => true | _ => false end.

Definition instanceof_ReadableStream (s : Source) : bool :=
  match s with SReadableStream => true | _ => false end.

Definition blob_size (s : Source) : Z :=
  match s with
  | SFile n _ _ | SBlob n _ => n
  | SArrayBuffer n => n
  | SReadableStream => 0
  end.

Definition blob_type (s : Source) : string :=
  match s with SFile _ t _ | SBlob _ t => t | _ => "" end.

(** [Partial<StreamMetadata>]: the three fields [stream] reads or writes. *)
Record Metadata : Type := mkMetadata {
  filename : option string;
  type : option string;
  size : option Z;
}.

Definition no_metadata : Metadata :=
  {| filename := None; type := None; size := None |}.

(** [new UpStream(id, metadata, source)] *)
Record UpStream : Type := mkUpStream {
  up_id : Z;
  up_metadata : Metadata;
  up_source : Source;
}.

Record DownStream : Type := mkDownStream { down_id : Z }.

(** [protected streams = { up: new Map(), down: new Map(), streamId: 0 }] *)
Record t : Type := mk {
  up : gmap Z UpStream;
  down : gmap Z DownStream;
  streamId : Z;
}.

Definition new : t := {| up := ∅; down := ∅; streamId := 0 |}.

Inductive Result (A : Type) : Type :=
| Returned (a : A)
| Thrown (msg : string).
Arguments Returned {A} a.
Arguments Thrown {A} msg.

(** [if (source instanceof File && !metadata.filename)
      metadata.type = source.type] *)
Definition fill_type (source : Source) (m : Metadata) : Metadata :=
  if instanceof_File source && negb (truthy_string (filename m))
  then {| filename := filename m; type := Some (blob_type source); size := size m |}
  else m.

(** The [if (!metadata.size) { ... }] block: the size is taken from a Blob
    or an ArrayBuffer, a ReadableStream throws. *)
Definition fill_size (source : Source) (m : Metadata) : Result Metadata :=
  if negb (truthy_number (size m)) then
    if instanceof_Blob source then
      Returned {| filename := filename m; type := type m;
                  size := Some (blob_size source) |}
    else if instanceof_ArrayBuffer source then
      Returned {| filename := filename m; type := type m;
                  size := Some (blob_size source) |}
    else if instanceof_ReadableStream source then
      Thrown "Size is required for ReadableStream"
    else Returned m
  else Returned m.

(** [async stream(source, metadata = {})]: the result and the client
    afterwards. *)
Definition stream (source : Source) (metadata : Metadata) (c : t)
  : Result UpStream * t :=
  match fill_size source (fill_type source metadata) with
  | Thrown msg => (Thrown msg, c)
  | Returned m =>
      let id := js_incr (streamId c) in
      let s := {| up_id := id; up_metadata := m; up_source := source |} in
      (Returned s, {| up := <[id := s]> (up c); down := down c; streamId := id |})
  end.

(** A sequence of [stream] calls on one client, with the results in call
    order. *)
Fixpoint stream_all (calls : list (Source * Metadata)) (c : t)
  : list (Result UpStream) * t :=
  match calls with
  | [] => ([], c)
  | (source, metadata) :: rest =>
      let '(r, c1) := stream source metadata c in
      let '(rs, c2) := stream_all rest c1 in
      (r :: rs, c2)
  end.

(** The ids handed out by the successful calls, in call order. *)
Definition allocated (rs : list (Result UpStream)) : list Z :=
  omap (fun r => match r with Returned s => Some (up_id s) | Thrown _ => None end) rs.

(** Every key of the upstream map was handed out by the counter. *)
Definition keys_allocated (c : t) : Prop :=
  forall k, is_Some (up c !! k) -> 0 < k <= streamId c.

End BaseClient.

(** ** Application: the lifecycle methods *)

(** [WorkerType] (constants.ts, used by both packages). *)
Inductive WorkerType : Type := Api | Task.

Global Instance WorkerType_eq_dec : EqDecision WorkerType.
Proof. solve_decision. Defined.

Module Application.

(** [Hook] (constants.ts): the kinds [registry.hooks.call] is given. *)
Inductive Hook : Type :=
| BeforeInitialize | AfterInitialize
| BeforeStart | AfterStart
| BeforeStop | AfterStop
| BeforeTerminate | AfterTerminate
| OnConnection | OnDisconnection.

Global Instance Hook_eq_dec : EqDecision Hook.
Proof. solve_decision. Defined.

(** A registered hook callback: its name, and whether running it fails. *)
Record HookFn : Type := mkHookFn {
  hook_name : string;
  hook_throws : bool;
}.

(** The options object of [hooks.call]; the call sites below spell
    [concurrent] out, and leave [reverse] out where it is [false]. *)
Record CallHookOptions : Type := mkOptions {
  concurrent : bool;
  reverse : bool;
}.

(** A transport: for [start()] and [stop()], [None] when the promise
    resolves and [Some cause] when it rejects with [cause]. *)
Record Transport : Type := mkTransport {
  transport_name : string;
  start_rejects : option string;
  stop_rejects : option string;
}.

(** The registry as far as the lifecycle uses it: the hook bindings in
    registration order and the registered commands (namespace, name). *)
Record Registry : Type := mkRegistry {
  hooks : list (Hook * HookFn);
  commands : list (string * string);
}.

(** The application: its worker type ([options.type]), its transports in
    insertion order (a [Set] iterates in insertion order), its registry,
    and how [registry.load()] and [container.load()] settle ([None]:
    resolve, [Some e]: reject with [e]).  There is no lifecycle-state
    field: the class declares none. *)
Record t : Type := mk {
  options_type : WorkerType;
  transports : list Transport;
  registry : Registry;
  registry_load_rejects : option string;
  container_load_rejects : option string;
}.

(** What a rejected promise carries.  [InvalidState] is the kind §7 of the
    specification gives to lifecycle-precondition failures. *)
Inductive Error : Type :=
| InvalidState
| HookThrew (kind : Hook) (name : string)
| HooksThrew (kind : Hook) (names : list string)
| TransportRejected (cause : string)
| LoadRejected (what : string) (cause : string).

(** What the application does to its collaborators, in order. *)
Inductive Event : Type :=
| HookInvoked (kind : Hook) (name : string)
| HookFailureLogged (kind : Hook) (name : string)
| CommandRegistered (namespace name : string)
| RegistryLoad
| ContainerLoad
| TransportStart (name : string)
| TransportStop (name : string)
| LoggerError (message : string) (cause : Error)
| ContainerDispose
| RegistryClear.

Inductive Settled (A : Type) : Type :=
| Fulfilled (a : A)
| Rejected (e : Error).
Arguments Fulfilled {A} a.
Arguments Rejected {A} e.

(** An [async] method: from the application before, the events performed,
    the application after, and how the promise settles.  [await] is the
    bind: a rejection skips the rest of the method. *)
Definition Async (A : Type) : Type := t -> list Event * t * Settled A.

Global Instance Async_ret : MRet Async :=
  fun A a app => ([], app, Fulfilled a).

Global Instance Async_bind : MBind Async :=
  fun A B k m app =>
    match m app with
    | (tr, app1, Fulfilled a) =>
        match k a app1 with
        | (tr2, app2, r) => (tr ++ tr2, app2, r)
        end
    | (tr, app1, Rejected e) => (tr, app1, Rejected e)
    end.

Definition emit (e : Event) : Async unit :=
  fun app => ([e], app, Fulfilled tt).

Definition reject {A} (e : Error) : Async A :=
  fun app => ([], app, Rejected e).

Definition this : Async t :=
  fun app => ([], app, Fulfilled app).

Definition set_registry (r : Registry) : Async unit :=
  fun app =>
    ([], {| options_type := options_type app; transports := transports app;
            registry := r;
            registry_load_rejects := registry_load_rejects app;
            container_load_rejects := container_load_rejects app |},
     Fulfilled tt).

(** [promise.catch(handler)] *)
Definition catch {A} (m : Async A) (handler : Error -> Async A) : Async A :=
  fun app =>
    match m app with
    | (tr, app1, Fulfilled a) => (tr, app1, Fulfilled a)
    | (tr, app1, Rejected e) =>
        match handler e app1 with
        | (tr2, app2, r) => (tr ++ tr2, app2, r)
        end
    end.

(** [for (const x of xs) await body(x)] *)
Fixpoint for_each {A} (xs : list A) (body : A -> Async unit) : Async unit :=
  match xs with
  | [] => mret tt
  | x :: rest => body x;; for_each rest body
  end.

Definition trace_of {A} (r : list Event * t * Settled A) : list Event := r.1.1.
Definition app_of {A} (r : list Event * t * Settled A) : t := r.1.2.
Definition settled_of {A} (r : list Event * t * Settled A) : Settled A := r.2.

(** *** The hook engine *)

(** The bindings of one kind, in registration order. *)
Definition bindings (kind : Hook) (hs : list (Hook * HookFn)) : list HookFn :=
  (filter (fun b => b.1 = kind) hs).*2.

(** The kinds whose failures abort the call (§4.3): [*Initialize] and
    [*Start]. *)
Definition start_sensitive (kind : Hook) : bool :=
  match kind with
  | BeforeInitialize | AfterInitialize | BeforeStart | AfterStart => true
  | _ => false
  end.

(** Modelled from the spec: [Hooks.call] in sequential mode ([Hooks] is the
    hook collection of the registry, registry.ts, which the application only
    imports).  §4.3: bindings are invoked one after the other, each awaited
    before the next; a failure is logged and does not abort the remainder
    for the [*Stop] and [*Terminate] kinds; for the [*Initialize] and
    [*Start] kinds the first failure aborts and the error reaches the
    caller. *)
Fixpoint call_sequential (kind : Hook) (fns : list HookFn) : Async unit :=
  match fns with
  | [] => mret tt
  | f :: rest =>
      emit (HookInvoked kind (hook_name f));;
      if hook_throws f then
        if start_sensitive kind then reject (HookThrew kind (hook_name f))
        else emit (HookFailureLogged kind (hook_name f));;
             call_sequential kind rest
      else call_sequential kind rest
  end.

(** Modelled from the spec: [Hooks.call] in concurrent mode (registry.ts;
    §4.3): all
    bindings are invoked, the call completes when all have settled,
    failures are logged, and for a start-sensitive kind they are gathered
    into one error. *)
Definition call_concurrent (kind : Hook) (fns : list HookFn) : Async unit :=
  for_each fns (fun f => emit (HookInvoked kind (hook_name f)));;
  let failed := filter (fun f => hook_throws f = true) fns in
  for_each failed (fun f => emit (HookFailureLogged kind (hook_name f)));;
  if start_sensitive kind && negb (bool_decide (failed = []))
  then reject (HooksThrew kind (hook_name <$> failed))
  else mret tt.

(** Modelled from the spec: [registry.hooks.call(kind, options)]
    (registry.ts; §4.3): the bindings of the kind in registration order, or
    in the reverse of it when [reverse] is set. *)
Definition hooks_call (kind : Hook) (options : CallHookOptions) : Async unit :=
  app ← this;
  let fns := bindings kind (hooks (registry app)) in
  if concurrent options then call_concurrent kind fns
  else call_sequential kind (if reverse options then rev fns else fns).

(** *** The registry and the container *)

(** The command namespace of the application itself ([APP_COMMAND]). *)
Definition APP_COMMAND : string := "APP_COMMAND".

(** Modelled from the spec: [registry.registerCommand(namespace, name, fn)]
    (registry.ts; §4.2, commands are kept as namespace → name → function). *)
Definition registerCommand (namespace name : string) : Async unit :=
  app ← this;
  emit (CommandRegistered namespace name);;
  set_registry {| hooks := hooks (registry app);
                  commands := commands (registry app) ++ [(namespace, name)] |}.

(** [registry.load()] and [container.load()] (registry.ts, container.ts):
    the calls, settling as the application record says. *)
Definition registry_load : Async unit :=
  app ← this;
  emit RegistryLoad;;
  match registry_load_rejects app with
  | Some cause => reject (LoadRejected "registry" cause)
  | None => mret tt
  end.

Definition container_load : Async unit :=
  app ← this;
  emit ContainerLoad;;
  match container_load_rejects app with
  | Some cause => reject (LoadRejected "container" cause)
  | None => mret tt
  end.

(** Modelled from the spec: [container.dispose()] (container.ts), as the
    call it is; disposal errors are logged inside the container and never
    surface (§4.1, §7), so the promise resolves. *)
Definition container_dispose : Async unit := emit ContainerDispose.

(** Modelled from the spec: [registry.clear()] (registry.ts; §4.2, §4.8).
    It empties what was registered by name; the hook bindings stay, since
    §4.8 and scenario 6 of §8 have the [AfterTerminate] bindings fire after
    it. *)
Definition registry_clear : Async unit :=
  app ← this;
  emit RegistryClear;;
  set_registry {| hooks := hooks (registry app); commands := [] |}.

(** *** The transports *)

Definition transport_start (tr : Transport) : Async unit :=
  emit (TransportStart (transport_name tr));;
  match start_rejects tr with
  | Some cause => reject (TransportRejected cause)
  | None => mret tt
  end.

Definition transport_stop (tr : Transport) : Async unit :=
  emit (TransportStop (transport_name tr));;
  match stop_rejects tr with
  | Some cause => reject (TransportRejected cause)
  | None => mret tt
  end.

(** [this.logger.error(new Error(message, { cause }))] *)
Definition logger_error (message : string) (cause : Error) : Async unit :=
  emit (LoggerError message cause).

(** *** The methods of [Application] *)

Definition sequential : CallHookOptions :=
  {| concurrent := false; reverse := false |}.

Definition sequential_reverse : CallHookOptions :=
  {| concurrent := false; reverse := true |}.

(** [private get isApiWorker()] *)
Definition isApiWorker (app : t) : bool :=
  bool_decide (options_type app = Api).

(** [private initializeEssential()] *)
Definition initializeEssential : Async unit :=
  registerCommand APP_COMMAND "task";;
  registerCommand APP_COMMAND "registry".

(** [async initialize()] *)
Definition initialize : Async unit :=
  hooks_call BeforeInitialize sequential;;
  initializeEssential;;
  registry_load;;
  container_load;;
  hooks_call AfterInitialize sequential.

(** [async start()] *)
Definition start : Async unit :=
  initialize;;
  hooks_call BeforeStart sequential;;
  app ← this;
  (if isApiWorker app then
     for_each (transports app) (fun transport =>
       catch (transport_start transport)
             (fun cause => logger_error "Transport start error" cause))
   else mret tt);;
  hooks_call AfterStart sequential.

(** [async terminate()] *)
Definition terminate : Async unit :=
  hooks_call BeforeTerminate sequential_reverse;;
  container_dispose;;
  registry_clear;;
  hooks_call AfterTerminate sequential_reverse.

(** [async stop()] *)
Definition stop : Async unit :=
  hooks_call BeforeStop sequential;;
  app ← this;
  (if isApiWorker app then
     for_each (transports app) (fun transport =>
       catch (transport_stop transport)
             (fun cause => logger_error "Transport stop error" cause))
   else mret tt);;
  hooks_call AfterStop sequential;;
  terminate.

(** *** The lifecycle of the specification *)

(** Modelled from the spec: the lifecycle states of §4.8,
    [Created → Initializing → Initialized → Starting → Running → Stopping →
    Terminating → Terminated], and the states from which [start] is a
    transition of that chain. *)
Inductive Lifecycle : Type :=
| Created | Initializing | Initialized | Starting | Running
| Stopping | Terminating | Terminated.

Definition start_permitted (st : Lifecycle) : bool :=
  match st with
  | Created | Initialized => true
  | _ => false
  end.

Inductive Method : Type := Initialize | Start | Stop | Terminate.

(** Modelled from the spec: the state in which a completed call leaves the
    application (§4.8): [initialize] in [Initialized], [start] in [Running],
    [stop] and [terminate] in [Terminated]. *)
Definition completes_in (m : Method) : Lifecycle :=
  match m with
  | Initialize => Initialized
  | Start => Running
  | Stop | Terminate => Terminated
  end.

(** What a rejected transition would be: [InvalidState], nothing done, the
    application as it was. *)
Definition rejected_InvalidState (m : Async unit) (app : t) : Prop :=
  m app = ([], app, Rejected InvalidState).

(** A method that is never rejected with [InvalidState]. *)
Definition never_InvalidState {A} (m : Async A) : Prop :=
  forall app, settled_of (m app) <> Rejected InvalidState.

(** *** The sequences the lifecycle is compared with *)

(** One binding after the other, a failure followed by its log entry. *)
Definition hook_events (kind : Hook) (fns : list HookFn) : list Event :=
  flat_map (fun f =>
              HookInvoked kind (hook_name f)
              :: (if hook_throws f
                  then [HookFailureLogged kind (hook_name f)] else []))
           fns.

(** One transport after the other, a rejected [stop()] followed by the
    error the [catch] handler logs. *)
Definition transport_stop_events (trs : list Transport) : list Event :=
  flat_map (fun tr =>
              TransportStop (transport_name tr)
              :: match stop_rejects tr with
                 | Some cause =>
                     [LoggerError "Transport stop error" (TransportRejected cause)]
                 | None => []
                 end)
           trs.

(** The application once [registry.clear()] has run. *)
Definition cleared (app : t) : t :=
  {| options_type := options_type app; transports := transports app;
     registry := {| hooks := hooks (registry app); commands := [] |};
     registry_load_rejects := registry_load_rejects app;
     container_load_rejects := container_load_rejects app |}.

End Application.

(** ** Pool: the round-robin pool of task runners *)

Module Pool.

Section Items.
Context {A : Type} `{EqDecision A}.

(** Modelled from the spec: [Pool], which server.ts imports from the
    application package.  §4.9: [next()] returns the members in a stable
    cyclic order and removed members are skipped.  The members are kept in
    insertion order, with the position of the member [next()] returns
    next. *)
Record t : Type := mk {
  items : list A;
  current : nat;
}.

Definition empty : t := {| items := []; current := 0 |}.

(** [pool.add(item)] *)
Definition add (item : A) (p : t) : t :=
  {| items := items p ++ [item]; current := current p |}.

(** The position of the first occurrence of [item]. *)
Fixpoint index_of (item : A) (l : list A) : option nat :=
  match l with
  | [] => None
  | x :: rest =>
      if decide (x = item) then Some 0 else S <$> index_of item rest
  end.

(** [pool.items.includes(item)] *)
Definition includes (item : A) (p : t) : bool :=
  bool_decide (item ∈ items p).

(** [pool.remove(item)]: the member leaves, the others keep their order
    and the cursor stays on the member that was due next. *)
Definition remove (item : A) (p : t) : t :=
  match index_of item (items p) with
  | None => p
  | Some i =>
      let rest := delete i (items p) in
      let cur := if (i <? current p)%nat then (current p - 1)%nat else current p in
      {| items := rest; current := (cur `mod` length rest)%nat |}
  end.

(** [pool.next()]: the member under the cursor, and the cursor moved one
    step round the cycle; nothing on an empty pool. *)
Definition next (p : t) : option (A * t) :=
  match items p with
  | [] => None
  | _ :: _ =>
      let n := length (items p) in
      let i := (current p `mod` n)%nat in
      match items p !! i with
      | Some x => Some (x, {| items := items p; current := (S i `mod` n)%nat |})
      | None => None
      end
  end.

(** The members returned by [k] calls of [next()] in a row. *)
Fixpoint take_next (k : nat) (p : t) : list A :=
  match k with
  | O => []
  | S k' =>
      match next p with
      | Some (x, p') => x :: take_next k' p'
      | None => []
      end
  end.

End Items.

Arguments t A : clear implicits.

End Pool.

(** ** ApplicationServer: the supervisor *)

Module ApplicationServer.

Global Instance JsValue_eq_dec : EqDecision JsValue.
Proof. solve_decision. Defined.

(** [WorkerMessageType] (common.ts): the kinds of §6. *)
Inductive WorkerMessageType : Type :=
| Ready | Start | Stop | ExecuteInvoke | ExecuteResult.

Global Instance WorkerMessageType_eq_dec : EqDecision WorkerMessageType.
Proof. solve_decision. Defined.

(** The argument of [worker.postMessage]. *)
Record Message : Type := mkMessage {
  type : WorkerMessageType;
  payload : JsValue;
}.

(** [taskWorkers] / [apiWorkers]: [number | any[]]. *)
Inductive Workers : Type :=
| Count (n : nat)
| Configs (configs : list JsValue).

Record ApplicationServerOptions : Type := mkOptions {
  applicationPath : string;
  taskWorkers : Workers;
  apiWorkers : Workers;
}.

(** [ApplicationWorkerData] as [createWorker] fills it. *)
Record ApplicationWorkerData : Type := mkWorkerData {
  wd_applicationPath : string;
  id : nat;
  workerType : WorkerType;
  workerOptions : JsValue;
  hasTaskRunners : bool;
  isServer : bool;
}.

(** A [Worker] object: its thread id (which tells one [new Worker] from
    another) and the data it was created with. *)
Record Worker : Type := mkWorker {
  threadId : nat;
  workerData : ApplicationWorkerData;
}.

Global Instance ApplicationWorkerData_eq_dec : EqDecision ApplicationWorkerData.
Proof. solve_decision. Defined.

Global Instance Worker_eq_dec : EqDecision Worker.
Proof. solve_decision. Defined.

(** What the supervisor writes to its logger. *)
Inductive LogEntry : Type :=
| Info (msg : string)
| Debug (msg : string)
| ErrorLogged (err : string)
| Fatal (err : string)
| FatalCrashed (threadId : nat) (code : Z)
| InfoExitedGracefully (threadId : nat).

(** Where the loop of [start()] stands.  It walks [this.workers] and for
    each worker awaits ['online'], then [Ready]; [onError] tells whether
    the [once('error', onError)] listener is still registered. *)
Inductive StartTask : Type :=
| NotStarted
| AwaitOnline (index : nat) (w : Worker)
| AwaitReady (index : nat) (w : Worker) (onError : bool)
| StartResolved
| StartRejected (err : string).

(** A pending [stop()]: which call it is (calls are numbered as they are
    made, which tells their promises apart), the worker whose ['exit'] it
    awaits and the position of that worker in [this.workers]. *)
Record StopTask : Type := AwaitExit {
  stop_call : nat;
  stop_index : nat;
  stop_worker : Worker;
}.

(** The supervisor.  [workers] is the [Set<Worker>]: its entries in
    insertion order, a deleted entry leaving a hole, so that a loop that is
    suspended in the middle of the set resumes where it was (ECMA-262, Set
    iterators).  [posted] lists the [postMessage] calls by target thread.
    [next_threadId] numbers the next [new Worker]; [stop_calls] counts the
    calls of [stop()] and [stops_resolved] lists those whose promise has
    resolved. *)
Record t : Type := mk {
  options : ApplicationServerOptions;
  workers : list (option Worker);
  taskRunners : Pool.t Worker;
  exiting : bool;
  next_threadId : nat;
  log : list LogEntry;
  posted : list (nat * Message);
  starting : StartTask;
  stopping : list StopTask;
  stop_calls : nat;
  stops_resolved : list nat;
}.

(** [new ApplicationServer(options)] *)
Definition new (opts : ApplicationServerOptions) : t :=
  {| options := opts; workers := []; taskRunners := Pool.empty;
     exiting := false; next_threadId := 1; log := []; posted := [];
     starting := NotStarted; stopping := [];
     stop_calls := 0; stops_resolved := [] |}.

(** Field updates. *)
Definition set_workers (ws : list (option Worker)) (s : t) : t :=
  {| options := options s; workers := ws; taskRunners := taskRunners s;
     exiting := exiting s; next_threadId := next_threadId s; log := log s;
     posted := posted s; starting := starting s; stopping := stopping s;
     stop_calls := stop_calls s; stops_resolved := stops_resolved s |}.

Definition set_taskRunners (p : Pool.t Worker) (s : t) : t :=
  {| options := options s; workers := workers s; taskRunners := p;
     exiting := exiting s; next_threadId := next_threadId s; log := log s;
     posted := posted s; starting := starting s; stopping := stopping s;
     stop_calls := stop_calls s; stops_resolved := stops_resolved s |}.

Definition set_exiting (b : bool) (s : t) : t :=
  {| options := options s; workers := workers s; taskRunners := taskRunners s;
     exiting := b; next_threadId := next_threadId s; log := log s;
     posted := posted s; starting := starting s; stopping := stopping s;
     stop_calls := stop_calls s; stops_resolved := stops_resolved s |}.

Definition set_next_threadId (n : nat) (s : t) : t :=
  {| options := options s; workers := workers s; taskRunners := taskRunners s;
     exiting := exiting s; next_threadId := n; log := log s;
     posted := posted s; starting := starting s; stopping := stopping s;
     stop_calls := stop_calls s; stops_resolved := stops_resolved s |}.

Definition set_starting (st : StartTask) (s : t) : t :=
  {| options := options s; workers := workers s; taskRunners := taskRunners s;
     exiting := exiting s; next_threadId := next_threadId s; log := log s;
     posted := posted s; starting := st; stopping := stopping s;
     stop_calls := stop_calls s; stops_resolved := stops_resolved s |}.

Definition set_stopping (ts : list StopTask) (s : t) : t :=
  {| options := options s; workers := workers s; taskRunners := taskRunners s;
     exiting := exiting s; next_threadId := next_threadId s; log := log s;
     posted := posted s; starting := starting s; stopping := ts;
     stop_calls := stop_calls s; stops_resolved := stops_resolved s |}.

Definition set_stop_calls (n : nat) (s : t) : t :=
  {| options := options s; workers := workers s; taskRunners := taskRunners s;
     exiting := exiting s; next_threadId := next_threadId s; log := log s;
     posted := posted s; starting := starting s; stopping := stopping s;
     stop_calls := n; stops_resolved := stops_resolved s |}.

Definition set_stops_resolved (l : list nat) (s : t) : t :=
  {| options := options s; workers := workers s; taskRunners := taskRunners s;
     exiting := exiting s; next_threadId := next_threadId s; log := log s;
     posted := posted s; starting := starting s; stopping := stopping s;
     stop_calls := stop_calls s; stops_resolved := l |}.

(** [this.logger.<level>(...)] *)
Definition logger (e : LogEntry) (s : t) : t :=
  {| options := options s; workers := workers s; taskRunners := taskRunners s;
     exiting := exiting s; next_threadId := next_threadId s;
     log := log s ++ [e];
     posted := posted s; starting := starting s; stopping := stopping s;
     stop_calls := stop_calls s; stops_resolved := stops_resolved s |}.

(** [worker.postMessage(message)] *)
Definition postMessage (w : Worker) (m : Message) (s : t) : t :=
  {| options := options s; workers := workers s; taskRunners := taskRunners s;
     exiting := exiting s; next_threadId := next_threadId s; log := log s;
     posted := posted s ++ [(threadId w, m)];
     starting := starting s; stopping := stopping s;
     stop_calls := stop_calls s; stops_resolved := stops_resolved s |}.

(** *** The worker set *)

Definition set_has (w : Worker) (entries : list (option Worker)) : bool :=
  bool_decide (Some w ∈ entries).

(** [set.add(w)] *)
Definition set_add (w : Worker) (entries : list (option Worker))
  : list (option Worker) :=
  if set_has w entries then entries else entries ++ [Some w].

(** [set.delete(w)] *)
Definition set_delete (w : Worker) (entries : list (option Worker))
  : list (option Worker) :=
  (fun e => if decide (e = Some w) then None else e) <$> entries.

(** The next step of an iterator that stands at [index]: the first entry
    at [index] or later that is not a hole, with its position. *)
Fixpoint set_next_from (index : nat) (entries : list (option Worker))
  : option (nat * Worker) :=
  match entries with
  | [] => None
  | e :: rest =>
      match index with
      | O =>
          match e with
          | Some w => Some (O, w)
          | None => prod_map S Datatypes.id <$> set_next_from O rest
          end
      | S index' => prod_map S Datatypes.id <$> set_next_from index' rest
      end
  end.

Definition isTaskWorker (w : Worker) : bool :=
  bool_decide (workerType (workerData w) = Task).

(** [!!taskWorkers]: a number is truthy unless it is zero, an array always. *)
Definition truthy_workers (ws : Workers) : bool :=
  match ws with
  | Count n => negb (n =? 0)%nat
  | Configs _ => true
  end.

(** *** [createWorker] and [createWorkers] *)

(** [private createWorker(type, id, options)], up to the registration of
    its listeners, which are the handlers [on_error], [exit_listener] and
    [on_ExecuteInvoke] below. *)
Definition createWorker (type : WorkerType) (id : nat) (opts : JsValue) (s : t)
  : Worker * t :=
  let worker :=
    {| threadId := next_threadId s;
       workerData :=
         {| wd_applicationPath := applicationPath (options s);
            id := id;
            workerType := type;
            workerOptions := opts;
            hasTaskRunners := truthy_workers (taskWorkers (options s));
            isServer := true |} |} in
  let s1 := set_next_threadId (S (next_threadId s)) s in
  let s2 := set_workers (set_add worker (workers s1)) s1 in
  let s3 :=
    if isTaskWorker worker
    then set_taskRunners (Pool.add worker (taskRunners s2)) s2
    else s2 in
  (worker, s3).

(** [private createWorkers(type, workers)] *)
Definition createWorkers (type : WorkerType) (ws : Workers) (s : t) : t :=
  let count := match ws with Count n => n | Configs l => length l end in
  foldl (fun s id =>
           let opts :=
             match ws with
             | Count _ => VUndefined
             | Configs l => default VUndefined (l !! id)
             end in
           (createWorker type id opts s).2)
        s (seq 0 count).

(** *** [stop()] *)

(** The loop of call [call] of [stop()] from position [index] of the set:
    the next worker is sent [Stop] and awaited; past the last one
    [#exiting] is reset and the call is over. *)
Definition stop_from (call : nat) (index : nat) (s : t) : t :=
  match set_next_from index (workers s) with
  | Some (j, worker) =>
      let s1 := postMessage worker {| type := Stop; payload := VUndefined |} s in
      set_stopping (stopping s1 ++ [AwaitExit call j worker]) s1
  | None => set_stops_resolved (stops_resolved s ++ [call]) (set_exiting false s)
  end.

(** [async stop()], up to its first [await]. *)
Definition stop (s : t) : t :=
  let call := stop_calls s in
  let s1 := set_stop_calls (S call) s in
  let s2 := logger (Info "Stopping application server...") s1 in
  let s3 := set_exiting true s2 in
  stop_from call 0 s3.

(** The [once('exit', resolve)] listeners of the pending [stop()] calls:
    those that await [w] go on with their loop, in the order in which they
    were suspended. *)
Definition resume_stops (w : Worker) (s : t) : t :=
  foldl (fun s task =>
           if decide (stop_worker task = w)
           then stop_from (stop_call task) (S (stop_index task)) s
           else set_stopping (stopping s ++ [task]) s)
        (set_stopping [] s) (stopping s).

(** *** The listeners of a worker *)

(** [worker.on('exit', (code) => { ... })] of [createWorker]. *)
Definition exit_listener (w : Worker) (code : Z) (s : t) : t :=
  let s1 := set_workers (set_delete w (workers s)) s in
  let s2 :=
    if isTaskWorker w && Pool.includes w (taskRunners s1)
    then set_taskRunners (Pool.remove w (taskRunners s1)) s1
    else s1 in
  if decide (code ≠ 0%Z) then
    let s3 := logger (FatalCrashed (threadId w) code) s2 in
    if negb (exiting s3) then
      let '(worker, s4) :=
        createWorker (workerType (workerData w)) (id (workerData w))
                     (workerOptions (workerData w)) s3 in
      postMessage worker {| type := Start; payload := VUndefined |} s4
    else s3
  else logger (InfoExitedGracefully (threadId w)) s2.

(** The ['exit'] event of [w]: the listener of [createWorker] first, then
    the pending [stop()] calls. *)
Definition on_exit (w : Worker) (code : Z) (s : t) : t :=
  resume_stops w (exit_listener w code s).

(** [worker.on(WorkerMessageType.ExecuteInvoke, async (payload) => ...)],
    registered for the workers that are not task workers. *)
Definition on_ExecuteInvoke (w : Worker) (payload : JsValue) (s : t) : t :=
  if isTaskWorker w then s
  else
    match Pool.next (taskRunners s) with
    | Some (worker, pool) =>
        postMessage worker {| type := ExecuteInvoke; payload := payload |}
                    (set_taskRunners pool s)
    | None => s
    end.

(** *** [start()] *)

(** The loop of [start()] from position [index] of the set. *)
Definition start_from (index : nat) (s : t) : t :=
  match set_next_from index (workers s) with
  | Some (j, worker) => set_starting (AwaitOnline j worker) s
  | None => set_starting StartResolved s
  end.

(** [async start()], up to its first [await]. *)
Definition start (s : t) : t :=
  let s1 := logger (Info "Starting application server...") s in
  let s2 := logger (Debug "Spinning up task workers...") s1 in
  let s3 := createWorkers Task (taskWorkers (options s2)) s2 in
  let s4 := logger (Debug "Spinning up task api workers...") s3 in
  let s5 := createWorkers Api (apiWorkers (options s4)) s4 in
  start_from 0 s5.

(** The ['online'] event of [w]: [await once(worker, 'online')] resumes,
    and the [Ready] and ['error'] listeners are registered. *)
Definition on_online (w : Worker) (s : t) : t :=
  match starting s with
  | AwaitOnline j w' =>
      if decide (w' = w) then set_starting (AwaitReady j w true) s else s
  | _ => s
  end.

(** The [Ready] message of [w]: [worker.off('error', onError); resolve()],
    and the loop goes on to the next worker. *)
Definition on_Ready (w : Worker) (s : t) : t :=
  match starting s with
  | AwaitReady j w' _ =>
      if decide (w' = w) then start_from (S j) s else s
  | _ => s
  end.

(** The ['error'] event of [w].  The listener of [createWorker] logs it.
    While [start()] awaits ['online'] of [w], [once] of node:events rejects
    with the error, and so does [start()].  While it awaits [Ready] of [w],
    [onError] runs: [this.logger.fatal(err); this.stop()]; the promise of
    that worker is neither resolved nor rejected. *)
Definition on_error (w : Worker) (err : string) (s : t) : t :=
  let s1 := logger (ErrorLogged err) s in
  match starting s1 with
  | AwaitOnline j w' =>
      if decide (w' = w) then set_starting (StartRejected err) s1 else s1
  | AwaitReady j w' true =>
      if decide (w' = w)
      then stop (logger (Fatal err) (set_starting (AwaitReady j w' false) s1))
      else s1
  | _ => s1
  end.

(** *** Runs of the supervisor *)

(** What reaches the supervisor: the two method calls, and the events of
    its workers. *)
Inductive Input : Type :=
| CallStart
| CallStop
| Online (w : Worker)
| Emitted (w : Worker) (type : WorkerMessageType) (payload : JsValue)
| Errored (w : Worker) (err : string)
| Exited (w : Worker) (code : Z).

(** The listeners server.ts registers; a message of another kind has none
    there. *)
Definition handle (i : Input) (s : t) : t :=
  match i with
  | CallStart => start s
  | CallStop => stop s
  | Online w => on_online w s
  | Emitted w Ready _ => on_Ready w s
  | Emitted w ExecuteInvoke payload => on_ExecuteInvoke w payload s
  | Emitted w _ _ => s
  | Errored w err => on_error w err s
  | Exited w code => on_exit w code s
  end.

(** An input the supervisor can receive in state [s]: [start()] is called
    once, and events come from workers that are in the set (a worker
    leaves the set at its ['exit'], its last event). *)
Definition enabled (i : Input) (s : t) : Prop :=
  match i with
  | CallStart => starting s = NotStarted
  | CallStop => True
  | Online w | Emitted w _ _ | Errored w _ | Exited w _ => Some w ∈ workers s
  end.

Inductive steps : t -> list Input -> t -> Prop :=
| steps_nil s : steps s [] s
| steps_cons s i inputs s' :
    enabled i s -> steps (handle i s) inputs s' -> steps s (i :: inputs) s'.

Definition run (inputs : list Input) (s : t) : t :=
  foldl (fun s i => handle i s) s inputs.

Definition reachable (s : t) : Prop :=
  exists opts inputs, steps (new opts) inputs s.

(** What the loop of a [stop()] leaves alone between two states, and what
    it adds: [Stop] messages. *)
Record stop_effect (s s' : t) : Prop := {
  stop_workers : workers s' = workers s;
  stop_pool : taskRunners s' = taskRunners s;
  stop_threads : next_threadId s' = next_threadId s;
  stop_starting : starting s' = starting s;
  stop_log : log s' = log s;
  stop_posted :
    exists stops, posted s' = posted s ++ stops
                  /\ Forall (fun pm => type pm.2 = Stop) stops;
}.

(** The thread ids in use are below the next one to be given out, and the
    pool holds no worker twice. *)
Definition threads_fresh (s : t) : Prop :=
  NoDup (Pool.items (taskRunners s))
  /\ (forall x, x ∈ Pool.items (taskRunners s) -> (threadId x < next_threadId s)%nat)
  /\ (forall x, Some x ∈ workers s -> (threadId x < next_threadId s)%nat).

(** [w] was created and is not in the pool. *)
Definition left_pool (w : Worker) (s : t) : Prop :=
  (w ∉ Pool.items (taskRunners s)) /\ (threadId w < next_threadId s)%nat.

(** The [ExecuteInvoke] messages of [w] with the given payloads. *)
Definition invokes (w : Worker) (payloads : list JsValue) : list Input :=
  fmap (fun payload => Emitted w ExecuteInvoke payload) payloads.

(** The [postMessage] that forwards an [ExecuteInvoke] to [target]. *)
Definition forwarded (target : Worker) (payload : JsValue) : nat * Message :=
  (threadId target, {| type := ExecuteInvoke; payload := payload |}).

(** A worker that has left the pool, in a state whose threads are fresh:
    whoever joins the pool later has a newer thread. *)
Definition settled_out (w : Worker) (s : t) : Prop :=
  threads_fresh s /\ left_pool w s.

(** The [Start] messages posted so far. *)
Definition starts_posted (s : t) : list (nat * Message) :=
  filter (fun pm => type pm.2 = Start) (posted s).

(** An input other than the ['exit'] of [w]. *)
Definition not_exit_of (w : Worker) (i : Input) : Prop :=
  forall code, i <> Exited w code.

(** What a [stop()] that does not wait for [w] without bound would be:
    some course of events in which [w] never exits, after which no pending
    [stop()] awaits [w] any more. *)
Definition stop_gives_up_on (w : Worker) (s : t) : Prop :=
  exists inputs,
    Forall (not_exit_of w) inputs
    /\ forall task, task ∈ stopping (run inputs s) -> stop_worker task <> w.

End ApplicationServer.

(** ** The command line: [start] on an [ApplicationServer] entry *)

Module Cli.

(** The process that runs [commands.start()] of cli.ts on a supervisor.
    [exitTimeout] is the variable of that name: [None] while it is
    [undefined], otherwise the timer with the ticks left before it fires.
    [awaited_stop] is the [entryApp.stop()] call that [tryExit] awaits.
    [exit_code] is set by [process.exit]: [None] says that [process.exit]
    has not been called, not that the process is alive (a process that
    nothing keeps alive ends by itself, which is outside this model). *)
Record t : Type := mk {
  server : ApplicationServer.t;
  shutdownTimeout : nat;
  exitTimeout : option nat;
  awaited_stop : option nat;
  exit_code : option Z;
}.

Definition set_server (srv : ApplicationServer.t) (p : t) : t :=
  {| server := srv; shutdownTimeout := shutdownTimeout p;
     exitTimeout := exitTimeout p; awaited_stop := awaited_stop p;
     exit_code := exit_code p |}.

(** [commands.start()]: the signal handlers are registered and
    [entryApp.start()] is called. *)
Definition start
  (opts : ApplicationServer.ApplicationServerOptions) (timeout : nat) : t :=
  {| server := ApplicationServer.start (ApplicationServer.new opts);
     shutdownTimeout := timeout;
     exitTimeout := None; awaited_stop := None; exit_code := None |}.

(** [const exitProcess = () => { if (exitTimeout) clearTimeout(exitTimeout);
    process.exit(0) }] *)
Definition exitProcess (p : t) : t :=
  {| server := server p; shutdownTimeout := shutdownTimeout p;
     exitTimeout := exitTimeout p; awaited_stop := awaited_stop p;
     exit_code := Some 0%Z |}.

(** The [finally { exitProcess() }] of [tryExit], once the awaited
    [stop()] has resolved. *)
Definition settle (p : t) : t :=
  match awaited_stop p with
  | Some call =>
      if bool_decide (call ∈ ApplicationServer.stops_resolved (server p))
      then exitProcess p else p
  | None => p
  end.

(** [const tryExit = async (cb) => { if (exitTimeout) return;
    exitTimeout = setTimeout(exitProcess, shutdownTimeout);
    try { await cb() } ... finally { exitProcess() } }]
    with [cb = () => entryApp.stop()]. *)
Definition tryExit (p : t) : t :=
  match exitTimeout p with
  | Some _ => p
  | None =>
      settle {| server := ApplicationServer.stop (server p);
                shutdownTimeout := shutdownTimeout p;
                exitTimeout := Some (shutdownTimeout p);
                awaited_stop := Some (ApplicationServer.stop_calls (server p));
                exit_code := exit_code p |}
  end.

(** One tick of the clock: a running timer fires when no tick is left. *)
Definition tick (p : t) : t :=
  match exitTimeout p with
  | Some (S (S n)) =>
      {| server := server p; shutdownTimeout := shutdownTimeout p;
         exitTimeout := Some (S n); awaited_stop := awaited_stop p;
         exit_code := exit_code p |}
  | Some _ => exitProcess p
  | None => p
  end.

Inductive Input : Type :=
| Signal
| Tick
| Supervisor (i : ApplicationServer.Input).

(** Nothing runs after [process.exit]. *)
Definition handle (i : Input) (p : t) : t :=
  match exit_code p with
  | Some _ => p
  | None =>
      match i with
      | Signal => tryExit p
      | Tick => tick p
      | Supervisor i => settle (set_server (ApplicationServer.handle i (server p)) p)
      end
  end.

Definition run (inputs : list Input) (p : t) : t :=
  foldl (fun p i => handle i p) p inputs.

Definition is_Tick (i : Input) : bool :=
  match i with Tick => true | _ => false end.

(** The process runs, or has exited with code [0]. *)
Definition exited_zero_or_running (p : t) : Prop :=
  exit_code p = None \/ exit_code p = Some 0%Z.

(** What a fatal startup failure would be in [p]: the error logged as
    fatal, [Stop] posted to every worker of the set, and the process gone
    with a non-zero exit code. *)
Definition fatal_startup (err : string) (p : t) : Prop :=
  ApplicationServer.Fatal err ∈ ApplicationServer.log (server p)
  /\ (forall w, Some w ∈ ApplicationServer.workers (server p) ->
        (ApplicationServer.threadId w,
         {| ApplicationServer.type := ApplicationServer.Stop;
            ApplicationServer.payload := VUndefined |})
          ∈ ApplicationServer.posted (server p))
  /\ exists code, exit_code p = Some code /\ code <> 0%Z.

End Cli.

(** ** Concrete applications and supervisors *)

Module Examples.

(** An API worker with two transports, one of which fails to stop, and
    hooks for its shutdown. *)
Definition app : Application.t :=
  {| Application.options_type := Api;
     Application.transports :=
       [ {| Application.transport_name := "ws"; Application.start_rejects := None;
            Application.stop_rejects := Some "socket busy" |};
         {| Application.transport_name := "http"; Application.start_rejects := None;
            Application.stop_rejects := None |} ];
     Application.registry :=
       {| Application.hooks :=
            [ (Application.BeforeStop, Application.mkHookFn "drain" false);
              (Application.BeforeTerminate, Application.mkHookFn "flush" false);
              (Application.BeforeStop, Application.mkHookFn "notify" true);
              (Application.BeforeTerminate, Application.mkHookFn "close-db" false);
              (Application.AfterStop, Application.mkHookFn "report" false);
              (Application.AfterTerminate, Application.mkHookFn "bye" false);
              (Application.BeforeStart, Application.mkHookFn "warm-up" false) ];
          Application.commands := [] |};
     Application.registry_load_rejects := None;
     Application.container_load_rejects := None |}.

(** A supervisor of two task workers and one API worker. *)
Definition options : ApplicationServer.ApplicationServerOptions :=
  {| ApplicationServer.applicationPath := "app.js";
     ApplicationServer.taskWorkers := ApplicationServer.Count 2;
     ApplicationServer.apiWorkers := ApplicationServer.Count 1 |}.

Definition worker (thread : nat) (type : WorkerType) (id : nat)
  : ApplicationServer.Worker :=
  {| ApplicationServer.threadId := thread;
     ApplicationServer.workerData :=
       {| ApplicationServer.wd_applicationPath := "app.js";
          ApplicationServer.id := id;
          ApplicationServer.workerType := type;
          ApplicationServer.workerOptions := VUndefined;
          ApplicationServer.hasTaskRunners := true;
          ApplicationServer.isServer := true |} |}.

Definition task0 : ApplicationServer.Worker := worker 1 Task 0.
Definition task1 : ApplicationServer.Worker := worker 2 Task 1.
Definition api0 : ApplicationServer.Worker := worker 3 Api 0.

(** The supervisor after [start()] has created its workers. *)
Definition started : ApplicationServer.t :=
  ApplicationServer.start (ApplicationServer.new options).

End Examples.

(** ** Application: [terminate()] called again *)

Module Terminating.

Import Application.

(** [registry.clear()] with what it does to the hook bindings as a
    parameter: [kept hs] are the bindings it leaves of [hs] (registry.ts,
    which the application only imports, decides it).  [registry_clear] is
    the case in which every binding is kept. *)
Definition registry_clear_with
  (kept : list (Hook * HookFn) -> list (Hook * HookFn)) : Async unit :=
  app ← this;
  emit RegistryClear;;
  set_registry {| hooks := kept (hooks (registry app)); commands := [] |}.

(** [async terminate()] over such a registry. *)
Definition terminate_with
  (kept : list (Hook * HookFn) -> list (Hook * HookFn)) : Async unit :=
  hooks_call BeforeTerminate sequential_reverse;;
  container_dispose;;
  registry_clear_with kept;;
  hooks_call AfterTerminate sequential_reverse.






End Terminating.

(** ** Application: starting, and the connections *)

Module Starting.

Import Application.

(** One transport after the other, a rejected [start()] followed by the
    error the [catch] handler logs. *)
Definition transport_start_events (trs : list Transport) : list Event :=
  flat_map (fun tr =>
              TransportStart (transport_name tr)
              :: match start_rejects tr with
                 | Some cause =>
                     [LoggerError "Transport start error" (TransportRejected cause)]
                 | None => []
                 end)
           trs.

Definition is_transport_event (e : Event) : bool :=
  match e with
  | TransportStart _ | TransportStop _ => true
  | _ => false
  end.

(** No binding of the kind fails. *)
Definition hooks_pass (kind : Hook) (app : t) : bool :=
  forallb (fun f => negb (hook_throws f)) (bindings kind (hooks (registry app))).

(** A method that keeps the worker type and performs nothing on a
    transport. *)
Definition transport_free {A} (m : Async A) : Prop :=
  forall app,
    options_type (app_of (m app)) = options_type app
    /\ Forall (fun e => is_transport_event e = false) (trace_of (m app)).

(** The example application as a task worker. *)
Definition task_app : t :=
  {| options_type := Task;
     transports := transports Examples.app;
     registry := registry Examples.app;
     registry_load_rejects := None;
     container_load_rejects := None |}.

(** The example application with a registry, or a container, that fails to
    load. *)
Definition broken_registry : t :=
  {| options_type := Api;
     transports := transports Examples.app;
     registry := registry Examples.app;
     registry_load_rejects := Some "no such module";
     container_load_rejects := None |}.

Definition broken_container : t :=
  {| options_type := Api;
     transports := transports Examples.app;
     registry := registry Examples.app;
     registry_load_rejects := None;
     container_load_rejects := Some "no database" |}.

(** The application once [initializeEssential()] has registered its two
    commands. *)
Definition with_essentials (app : t) : t :=
  {| options_type := options_type app; transports := transports app;
     registry :=
       {| hooks := hooks (registry app);
          commands := (commands (registry app) ++ [(APP_COMMAND, "task")])
                      ++ [(APP_COMMAND, "registry")] |};
     registry_load_rejects := registry_load_rejects app;
     container_load_rejects := container_load_rejects app |}.

(** What [initialize()] does up to and including [registry.load()]. *)
Definition up_to_registry_load (e : Event) : bool :=
  match e with
  | HookInvoked BeforeInitialize _ | CommandRegistered _ _ | RegistryLoad => true
  | _ => false
  end.

End Starting.

Module Connections.

(** A [BaseTransportConnection], as far as the application looks at it: its
    [id]; [transport] stands for the rest of the object. *)
Record BaseTransportConnection : Type := mkConnection {
  id : string;
  transport : string;
}.

Global Instance BaseTransportConnection_eq_dec : EqDecision BaseTransportConnection.
Proof. solve_decision. Defined.

(** [readonly connections = new Map<string, BaseTransportConnection>()],
    with the application whose hooks the two methods call. *)
Record t : Type := mk {
  app : Application.t;
  connections : gmap string BaseTransportConnection;
}.

(** [this.registry.hooks.call(kind, { concurrent: true }, connection)]: the
    call is not awaited, so only what it does is kept. *)
Definition fire (kind : Application.Hook) (st : t) : list Application.Event :=
  Application.trace_of
    (Application.hooks_call kind
       {| Application.concurrent := true; Application.reverse := false |}
       (app st)).

(** [private addConnection(connection)] *)
Definition addConnection (connection : BaseTransportConnection) (st : t)
  : list Application.Event * t :=
  (fire Application.OnConnection st,
   {| app := app st;
      connections := <[id connection := connection]> (connections st) |}).

(** The argument of [removeConnection]: [BaseTransportConnection | string]. *)
Inductive ConnectionOrId : Type :=
| ById (i : string)
| ByConnection (connection : BaseTransportConnection).

(** [private removeConnection(connectionOrId)] *)
Definition removeConnection (connectionOrId : ConnectionOrId) (st : t)
  : list Application.Event * t :=
  let connection :=
    match connectionOrId with
    | ById i => connections st !! i
    | ByConnection c => Some c
    end in
  match connection with
  | Some c =>
      (fire Application.OnDisconnection st,
       {| app := app st; connections := delete (id c) (connections st) |})
  | None => ([], st)
  end.

(** [private getConnection(id)] *)
Definition getConnection (i : string) (st : t) : option BaseTransportConnection :=
  connections st !! i.

(** The calls a transport makes through [connections.{add, remove}]. *)
Inductive Op : Type :=
| Add (connection : BaseTransportConnection)
| Remove (connectionOrId : ConnectionOrId).

Definition apply (op : Op) (st : t) : list Application.Event * t :=
  match op with
  | Add c => addConnection c st
  | Remove x => removeConnection x st
  end.

Fixpoint run (ops : list Op) (st : t) : list Application.Event * t :=
  match ops with
  | [] => ([], st)
  | op :: rest =>
      let '(ev, st1) := apply op st in
      let '(evs, st2) := run rest st1 in
      (ev ++ evs, st2)
  end.

(** Every connection is filed under its own id. *)
Definition filed_by_id (st : t) : Prop :=
  forall k c, connections st !! k = Some c -> id c = k.

(** A fresh application without connections. *)
Definition init (a : Application.t) : t := {| app := a; connections := ∅ |}.

(** What a concurrent call of the hooks of a connection kind does: every
    binding of the kind is invoked, in registration order, and then the
    failures are logged. *)
Definition connection_hook_events (kind : Application.Hook) (a : Application.t)
  : list Application.Event :=
  let fns := Application.bindings kind
               (Application.hooks (Application.registry a)) in
  ((fun f => Application.HookInvoked kind (Application.hook_name f)) <$> fns)
  ++ ((fun f => Application.HookFailureLogged kind (Application.hook_name f))
        <$> filter (fun f => Application.hook_throws f = true) fns).

(** An application with hooks on its connections, one of which fails. *)
Definition chat_app : Application.t :=
  {| Application.options_type := Api;
     Application.transports := [];
     Application.registry :=
       {| Application.hooks :=
            [ (Application.OnConnection, Application.mkHookFn "greet" false);
              (Application.OnDisconnection, Application.mkHookFn "forget" true);
              (Application.OnConnection, Application.mkHookFn "count" false);
              (Application.OnDisconnection, Application.mkHookFn "audit" false) ];
          Application.commands := [] |};
     Application.registry_load_rejects := None;
     Application.container_load_rejects := None |}.

End Connections.

(** ** The command line: [execute] *)

Module Execute.

(** The character [':'] (code 58). *)
Definition colon : Ascii.ascii := Eval cbv in Ascii.ascii_of_nat 58.

(** [s.split(':')]: the pieces between the colons; there is always one. *)
Fixpoint split_colon (s : string) : list string :=
  match s with
  | EmptyString => [EmptyString]
  | String a rest =>
      if Ascii.eqb a colon then EmptyString :: split_colon rest
      else
        match split_colon rest with
        | piece :: pieces => String a piece :: pieces
        | [] => [String a EmptyString]
        end
  end.

(** The namespace a command is looked up in: [extension ?? APP_COMMAND]. *)
Inductive Namespace : Type :=
| AppCommand
| Extension (name : string).

(** [let [extension, commandName] = inputCommand.split(':');
     if (!commandName) { commandName = extension; extension = undefined }]
    and then the key pair of
    [app.registry.commands.get(extension ?? APP_COMMAND)?.get(commandName)]. *)
Definition resolve (inputCommand : string) : Namespace * string :=
  let pieces := split_colon inputCommand in
  let extension := default "" (pieces !! 0%nat) in
  let commandName := pieces !! 1%nat in
  if truthy_string commandName
  then (Extension extension, default "" commandName)
  else (AppCommand, extension).

Fixpoint has_colon (s : string) : bool :=
  match s with
  | EmptyString => false
  | String a rest => Ascii.eqb a colon || has_colon rest
  end.

End Execute.

(** ** The supervisor: courses of events *)

Module Supervision.

Import ApplicationServer.

(** The workers in the set, in insertion order. *)
Definition live (s : t) : list Worker := omap Datatypes.id (workers s).

(** How many workers [createWorkers] is asked for, and the options of the
    worker with a given id. *)
Definition count (ws : Workers) : nat :=
  match ws with Count n => n | Configs l => length l end.

Definition options_at (ws : Workers) (i : nat) : JsValue :=
  match ws with
  | Count _ => VUndefined
  | Configs l => default VUndefined (l !! i)
  end.

(** The worker [createWorkers] creates for id [i] when the first thread it
    gives out is [first], and the workers it creates for all ids. *)
Definition spawn (opts : ApplicationServerOptions) (type : WorkerType)
  (first : nat) (ws : Workers) (i : nat) : Worker :=
  {| threadId := first + i;
     workerData :=
       {| wd_applicationPath := applicationPath opts;
          id := i;
          workerType := type;
          workerOptions := options_at ws i;
          hasTaskRunners := truthy_workers (taskWorkers opts);
          isServer := true |} |}.

Definition spawned (opts : ApplicationServerOptions) (type : WorkerType)
  (first : nat) (ws : Workers) : list Worker :=
  spawn opts type first ws <$> seq 0 (count ws).

(** Each worker in turn comes online and reports [Ready]. *)
Definition handshake (ws : list Worker) : list Input :=
  flat_map (fun w => [Online w; Emitted w Ready VUndefined]) ws.

(** Each worker in turn exits, with the code [codes] gives it. *)
Definition exits (codes : Worker -> Z) (ws : list Worker) : list Input :=
  (fun w => Exited w (codes w)) <$> ws.

Definition stop_message (w : Worker) : nat * Message :=
  (threadId w, {| type := Stop; payload := VUndefined |}).

(** An exit with a non-zero code. *)
Definition is_crash (i : Input) : bool :=
  match i with
  | Exited _ code => negb (code =? 0)%Z
  | _ => false
  end.

(** [start()] is suspended on an event of [w]. *)
Definition awaits (w : Worker) (st : StartTask) : Prop :=
  match st with
  | AwaitOnline _ w' | AwaitReady _ w' _ => w' = w
  | _ => False
  end.

(** The pool holds the task workers of the set, and nothing else. *)
Definition pool_is_live_tasks (s : t) : Prop :=
  forall w, w ∈ Pool.items (taskRunners s)
            <-> Some w ∈ workers s /\ isTaskWorker w = true.

End Supervision.

(** * Properties *)

(** ** ApiError *)

Section ApiErrorFacts.
Import ApiError.

(** With a message argument the instance owns [message]: reading it gives
    the text alone. *)
Lemma message_of_new_with_text c m d :
  message (new c (Some m) d) = m.
Proof. reflexivity. Qed.

(** Without one the accessor runs and yields the code. *)
Lemma message_of_new_without_text c d :
  message (new c None d) = c.
Proof.
  unfold message, message_getter, Error_prototype_message; simpl.
  induction c as [|a c IH]; [reflexivity|].
  change (String a (c +:+ "") = String a c). f_equal. exact IH.
Qed.

Lemma length_append (s1 s2 : string) :
  String.length (s1 +:+ s2) = (String.length s1 + String.length s2)%nat.
Proof.
  induction s1 as [|a s1 IH]; [reflexivity|].
  change (S (String.length (s1 +:+ s2))
          = S (String.length s1 + String.length s2)).
  f_equal. exact IH.
Qed.

(** With a message argument and a code that is not empty, the [message]
    property is never the code followed by the text. *)
Lemma message_is_not_code_and_text c m d :
  c <> "" -> message (new c (Some m) d) <> c +:+ m.
Proof.
  intros Hc H. rewrite message_of_new_with_text in H.
  apply (f_equal String.length) in H. rewrite length_append in H.
  destruct c as [|a c]; [contradiction|]. simpl in H. lia.
Qed.

(** [toJSON()] is the record of [code], the [message] property and
    [data]. *)
Lemma toJSON_fields e :
  toJSON e = {| wire_code := code e; wire_message := message e;
                wire_data := data e |}.
Proof. reflexivity. Qed.

(** C8, at [new ApiError('NotFound', 'no such procedure')]: the [message]
    property is the human text alone, not the code followed by the text,
    and [toJSON()] carries that same text; the accessor that concatenates
    is shadowed by the own property the [Error] constructor defines. *)
Theorem ApiError_message_is_text_alone :
  let e := new "NotFound" (Some "no such procedure") VUndefined in
  message e = "no such procedure"
  /\ message e <> "NotFound" +:+ "no such procedure"
  /\ message_getter e = "NotFound"
  /\ toJSON e = {| wire_code := "NotFound";
                   wire_message := "no such procedure";
                   wire_data := VUndefined |}.
Proof. repeat split; try reflexivity. discriminate. Qed.

End ApiErrorFacts.

(** ** BaseClient.stream *)

Section ClientFacts.
Import BaseClient.
Local Open Scope Z_scope.

Lemma js_incr_exact n : n < MAX_EXACT -> js_incr n = n + 1.
Proof.
  intros H. unfold js_incr.
  destruct (Z.ltb_spec n MAX_EXACT) as [_|Hge]; [reflexivity|lia].
Qed.

(** At [2^53] the counter no longer moves. *)
Lemma js_incr_stationary : js_incr MAX_EXACT = MAX_EXACT.
Proof. reflexivity. Qed.

(** A call either throws and leaves the client alone, or returns the
    stream it stored under the incremented counter. *)
Lemma stream_cases source metadata c :
  (exists msg, stream source metadata c = (Thrown msg, c))
  \/ (exists m,
        let id := js_incr (streamId c) in
        let s := {| up_id := id; up_metadata := m; up_source := source |} in
        stream source metadata c
        = (Returned s, {| up := <[id := s]> (up c); down := down c;
                          streamId := id |})).
Proof.
  unfold stream.
  destruct (fill_size source (fill_type source metadata)) as [m|msg].
  - right. exists m. reflexivity.
  - left. exists msg. reflexivity.
Qed.

Lemma keys_allocated_new : keys_allocated new.
Proof.
  intros k [s Hs]. simpl in Hs. rewrite lookup_empty in Hs. discriminate.
Qed.

Lemma stream_keeps_keys_allocated source metadata c :
  0 <= streamId c -> streamId c < MAX_EXACT ->
  keys_allocated c -> keys_allocated (stream source metadata c).2.
Proof.
  intros H0 Hlt Hinv.
  destruct (stream_cases source metadata c) as [[msg ->]|[m ->]]; [exact Hinv|].
  simpl. rewrite (js_incr_exact _ Hlt). intros k Hk. simpl in Hk |- *.
  destruct (decide (streamId c + 1 = k)) as [<-|Hne]; [lia|].
  rewrite lookup_insert_ne in Hk by exact Hne.
  specialize (Hinv k Hk). lia.
Qed.

(** The ids of a run of calls: increasing, above the counter the run
    started from, and within the counter it ends with. *)
Lemma stream_all_ids calls : forall c,
  0 <= streamId c ->
  streamId c + Z.of_nat (length calls) <= MAX_EXACT ->
  StronglySorted Z.lt (allocated (stream_all calls c).1)
  /\ Forall (fun id => streamId c < id <= streamId (stream_all calls c).2)
            (allocated (stream_all calls c).1)
  /\ streamId c <= streamId (stream_all calls c).2
     <= streamId c + Z.of_nat (length calls).
Proof.
  induction calls as [|[source metadata] rest IH]; intros c H0 Hlen.
  - simpl. split; [constructor|]. split; [constructor|]. lia.
  - rewrite length_cons, Nat2Z.inj_succ in Hlen. simpl.
    destruct (stream_cases source metadata c) as [[msg Hs]|[m Hs]];
      rewrite Hs; clear Hs.
    + destruct (IH c H0 ltac:(lia)) as (Hsorted & Hall & Hbound).
      destruct (stream_all rest c) as [rs c2]. simpl in *.
      split; [exact Hsorted|]. split; [exact Hall|]. lia.
    + rewrite (js_incr_exact (streamId c)) by lia.
      set (c1 := {| up := _; down := _; streamId := streamId c + 1 |}).
      destruct (IH c1 ltac:(simpl; lia) ltac:(simpl; lia))
        as (Hsorted & Hall & Hbound).
      destruct (stream_all rest c1) as [rs c2]. simpl in *.
      split.
      * constructor; [exact Hsorted|].
        eapply Forall_impl; [exact Hall|]. simpl. intros id Hid. lia.
      * split; [|lia].
        constructor; [lia|].
        eapply Forall_impl; [exact Hall|]. simpl. intros id Hid. lia.
Qed.

Lemma StronglySorted_lt_NoDup (l : list Z) : StronglySorted Z.lt l -> NoDup l.
Proof.
  induction 1 as [|x l Hs IH Hall]; constructor; [|exact IH].
  intros Hin. rewrite Forall_forall in Hall. specialize (Hall x Hin). lia.
Qed.

(** C9.  On a client whose counter stays within the range where [++] is
    exact, the ids given out by a sequence of [stream()] calls increase
    strictly from call to call, so none is given out twice, and each is
    greater than the counter the sequence started from, hence greater than
    every key given out before and a key the upstream map does not hold
    yet. *)
Theorem stream_ids_strictly_increase
  (calls : list (Source * Metadata)) (c : t) :
  0 <= streamId c ->
  streamId c + Z.of_nat (length calls) <= MAX_EXACT ->
  keys_allocated c ->
  let ids := allocated (stream_all calls c).1 in
  StronglySorted Z.lt ids
  /\ NoDup ids
  /\ Forall (fun id => streamId c < id) ids
  /\ Forall (fun id => up c !! id = None) ids.
Proof.
  intros H0 Hlen Hinv ids.
  destruct (stream_all_ids calls c H0 Hlen) as (Hsorted & Hall & _).
  split; [exact Hsorted|].
  split; [apply StronglySorted_lt_NoDup; exact Hsorted|].
  split.
  - eapply Forall_impl; [exact Hall|]. simpl. intros id Hid. lia.
  - eapply Forall_impl; [exact Hall|]. simpl. intros id Hid.
    destruct (up c !! id) eqn:Hl; [|reflexivity].
    specialize (Hinv id (mk_is_Some _ _ Hl)). lia.
Qed.

Lemma stream_ids_strictly_increase_witness :
  let calls := [(SBlob 5 "text/plain", no_metadata);
                (SReadableStream, no_metadata);
                (SArrayBuffer 16, no_metadata);
                (SFile 7 "image/png" "a.png", no_metadata)] in
  allocated (stream_all calls new).1 = [1; 2; 3]
  /\ StronglySorted Z.lt (allocated (stream_all calls new).1)
  /\ NoDup (allocated (stream_all calls new).1).
Proof.
  intros calls. split; [reflexivity|].
  pose proof (stream_ids_strictly_increase calls new) as H.
  destruct H as (Hs & Hn & _).
  - simpl. lia.
  - unfold MAX_EXACT. simpl. lia.
  - exact keys_allocated_new.
  - split; [exact Hs|exact Hn].
Defined.

(** C10.  Without a (truthy) [metadata.size], [stream()] on a
    ReadableStream throws "Size is required for ReadableStream" and leaves
    the client as it was: upstream map and counter unchanged.  On a Blob
    (a File included) or an ArrayBuffer it takes the size from the source,
    returns the stream and stores it under its id. *)
Theorem stream_size_required (metadata : Metadata) (c : t) :
  truthy_number (size metadata) = false ->
  stream SReadableStream metadata c
  = (Thrown "Size is required for ReadableStream", c)
  /\ forall source,
       instanceof_Blob source || instanceof_ArrayBuffer source = true ->
       exists s,
         (stream source metadata c).1 = Returned s
         /\ size (up_metadata s) = Some (blob_size source)
         /\ up_source s = source
         /\ up_id s = js_incr (streamId c)
         /\ up (stream source metadata c).2 !! up_id s = Some s
         /\ streamId (stream source metadata c).2 = up_id s.
Proof.
  intros Hsize. split.
  - unfold stream, fill_type, fill_size. simpl. rewrite Hsize. reflexivity.
  - intros source Hsrc. unfold stream, fill_size.
    assert (Hsz : size (fill_type source metadata) = size metadata).
    { unfold fill_type.
      destruct (instanceof_File source && negb (truthy_string (filename metadata)));
        reflexivity. }
    rewrite Hsz, Hsize. simpl.
    destruct (instanceof_Blob source) eqn:Hb.
    + eexists. simpl. repeat split. apply lookup_insert_eq.
    + simpl in Hsrc. rewrite Hsrc.
      eexists. simpl. repeat split. apply lookup_insert_eq.
Qed.

Lemma stream_size_required_witness :
  stream SReadableStream no_metadata new
  = (Thrown "Size is required for ReadableStream", new)
  /\ (stream (SBlob 5 "text/plain") no_metadata new).1
     = Returned {| up_id := 1;
                   up_metadata := {| filename := None; type := None;
                                     size := Some 5 |};
                   up_source := SBlob 5 "text/plain" |}.
Proof.
  destruct (stream_size_required no_metadata new) as [Hthrow _];
    [reflexivity|].
  split; [exact Hthrow|reflexivity].
Defined.

End ClientFacts.

(** ** Application lifecycle *)

Section AppFacts.
Import Application.

(** [await] laws used below. *)
Lemma bind_fulfilled {A B} (m : Async A) (k : A -> Async B) app tr app1 a :
  m app = (tr, app1, Fulfilled a) ->
  (m ≫= k) app = (tr ++ trace_of (k a app1), app_of (k a app1),
                  settled_of (k a app1)).
Proof.
  intros Hm. unfold mbind, Async_bind. rewrite Hm.
  destruct (k a app1) as [[tr2 app2] r]. reflexivity.
Qed.

Lemma bind_rejected {A B} (m : Async A) (k : A -> Async B) app tr app1 e :
  m app = (tr, app1, Rejected e) ->
  (m ≫= k) app = (tr, app1, Rejected e).
Proof. intros Hm. unfold mbind, Async_bind. rewrite Hm. reflexivity. Qed.

(** A sequential pass over bindings of a kind that is not start-sensitive
    invokes every binding in the order given, logs the failures, leaves
    the application alone and resolves. *)
Lemma call_sequential_teardown kind fns app :
  start_sensitive kind = false ->
  call_sequential kind fns app = (hook_events kind fns, app, Fulfilled tt).
Proof.
  intros Hkind. induction fns as [|f rest IH]; [reflexivity|].
  simpl. rewrite Hkind.
  destruct (hook_throws f).
  - erewrite bind_fulfilled by reflexivity.
    erewrite (bind_fulfilled (emit (HookFailureLogged _ _))) by reflexivity.
    rewrite IH. reflexivity.
  - erewrite bind_fulfilled by reflexivity.
    rewrite IH. reflexivity.
Qed.

Lemma hooks_call_teardown kind rev_order app :
  start_sensitive kind = false ->
  hooks_call kind {| concurrent := false; reverse := rev_order |} app
  = (hook_events kind
       (if rev_order then rev (bindings kind (hooks (registry app)))
        else bindings kind (hooks (registry app))),
     app, Fulfilled tt).
Proof.
  intros Hkind. unfold hooks_call.
  erewrite bind_fulfilled by reflexivity. simpl.
  rewrite call_sequential_teardown by exact Hkind. reflexivity.
Qed.

(** Stopping the transports: every one is stopped, in order; a rejection
    is logged and the loop goes on. *)
Lemma stop_transports trs app :
  for_each trs (fun transport =>
    catch (transport_stop transport)
          (fun cause => logger_error "Transport stop error" cause)) app
  = (transport_stop_events trs, app, Fulfilled tt).
Proof.
  induction trs as [|tr rest IH]; [reflexivity|].
  simpl for_each.
  assert (Hone :
    catch (transport_stop tr)
          (fun cause => logger_error "Transport stop error" cause) app
    = (TransportStop (transport_name tr)
       :: match stop_rejects tr with
          | Some cause =>
              [LoggerError "Transport stop error" (TransportRejected cause)]
          | None => []
          end, app, Fulfilled tt)).
  { unfold catch, transport_stop.
    destruct (stop_rejects tr) as [cause|]; reflexivity. }
  erewrite bind_fulfilled by exact Hone.
  rewrite IH. reflexivity.
Qed.

Lemma terminate_runs app :
  terminate app
  = (hook_events BeforeTerminate
       (rev (bindings BeforeTerminate (hooks (registry app))))
     ++ [ContainerDispose; RegistryClear]
     ++ hook_events AfterTerminate
          (rev (bindings AfterTerminate (hooks (registry app)))),
     cleared app, Fulfilled tt).
Proof.
  unfold terminate.
  erewrite bind_fulfilled
    by (apply (hooks_call_teardown BeforeTerminate true); reflexivity).
  f_equal; [f_equal|].
  - f_equal. unfold trace_of.
    erewrite bind_fulfilled by reflexivity.
    erewrite (bind_fulfilled registry_clear) by reflexivity.
    rewrite (hooks_call_teardown AfterTerminate true) by reflexivity.
    reflexivity.
  - unfold app_of.
    erewrite bind_fulfilled by reflexivity.
    erewrite (bind_fulfilled registry_clear) by reflexivity.
    rewrite (hooks_call_teardown AfterTerminate true) by reflexivity.
    reflexivity.
  - unfold settled_of.
    erewrite bind_fulfilled by reflexivity.
    erewrite (bind_fulfilled registry_clear) by reflexivity.
    rewrite (hooks_call_teardown AfterTerminate true) by reflexivity.
    reflexivity.
Qed.

Lemma stop_runs app :
  stop app
  = (hook_events BeforeStop (bindings BeforeStop (hooks (registry app)))
     ++ (if isApiWorker app then transport_stop_events (transports app) else [])
     ++ hook_events AfterStop (bindings AfterStop (hooks (registry app)))
     ++ trace_of (terminate app),
     app_of (terminate app), Fulfilled tt).
Proof.
  unfold stop.
  erewrite bind_fulfilled
    by (apply (hooks_call_teardown BeforeStop false); reflexivity).
  erewrite (bind_fulfilled this) by reflexivity.
  assert (Htr :
    (if isApiWorker app
     then for_each (transports app) (fun transport =>
            catch (transport_stop transport)
                  (fun cause => logger_error "Transport stop error" cause))
     else mret tt) app
    = ((if isApiWorker app then transport_stop_events (transports app) else []),
       app, Fulfilled tt)).
  { destruct (isApiWorker app); [apply stop_transports|reflexivity]. }
  erewrite (bind_fulfilled _ _ app) by exact Htr.
  erewrite (bind_fulfilled (hooks_call AfterStop sequential))
    by (apply (hooks_call_teardown AfterStop false); reflexivity).
  rewrite terminate_runs. reflexivity.
Qed.

End AppFacts.

Section LifecycleClaims.
Import Application.

(** C1.  [stop()] runs the [BeforeStop] hooks one after the other in
    registration order, then on an API worker stops every transport in
    turn, a failure being logged and the loop going on, then runs the
    [AfterStop] hooks, then [terminate()]; [terminate()] runs the
    [BeforeTerminate] hooks one after the other in reverse registration
    order, then [container.dispose()], then [registry.clear()], then the
    [AfterTerminate] hooks in reverse registration order.  Both resolve. *)
Theorem stop_and_terminate_order (app : t) :
  let hs := hooks (registry app) in
  stop app
  = (hook_events BeforeStop (bindings BeforeStop hs)
     ++ (if isApiWorker app then transport_stop_events (transports app) else [])
     ++ hook_events AfterStop (bindings AfterStop hs)
     ++ trace_of (terminate app),
     app_of (terminate app), Fulfilled tt)
  /\ terminate app
     = (hook_events BeforeTerminate (rev (bindings BeforeTerminate hs))
        ++ [ContainerDispose; RegistryClear]
        ++ hook_events AfterTerminate (rev (bindings AfterTerminate hs)),
        cleared app, Fulfilled tt).
Proof. split; [apply stop_runs|apply terminate_runs]. Qed.

(** The shutdown of the example application, event by event. *)
Example stop_of_example :
  trace_of (stop Examples.app)
  = [HookInvoked BeforeStop "drain";
     HookInvoked BeforeStop "notify";
     HookFailureLogged BeforeStop "notify";
     TransportStop "ws";
     LoggerError "Transport stop error" (TransportRejected "socket busy");
     TransportStop "http";
     HookInvoked AfterStop "report";
     HookInvoked BeforeTerminate "close-db";
     HookInvoked BeforeTerminate "flush";
     ContainerDispose;
     RegistryClear;
     HookInvoked AfterTerminate "bye"].
Proof. reflexivity. Qed.

Lemma cleared_hooks app : hooks (registry (cleared app)) = hooks (registry app).
Proof. reflexivity. Qed.

Lemma cleared_cleared app : cleared (cleared app) = cleared app.
Proof. reflexivity. Qed.


Import Terminating.


Lemma terminate_with_all_kept app :
  terminate_with (fun hs => hs) app = terminate app.
Proof. reflexivity. Qed.








End LifecycleClaims.

Section NoLifecycleState.
Import Application.

Create HintDb lifecycle.

Lemma never_ret {A} (a : A) : never_InvalidState (mret a).
Proof. intros app. discriminate. Qed.

Lemma never_emit e : never_InvalidState (emit e).
Proof. intros app. discriminate. Qed.

Lemma never_this : never_InvalidState this.
Proof. intros app. discriminate. Qed.

Lemma never_set_registry r : never_InvalidState (set_registry r).
Proof. intros app. discriminate. Qed.

Lemma never_reject {A} e : e <> InvalidState -> never_InvalidState (@reject A e).
Proof. intros He app. simpl. congruence. Qed.

Lemma never_bind {A B} (m : Async A) (k : A -> Async B) :
  never_InvalidState m -> (forall a, never_InvalidState (k a)) ->
  never_InvalidState (m ≫= k).
Proof.
  intros Hm Hk app. specialize (Hm app).
  destruct (m app) as [[tr app1] [a|e]] eqn:Heq.
  - erewrite bind_fulfilled by exact Heq. apply Hk.
  - erewrite bind_rejected by exact Heq. simpl in *.
    intros H. injection H as ->. apply Hm. reflexivity.
Qed.

Lemma never_catch {A} (m : Async A) (h : Error -> Async A) :
  (forall e, never_InvalidState (h e)) -> never_InvalidState (catch m h).
Proof.
  intros Hh app. unfold catch.
  destruct (m app) as [[tr app1] [a|e]]; [discriminate|].
  specialize (Hh e app1).
  destruct (h e app1) as [[tr2 app2] r]. exact Hh.
Qed.

Lemma never_for_each {A} (xs : list A) (body : A -> Async unit) :
  (forall x, never_InvalidState (body x)) ->
  never_InvalidState (for_each xs body).
Proof.
  intros Hbody. induction xs as [|x rest IH]; simpl.
  - apply never_ret.
  - apply never_bind; [apply Hbody|intros _; exact IH].
Qed.

Hint Resolve never_ret never_emit never_this never_set_registry
  never_bind never_catch never_for_each : lifecycle.

Lemma never_call_sequential kind fns :
  never_InvalidState (call_sequential kind fns).
Proof.
  induction fns as [|f rest IH]; simpl; [apply never_ret|].
  apply never_bind; [apply never_emit|intros _].
  destruct (hook_throws f); [|exact IH].
  destruct (start_sensitive kind).
  - apply never_reject. discriminate.
  - apply never_bind; [apply never_emit|intros _; exact IH].
Qed.

Lemma never_call_concurrent kind fns :
  never_InvalidState (call_concurrent kind fns).
Proof.
  unfold call_concurrent.
  apply never_bind; [auto with lifecycle|intros _].
  apply never_bind; [auto with lifecycle|intros _].
  destruct (_ && _); [apply never_reject; discriminate|apply never_ret].
Qed.

Lemma never_hooks_call kind options : never_InvalidState (hooks_call kind options).
Proof.
  unfold hooks_call. apply never_bind; [apply never_this|intros app].
  destruct (concurrent options);
    [apply never_call_concurrent|apply never_call_sequential].
Qed.

Hint Resolve never_hooks_call : lifecycle.

Lemma never_registerCommand namespace name :
  never_InvalidState (registerCommand namespace name).
Proof.
  unfold registerCommand.
  apply never_bind; [apply never_this|intros app].
  apply never_bind; [apply never_emit|intros _]. apply never_set_registry.
Qed.

Lemma never_registry_load : never_InvalidState registry_load.
Proof.
  unfold registry_load.
  apply never_bind; [apply never_this|intros app].
  apply never_bind; [apply never_emit|intros _].
  destruct (registry_load_rejects app);
    [apply never_reject; discriminate|apply never_ret].
Qed.

Lemma never_container_load : never_InvalidState container_load.
Proof.
  unfold container_load.
  apply never_bind; [apply never_this|intros app].
  apply never_bind; [apply never_emit|intros _].
  destruct (container_load_rejects app);
    [apply never_reject; discriminate|apply never_ret].
Qed.

Hint Resolve never_registerCommand never_registry_load
  never_container_load : lifecycle.

Lemma never_initialize : never_InvalidState initialize.
Proof.
  unfold initialize, initializeEssential.
  repeat (apply never_bind; [auto with lifecycle|intros _]).
  auto with lifecycle.
Qed.

Lemma never_start : never_InvalidState start.
Proof.
  unfold start.
  apply never_bind; [apply never_initialize|intros _].
  apply never_bind; [apply never_hooks_call|intros _].
  apply never_bind; [apply never_this|intros app].
  apply never_bind; [|intros _; apply never_hooks_call].
  destruct (isApiWorker app); [|apply never_ret].
  apply never_for_each. intros tr. apply never_catch. intros e.
  unfold logger_error. apply never_emit.
Qed.

Lemma start_begins_with_initialize app :
  trace_of (initialize app) `prefix_of` trace_of (start app).
Proof.
  unfold start.
  destruct (initialize app) as [[tr app1] [[]|e]] eqn:Heq.
  - erewrite bind_fulfilled by exact Heq. simpl. eexists. reflexivity.
  - erewrite bind_rejected by exact Heq. simpl. reflexivity.
Qed.

(** C5, counterexample.  After [stop()] has completed, the application of
    the example is [Terminated] in the lifecycle of the specification, from
    which [start] is not a transition; yet [start()] is not rejected: it
    initializes, runs the start hooks and starts the transports. *)
Lemma start_after_stop_not_rejected :
  settled_of (stop Examples.app) = Fulfilled tt
  /\ start_permitted (completes_in Stop) = false
  /\ ~ rejected_InvalidState start (app_of (stop Examples.app))
  /\ trace_of (start (app_of (stop Examples.app)))
     = [CommandRegistered APP_COMMAND "task";
        CommandRegistered APP_COMMAND "registry";
        RegistryLoad; ContainerLoad;
        HookInvoked BeforeStart "warm-up";
        TransportStart "ws"; TransportStart "http"]
  /\ settled_of (start (app_of (stop Examples.app))) = Fulfilled tt.
Proof.
  repeat split; try reflexivity.
  unfold rejected_InvalidState. intros H.
  apply (f_equal settled_of) in H. vm_compute in H. discriminate H.
Qed.

Lemma never_registry_clear : never_InvalidState registry_clear.
Proof.
  unfold registry_clear.
  apply never_bind; [apply never_this|intros app].
  apply never_bind; [apply never_emit|intros _]. apply never_set_registry.
Qed.

Lemma never_terminate : never_InvalidState terminate.
Proof.
  unfold terminate, container_dispose.
  apply never_bind; [apply never_hooks_call|intros _].
  apply never_bind; [apply never_emit|intros _].
  apply never_bind; [apply never_registry_clear|intros _].
  apply never_hooks_call.
Qed.

Lemma never_stop : never_InvalidState stop.
Proof.
  unfold stop.
  apply never_bind; [apply never_hooks_call|intros _].
  apply never_bind; [apply never_this|intros app].
  apply never_bind; [|intros _].
  - destruct (isApiWorker app); [|apply never_ret].
    apply never_for_each. intros tr. apply never_catch. intros e.
    unfold logger_error. apply never_emit.
  - apply never_bind; [apply never_hooks_call|intros _].
    apply never_terminate.
Qed.

(** C5, as amended.  [Application] holds no lifecycle state and checks no
    precondition: whatever was called before, none of [initialize()],
    [start()], [stop()] and [terminate()] is ever rejected with
    [InvalidState] (a rejection carries what a hook, [registry.load()] or
    [container.load()] failed with), and [start()] begins by running
    [initialize()]; in particular [start()] after a completed [stop()] is
    not rejected as an invalid transition. *)
Theorem lifecycle_has_no_InvalidState (app : t) :
  settled_of (initialize app) <> Rejected InvalidState
  /\ settled_of (start app) <> Rejected InvalidState
  /\ settled_of (stop app) <> Rejected InvalidState
  /\ settled_of (terminate app) <> Rejected InvalidState
  /\ trace_of (initialize app) `prefix_of` trace_of (start app)
  /\ ~ rejected_InvalidState start (app_of (stop app)).
Proof.
  split; [apply never_initialize|].
  split; [apply never_start|].
  split; [apply never_stop|].
  split; [apply never_terminate|].
  split; [apply start_begins_with_initialize|].
  intros H. apply (never_start (app_of (stop app))).
  rewrite H. reflexivity.
Qed.

End NoLifecycleState.

(** ** The supervisor *)

Section ServerFacts.
Import ApplicationServer.

(** *** The worker set *)

Lemma set_add_elem w entries : Some w ∈ set_add w entries.
Proof.
  unfold set_add, set_has. case_bool_decide as H; [exact H|].
  apply elem_of_app. right. apply list_elem_of_singleton. reflexivity.
Qed.

Lemma set_add_inv w x entries :
  Some x ∈ set_add w entries -> x = w \/ Some x ∈ entries.
Proof.
  unfold set_add. destruct (set_has w entries); [auto|].
  intros [H|H]%elem_of_app; [auto|].
  apply list_elem_of_singleton in H. left. congruence.
Qed.

Lemma set_delete_inv w x entries :
  Some x ∈ set_delete w entries -> x <> w /\ Some x ∈ entries.
Proof.
  unfold set_delete. intros (e & He & Hin)%list_elem_of_fmap.
  destruct (decide (e = Some w)) as [->|Hne]; [discriminate|].
  subst e. split; [congruence|exact Hin].
Qed.

Lemma set_next_from_elem entries : forall index j w,
  set_next_from index entries = Some (j, w) ->
  entries !! j = Some (Some w) /\ (index <= j)%nat.
Proof.
  induction entries as [|e rest IH]; intros index j w H; [discriminate|].
  simpl in H. destruct index as [|index'].
  - destruct e as [x|].
    + injection H as <- <-. split; [reflexivity|lia].
    + destruct (set_next_from 0 rest) as [[j' w']|] eqn:Hn; [|discriminate].
      injection H as <- <-. destruct (IH _ _ _ Hn) as [Hl _].
      split; [exact Hl|lia].
  - destruct (set_next_from index' rest) as [[j' w']|] eqn:Hn; [|discriminate].
    injection H as <- <-. destruct (IH _ _ _ Hn) as [Hl Hle].
    split; [exact Hl|lia].
Qed.

(** A set that holds a worker has a first one. *)
Lemma set_next_from_0_some entries w :
  Some w ∈ entries -> exists j first, set_next_from 0 entries = Some (j, first).
Proof.
  induction entries as [|e rest IH]; intros Hin.
  - apply elem_of_nil in Hin. destruct Hin.
  - simpl. destruct e as [x|]; [eauto|].
    apply elem_of_cons in Hin as [Heq|Hin]; [discriminate|].
    destruct (IH Hin) as (j & first & ->). simpl. eauto.
Qed.

(** *** [stop()] and the loops it resumes *)

Lemma stop_effect_refl s : stop_effect s s.
Proof.
  split; try reflexivity. exists []. split; [|constructor].
  symmetry. apply app_nil_r.
Qed.

Lemma stop_effect_trans s1 s2 s3 :
  stop_effect s1 s2 -> stop_effect s2 s3 -> stop_effect s1 s3.
Proof.
  intros [Hw1 Hp1 Ht1 Hs1 Hl1 (st1 & Hq1 & Hf1)]
         [Hw2 Hp2 Ht2 Hs2 Hl2 (st2 & Hq2 & Hf2)].
  split; try congruence.
  exists (st1 ++ st2). split.
  - rewrite Hq2, Hq1, app_assoc. reflexivity.
  - apply Forall_app. split; assumption.
Qed.

Lemma stop_from_effect call index s : stop_effect s (stop_from call index s).
Proof.
  unfold stop_from. destruct (set_next_from index (workers s)) as [[j w]|].
  - split; try reflexivity. simpl.
    exists [(threadId w, {| type := Stop; payload := VUndefined |})].
    split; [reflexivity|]. constructor; [reflexivity|constructor].
  - split; try reflexivity. simpl. exists []. split; [|constructor].
    symmetry. apply app_nil_r.
Qed.

Lemma set_stopping_effect ts s : stop_effect s (set_stopping ts s).
Proof.
  split; try reflexivity. simpl. exists []. split; [|constructor].
  symmetry. apply app_nil_r.
Qed.

Lemma resume_stops_effect w s : stop_effect s (resume_stops w s).
Proof.
  unfold resume_stops.
  assert (H : forall tasks s0, stop_effect s s0 ->
            stop_effect s
              (foldl (fun s task =>
                        if decide (stop_worker task = w)
                        then stop_from (stop_call task) (S (stop_index task)) s
                        else set_stopping (stopping s ++ [task]) s)
                     s0 tasks)).
  { induction tasks as [|task rest IH]; intros s0 H0; [exact H0|].
    simpl. apply IH. eapply stop_effect_trans; [exact H0|].
    destruct (decide (stop_worker task = w));
      [apply stop_from_effect|apply set_stopping_effect]. }
  apply H. apply set_stopping_effect.
Qed.

(** *** The exit of a worker *)

(** The worker [createWorker(type, id, options)] creates in state [s]. *)
Lemma createWorker_worker type i opts s :
  (createWorker type i opts s).1
  = {| threadId := next_threadId s;
       workerData :=
         {| wd_applicationPath := applicationPath (options s);
            id := i; workerType := type; workerOptions := opts;
            hasTaskRunners := truthy_workers (taskWorkers (options s));
            isServer := true |} |}.
Proof. reflexivity. Qed.

Lemma createWorker_state type i opts s :
  let w := (createWorker type i opts s).1 in
  let s' := (createWorker type i opts s).2 in
  workers s' = set_add w (workers s)
  /\ next_threadId s' = S (next_threadId s)
  /\ posted s' = posted s
  /\ log s' = log s
  /\ exiting s' = exiting s
  /\ starting s' = starting s
  /\ stopping s' = stopping s
  /\ taskRunners s'
     = (if isTaskWorker w then Pool.add w (taskRunners s) else taskRunners s).
Proof.
  unfold createWorker. simpl.
  destruct (isTaskWorker _); simpl; repeat split; reflexivity.
Qed.

(** The listener on a crash outside a shutdown: the replacement and the
    [Start] message. *)
Lemma exit_listener_crash w code s :
  code <> 0%Z -> exiting s = false ->
  let replacement :=
    {| threadId := next_threadId s;
       workerData :=
         {| wd_applicationPath := applicationPath (options s);
            id := id (workerData w);
            workerType := workerType (workerData w);
            workerOptions := workerOptions (workerData w);
            hasTaskRunners := truthy_workers (taskWorkers (options s));
            isServer := true |} |} in
  let s' := exit_listener w code s in
  workers s' = set_add replacement (set_delete w (workers s))
  /\ posted s'
     = posted s ++ [(threadId replacement,
                     {| type := Start; payload := VUndefined |})]
  /\ next_threadId s' = S (next_threadId s)
  /\ log s' = log s ++ [FatalCrashed (threadId w) code]
  /\ (isTaskWorker w = true ->
      replacement ∈ Pool.items (taskRunners s')).
Proof.
  intros Hcode Hexit. unfold exit_listener.
  destruct (decide (code ≠ 0%Z)) as [_|Hc]; [|contradiction].
  destruct (isTaskWorker w && Pool.includes w _) eqn:Hpool; simpl;
    rewrite Hexit; simpl.
  - unfold createWorker. simpl.
    apply andb_prop in Hpool as [Htask _].
    assert (Hrep : isTaskWorker
              {| threadId := next_threadId s;
                 workerData :=
                   {| wd_applicationPath := applicationPath (options s);
                      id := id (workerData w);
                      workerType := workerType (workerData w);
                      workerOptions := workerOptions (workerData w);
                      hasTaskRunners := truthy_workers (taskWorkers (options s));
                      isServer := true |} |} = true) by exact Htask.
    rewrite Hrep. simpl. repeat split.
    intros _. apply elem_of_app. right. apply list_elem_of_singleton.
    reflexivity.
  - unfold createWorker. simpl.
    destruct (isTaskWorker w) eqn:Htask.
    + assert (Hrep : isTaskWorker
              {| threadId := next_threadId s;
                 workerData :=
                   {| wd_applicationPath := applicationPath (options s);
                      id := id (workerData w);
                      workerType := workerType (workerData w);
                      workerOptions := workerOptions (workerData w);
                      hasTaskRunners := truthy_workers (taskWorkers (options s));
                      isServer := true |} |} = true) by exact Htask.
      rewrite Hrep. simpl. repeat split.
      intros _. apply elem_of_app. right. apply list_elem_of_singleton.
      reflexivity.
    + assert (Hrep : isTaskWorker
              {| threadId := next_threadId s;
                 workerData :=
                   {| wd_applicationPath := applicationPath (options s);
                      id := id (workerData w);
                      workerType := workerType (workerData w);
                      workerOptions := workerOptions (workerData w);
                      hasTaskRunners := truthy_workers (taskWorkers (options s));
                      isServer := true |} |} = false) by exact Htask.
      rewrite Hrep. simpl. repeat split. discriminate.
Qed.

(** The listener on a graceful exit, or on any exit during a shutdown:
    the worker leaves the set, nothing is created, nothing is posted. *)
Lemma exit_listener_no_restart w code s :
  code = 0%Z \/ exiting s = true ->
  let s' := exit_listener w code s in
  workers s' = set_delete w (workers s)
  /\ posted s' = posted s
  /\ next_threadId s' = next_threadId s.
Proof.
  intros Hcase. unfold exit_listener.
  destruct (isTaskWorker w && Pool.includes w _); simpl;
    destruct (decide (code ≠ 0%Z)) as [Hc|Hc]; simpl;
    try (repeat split; reflexivity);
    destruct Hcase as [->|Hexit]; try contradiction;
    rewrite Hexit; simpl; repeat split; reflexivity.
Qed.

End ServerFacts.

Section CrashRestart.
Import ApplicationServer.

Lemma filter_Start_of_stops (stops : list (nat * Message)) :
  Forall (fun pm => type pm.2 = Stop) stops ->
  filter (fun pm => type pm.2 = Start) stops = [].
Proof.
  induction 1 as [|pm rest Hpm _ IH]; [reflexivity|].
  rewrite filter_cons. destruct (decide (type pm.2 = Start)) as [Heq|_];
    [congruence|exact IH].
Qed.

Lemma starts_posted_stop_effect s s' :
  stop_effect s s' -> starts_posted s' = starts_posted s.
Proof.
  intros [_ _ _ _ _ (stops & Hq & Hf)]. unfold starts_posted.
  rewrite Hq, filter_app, (filter_Start_of_stops _ Hf). apply app_nil_r.
Qed.

(** C3.  When a worker exits with a non-zero code while the supervisor is
    not exiting, the supervisor creates a replacement with the same type,
    id and options (a new thread), adds it to its workers and posts
    [Start] to it, and that is the only [Start] it posts; when the code is
    zero, or the supervisor is exiting, the worker leaves the set and no
    worker is created and no [Start] posted. *)
Theorem crash_restarts_worker (s : t) (w : Worker) (code : Z) :
  let s' := on_exit w code s in
  let replacement :=
    {| threadId := next_threadId s;
       workerData :=
         {| wd_applicationPath := applicationPath (options s);
            id := id (workerData w);
            workerType := workerType (workerData w);
            workerOptions := workerOptions (workerData w);
            hasTaskRunners := truthy_workers (taskWorkers (options s));
            isServer := true |} |} in
  (code <> 0%Z -> exiting s = false ->
     Some replacement ∈ workers s'
     /\ workers s' = set_add replacement (set_delete w (workers s))
     /\ starts_posted s'
        = starts_posted s
          ++ [(threadId replacement, {| type := Start; payload := VUndefined |})]
     /\ next_threadId s' = S (next_threadId s))
  /\ (code = 0%Z \/ exiting s = true ->
        workers s' = set_delete w (workers s)
        /\ starts_posted s' = starts_posted s
        /\ next_threadId s' = next_threadId s).
Proof.
  intros s' replacement. subst s'. unfold on_exit.
  pose proof (resume_stops_effect w (exit_listener w code s)) as Heff.
  split.
  - intros Hcode Hexit.
    destruct (exit_listener_crash w code s Hcode Hexit)
      as (Hws & Hposted & Hnext & _ & _).
    rewrite (stop_workers _ _ Heff), (stop_threads _ _ Heff),
      (starts_posted_stop_effect _ _ Heff).
    split; [rewrite Hws; apply set_add_elem|].
    split; [exact Hws|]. split; [|exact Hnext].
    unfold starts_posted. rewrite Hposted, filter_app. reflexivity.
  - intros Hcase.
    destruct (exit_listener_no_restart w code s Hcase) as (Hws & Hposted & Hnext).
    rewrite (stop_workers _ _ Heff), (stop_threads _ _ Heff),
      (starts_posted_stop_effect _ _ Heff).
    split; [exact Hws|]. split; [|exact Hnext].
    unfold starts_posted. rewrite Hposted. reflexivity.
Qed.

Lemma crash_restarts_worker_witness :
  Some (Examples.worker 4 Task 1)
    ∈ workers (on_exit Examples.task1 7 Examples.started)
  /\ starts_posted (on_exit Examples.task1 7 Examples.started)
     = [(4%nat, {| type := Start; payload := VUndefined |})]
  /\ workers (on_exit Examples.task1 0 Examples.started)
     = [Some Examples.task0; None; Some Examples.api0]
  /\ starts_posted (on_exit Examples.task1 0 Examples.started) = [].
Proof.
  destruct (crash_restarts_worker Examples.started Examples.task1 7)
    as [Hcrash _].
  destruct Hcrash as (Hin & _ & Hstarts & _); [discriminate|reflexivity|].
  destruct (crash_restarts_worker Examples.started Examples.task1 0)
    as [_ Hquiet].
  destruct Hquiet as (Hws & Hstarts0 & _); [left; reflexivity|].
  split; [exact Hin|]. split; [exact Hstarts|].
  split; [exact Hws|exact Hstarts0].
Defined.

End CrashRestart.

Section GracefulStop.
Import ApplicationServer.

(** [createWorkers] touches neither the pending [stop()] calls nor the
    messages. *)
Lemma createWorkers_stopping type ws s :
  stopping (createWorkers type ws s) = stopping s.
Proof.
  unfold createWorkers.
  generalize (seq 0 match ws with Count n => n | Configs l => length l end).
  intros ids. revert s. induction ids as [|i rest IH]; intros s; [reflexivity|].
  simpl. rewrite IH.
  destruct (createWorker_state type i
              match ws with
              | Count _ => VUndefined
              | Configs l => default VUndefined (l !! i)
              end s) as (_ & _ & _ & _ & _ & _ & Hst & _).
  exact Hst.
Qed.

Lemma start_from_stopping index s : stopping (start_from index s) = stopping s.
Proof.
  unfold start_from. destruct (set_next_from index (workers s)) as [[j w]|];
    reflexivity.
Qed.

Lemma start_stopping s : stopping (start s) = stopping s.
Proof.
  unfold start. rewrite start_from_stopping, createWorkers_stopping.
  cbn [stopping logger]. rewrite createWorkers_stopping. reflexivity.
Qed.

Lemma stop_from_keeps task call index s :
  task ∈ stopping s -> task ∈ stopping (stop_from call index s).
Proof.
  intros Hin. unfold stop_from.
  destruct (set_next_from index (workers s)) as [[j w]|]; simpl; [|exact Hin].
  apply elem_of_app. left. exact Hin.
Qed.

Lemma stop_keeps task s : task ∈ stopping s -> task ∈ stopping (stop s).
Proof. intros Hin. unfold stop. apply stop_from_keeps. exact Hin. Qed.

Lemma exit_listener_stopping w code s :
  stopping (exit_listener w code s) = stopping s.
Proof.
  unfold exit_listener.
  destruct (isTaskWorker w && Pool.includes w _); simpl;
    destruct (decide (code ≠ 0%Z)); simpl; try reflexivity;
    destruct (exiting s); simpl; try reflexivity;
    unfold createWorker; simpl; destruct (isTaskWorker _); reflexivity.
Qed.

(** The ['exit'] of [w] resumes the calls that await [w]; the others stay
    pending. *)
Lemma resume_stops_keeps task w s :
  task ∈ stopping s -> stop_worker task <> w ->
  task ∈ stopping (resume_stops w s).
Proof.
  intros Hin Hne. unfold resume_stops.
  assert (H : forall tasks s0,
            task ∈ stopping s0 \/ task ∈ tasks ->
            task ∈ stopping
              (foldl (fun s task =>
                        if decide (stop_worker task = w)
                        then stop_from (stop_call task) (S (stop_index task)) s
                        else set_stopping (stopping s ++ [task]) s)
                     s0 tasks)).
  { induction tasks as [|t0 rest IH]; intros s0 [H0|H0].
    - exact H0.
    - apply elem_of_nil in H0. destruct H0.
    - simpl. apply IH. left.
      destruct (decide (stop_worker t0 = w)); [apply stop_from_keeps; exact H0|].
      simpl. apply elem_of_app. left. exact H0.
    - simpl. apply IH. apply elem_of_cons in H0 as [<-|H0]; [|right; exact H0].
      left. destruct (decide (stop_worker task = w)); [contradiction|].
      simpl. apply elem_of_app. right. apply list_elem_of_singleton.
      reflexivity. }
  apply H. right. exact Hin.
Qed.

Lemma on_error_keeps task w err s :
  task ∈ stopping s -> task ∈ stopping (on_error w err s).
Proof.
  intros Hin. unfold on_error. simpl.
  destruct (starting s) as [|j w'|j w' [|]| |]; simpl; try exact Hin.
  - destruct (decide (w' = w)); exact Hin.
  - destruct (decide (w' = w)); [|exact Hin].
    apply stop_keeps. exact Hin.
Qed.

(** A pending [stop()] stays pending on its worker through every input
    other than the ['exit'] of that worker. *)
Lemma handle_keeps_stop_task i s task :
  task ∈ stopping s -> not_exit_of (stop_worker task) i ->
  task ∈ stopping (handle i s).
Proof.
  intros Hin Hne. destruct i as [| |w|w ty payload|w err|w code]; simpl.
  - rewrite start_stopping. exact Hin.
  - apply stop_keeps. exact Hin.
  - unfold on_online. destruct (starting s) as [|j w'|j w' b| |]; try exact Hin.
    destruct (decide (w' = w)); exact Hin.
  - destruct ty; try exact Hin.
    + unfold on_Ready. destruct (starting s) as [|j w'|j w' b| |]; try exact Hin.
      destruct (decide (w' = w)); [|exact Hin].
      rewrite start_from_stopping. exact Hin.
    + unfold on_ExecuteInvoke. destruct (isTaskWorker w); [exact Hin|].
      destruct (Pool.next (taskRunners s)) as [[t p]|]; exact Hin.
  - apply on_error_keeps. exact Hin.
  - unfold on_exit. apply resume_stops_keeps.
    + rewrite exit_listener_stopping. exact Hin.
    + intros Heq. apply (Hne code). rewrite Heq. reflexivity.
Qed.

Lemma run_keeps_stop_task inputs : forall s task,
  task ∈ stopping s -> Forall (not_exit_of (stop_worker task)) inputs ->
  task ∈ stopping (run inputs s).
Proof.
  induction inputs as [|i rest IH]; intros s task Hin Hall; [exact Hin|].
  apply Forall_cons in Hall as [Hi Hrest].
  unfold run. simpl. apply IH; [|exact Hrest].
  apply handle_keeps_stop_task; assumption.
Qed.

(** [stop()] up to its first [await]. *)
Lemma stop_first_worker s j w :
  set_next_from 0 (workers s) = Some (j, w) ->
  posted (stop s) = posted s ++ [(threadId w, {| type := Stop; payload := VUndefined |})]
  /\ exiting (stop s) = true
  /\ stopping (stop s) = stopping s ++ [AwaitExit (stop_calls s) j w]
  /\ log (stop s) = log s ++ [Info "Stopping application server..."]
  /\ starting (stop s) = starting s
  /\ stops_resolved (stop s) = stops_resolved s.
Proof.
  intros Hnext. unfold stop, stop_from. simpl. rewrite Hnext. simpl.
  repeat split; reflexivity.
Qed.

Lemma exit_listener_exiting w code s :
  exiting s = true ->
  exiting (exit_listener w code s) = true
  /\ stops_resolved (exit_listener w code s) = stops_resolved s.
Proof.
  intros Hexit. unfold exit_listener.
  destruct (isTaskWorker w && Pool.includes w _); simpl;
    destruct (decide (code ≠ 0%Z)); simpl; rewrite ?Hexit; simpl; auto.
Qed.

(** When the worker a [stop()] awaits exits, that call posts [Stop] to the
    next worker of the set and awaits it, or, past the last worker, resets
    [#exiting] and resolves. *)
Lemma exit_resumes_stop s call j w code :
  stopping s = [AwaitExit call j w] -> exiting s = true ->
  match set_next_from (S j) (set_delete w (workers s)) with
  | Some (k, next) =>
      posted (on_exit w code s)
      = posted s ++ [(threadId next, {| type := Stop; payload := VUndefined |})]
      /\ stopping (on_exit w code s) = [AwaitExit call k next]
      /\ exiting (on_exit w code s) = true
  | None =>
      posted (on_exit w code s) = posted s
      /\ stopping (on_exit w code s) = []
      /\ exiting (on_exit w code s) = false
      /\ stops_resolved (on_exit w code s) = stops_resolved s ++ [call]
  end.
Proof.
  intros Hstop Hexit.
  destruct (exit_listener_no_restart w code s (or_intror Hexit))
    as (Hws & Hposted & _).
  destruct (exit_listener_exiting w code s Hexit) as [Hexit1 Hres1].
  pose proof (exit_listener_stopping w code s) as Hstop1.
  unfold on_exit, resume_stops. rewrite Hstop1, Hstop. simpl.
  destruct (decide (w = w)) as [_|Hne]; [|contradiction].
  unfold stop_from. simpl. rewrite Hws.
  destruct (set_next_from (S j) (set_delete w (workers s))) as [[k next]|];
    simpl; rewrite ?Hposted, ?Hexit1, ?Hres1; repeat split; reflexivity.
Qed.

(** C4, counterexample.  The example supervisor, once started, is told to
    stop: [Stop] goes to its first worker, and in no course of events in
    which that worker does not exit does [stop()] stop waiting for it. *)
Lemma stop_never_gives_up :
  posted (stop Examples.started)
  = [(1%nat, {| type := Stop; payload := VUndefined |})]
  /\ stopping (stop Examples.started) = [AwaitExit 0 0 Examples.task0]
  /\ ~ stop_gives_up_on Examples.task0 (stop Examples.started).
Proof.
  split; [reflexivity|]. split; [reflexivity|].
  intros (inputs & Hall & Hgone).
  apply (Hgone (AwaitExit 0 0 Examples.task0)); [|reflexivity].
  apply run_keeps_stop_task; [|exact Hall].
  apply list_elem_of_singleton. reflexivity.
Qed.

(** C4, as amended.  [stop()] sets [#exiting], posts [Stop] to the first
    worker of the set and awaits its ['exit'], with no timeout: whatever
    else happens, as long as that worker does not exit, the call stays
    pending on it. *)
Theorem stop_waits_for_exit (s : t) (j : nat) (w : Worker) (inputs : list Input) :
  set_next_from 0 (workers s) = Some (j, w) ->
  Forall (not_exit_of w) inputs ->
  posted (stop s)
  = posted s ++ [(threadId w, {| type := Stop; payload := VUndefined |})]
  /\ exiting (stop s) = true
  /\ AwaitExit (stop_calls s) j w ∈ stopping (run inputs (stop s)).
Proof.
  intros Hnext Hall.
  destruct (stop_first_worker s j w Hnext) as (Hposted & Hexit & Hstop & _).
  split; [exact Hposted|]. split; [exact Hexit|].
  apply run_keeps_stop_task; [|exact Hall].
  rewrite Hstop. apply elem_of_app. right. apply list_elem_of_singleton.
  reflexivity.
Qed.

Lemma stop_waits_for_exit_witness :
  AwaitExit 0 0 Examples.task0
    ∈ stopping (run [Online Examples.task1;
                     Exited Examples.api0 0;
                     Errored Examples.task0 "late";
                     CallStop]
                    (stop Examples.started)).
Proof.
  refine (proj2 (proj2
    (stop_waits_for_exit Examples.started 0 Examples.task0
       [Online Examples.task1; Exited Examples.api0 0;
        Errored Examples.task0 "late"; CallStop] _ _))).
  - reflexivity.
  - repeat constructor; intros code; discriminate.
Defined.

End GracefulStop.

Section Shutdown.
Import Cli.

Lemma settle_exit p :
  exited_zero_or_running p -> exited_zero_or_running (settle p).
Proof.
  intros H. unfold settle. destruct (awaited_stop p) as [call|]; [|exact H].
  case_bool_decide; [right; reflexivity|exact H].
Qed.

Lemma settle_exitTimeout p : exitTimeout (settle p) = exitTimeout p.
Proof.
  unfold settle. destruct (awaited_stop p) as [call|]; [|reflexivity].
  case_bool_decide; reflexivity.
Qed.

Lemma handle_exit i p :
  exited_zero_or_running p -> exited_zero_or_running (handle i p).
Proof.
  intros H. unfold handle. destruct (exit_code p) as [c|] eqn:Hc.
  - destruct H as [H|H]; [congruence|]. right. exact H.
  - destruct i as [| |i].
    + unfold tryExit. destruct (exitTimeout p); [left; exact Hc|].
      apply settle_exit. left. exact Hc.
    + unfold tick. destruct (exitTimeout p) as [[|[|n]]|];
        solve [left; exact Hc | right; reflexivity].
    + apply settle_exit. left. exact Hc.
Qed.

(** The only exit code the command line ever passes to [process.exit] is
    [0]. *)
Lemma exit_code_is_zero inputs : forall p,
  exited_zero_or_running p -> exited_zero_or_running (run inputs p).
Proof.
  induction inputs as [|i rest IH]; intros p H; [exact H|].
  unfold run. simpl. apply IH. apply handle_exit. exact H.
Qed.

Lemma started_running opts timeout :
  exited_zero_or_running (start opts timeout).
Proof. left. reflexivity. Qed.

Lemma handle_exited i p c : exit_code p = Some c -> handle i p = p.
Proof. intros Hc. unfold handle. rewrite Hc. reflexivity. Qed.

Lemma run_exited inputs : forall p c,
  exit_code p = Some c -> run inputs p = p.
Proof.
  induction inputs as [|i rest IH]; intros p c Hc; [reflexivity|].
  unfold run. simpl. rewrite (handle_exited i p c Hc). apply (IH p c Hc).
Qed.

(** Once the timer of [tryExit] is armed with [n] ticks to go, [n] ticks
    later (one at least) the process has exited with code [0], whatever else
    happened and whether or not [stop()] has returned. *)
Lemma armed_timer_exits inputs : forall p n,
  exited_zero_or_running p ->
  exitTimeout p = Some n ->
  (Nat.max 1 n <= length (filter (fun i => is_Tick i = true) inputs))%nat ->
  exit_code (run inputs p) = Some 0%Z.
Proof.
  induction inputs as [|i rest IH]; intros p n Hrun Htimer Hticks.
  - simpl in Hticks. lia.
  - destruct Hrun as [Hc|Hz];
      [|rewrite (run_exited _ p 0%Z Hz); exact Hz].
    change (run (i :: rest) p) with (run rest (handle i p)).
    destruct i as [| |i].
    + (* Signal: the timer is armed already *)
      assert (Hp : handle Signal p = p).
      { unfold handle, tryExit. rewrite Hc, Htimer. reflexivity. }
      rewrite Hp. apply (IH p n); [left; exact Hc|exact Htimer|].
      rewrite filter_cons in Hticks. simpl in Hticks.
      destruct (decide (false = true)); [discriminate|exact Hticks].
    + (* Tick *)
      rewrite filter_cons in Hticks.
      destruct (decide (is_Tick Tick = true)) as [_|Hf];
        [|exfalso; apply Hf; reflexivity].
      rewrite length_cons in Hticks.
      assert (Hh : handle Tick p = tick p)
        by (unfold handle; rewrite Hc; reflexivity).
      rewrite Hh. unfold tick. rewrite Htimer.
      destruct n as [|[|n]].
      * rewrite (run_exited rest (exitProcess p) 0%Z eq_refl). reflexivity.
      * rewrite (run_exited rest (exitProcess p) 0%Z eq_refl). reflexivity.
      * apply (IH _ (S n)); [left; exact Hc|reflexivity|]. lia.
    + (* an input of the supervisor *)
      rewrite filter_cons in Hticks.
      destruct (decide (is_Tick (Supervisor i) = true)) as [Hf|_];
        [discriminate Hf|].
      apply (IH _ n).
      * apply handle_exit. left. exact Hc.
      * unfold handle. rewrite Hc, settle_exitTimeout. exact Htimer.
      * exact Hticks.
Qed.

(** After a signal, the process exits with code [0] within the shutdown
    timeout, whether or not the workers exit. *)
Lemma signal_bounds_shutdown p inputs :
  exit_code p = None -> exitTimeout p = None ->
  (Nat.max 1 (shutdownTimeout p)
   <= length (filter (fun i => is_Tick i = true) inputs))%nat ->
  exit_code (run (Signal :: inputs) p) = Some 0%Z.
Proof.
  intros Hc Ht Hticks. unfold run. simpl. fold (run inputs (handle Signal p)).
  apply (armed_timer_exits inputs _ (shutdownTimeout p)).
  - apply handle_exit. left. exact Hc.
  - unfold handle, tryExit. rewrite Hc, Ht, settle_exitTimeout. reflexivity.
  - exact Hticks.
Qed.

End Shutdown.

Section StartupError.
Import ApplicationServer.

(** The ['error'] of the worker whose [Ready] message [start()] awaits. *)
Lemma on_error_awaiting_Ready s j w err k first :
  starting s = AwaitReady j w true ->
  set_next_from 0 (workers s) = Some (k, first) ->
  let s' := on_error w err s in
  log s' = log s ++ [ErrorLogged err; Fatal err;
                     Info "Stopping application server..."]
  /\ exiting s' = true
  /\ posted s'
     = posted s ++ [(threadId first, {| type := Stop; payload := VUndefined |})]
  /\ stopping s' = stopping s ++ [AwaitExit (stop_calls s) k first]
  /\ starting s' = AwaitReady j w false
  /\ stops_resolved s' = stops_resolved s.
Proof.
  intros Hstart Hnext. unfold on_error. simpl. rewrite Hstart.
  destruct (decide (w = w)) as [_|Hne]; [|contradiction].
  set (s1 := logger (Fatal err) _).
  destruct (stop_first_worker s1 k first Hnext)
    as (Hposted & Hexit & Hstop & Hlog & Hstarting & Hres).
  rewrite Hposted, Hexit, Hstop, Hlog, Hstarting, Hres. subst s1. simpl.
  rewrite <- !app_assoc. repeat split; reflexivity.
Qed.

(** The ['error'] of the worker whose ['online'] event [start()] awaits. *)
Lemma on_error_awaiting_online s j w err :
  starting s = AwaitOnline j w ->
  let s' := on_error w err s in
  log s' = log s ++ [ErrorLogged err]
  /\ starting s' = StartRejected err
  /\ posted s' = posted s
  /\ exiting s' = exiting s
  /\ stopping s' = stopping s.
Proof.
  intros Hstart. unfold on_error. simpl. rewrite Hstart.
  destruct (decide (w = w)) as [_|Hne]; [|contradiction].
  repeat split; reflexivity.
Qed.

(** C6, counterexample.  The first worker of the example supervisor comes
    online and then emits an error before [Ready].  The supervisor logs
    the error and calls [stop()], which has posted [Stop] to the first
    worker only; [start()] is still pending and the process has not
    exited: the startup is not fatal. *)
Lemma startup_error_is_not_fatal :
  let p := Cli.run [Cli.Supervisor (Online Examples.task0);
                    Cli.Supervisor (Errored Examples.task0 "boom")]
                   (Cli.start Examples.options 1000) in
  ~ Cli.fatal_startup "boom" p
  /\ Cli.exit_code p = None
  /\ posted (Cli.server p) = [(1%nat, {| type := Stop; payload := VUndefined |})]
  /\ workers (Cli.server p)
     = [Some Examples.task0; Some Examples.task1; Some Examples.api0]
  /\ starting (Cli.server p) = AwaitReady 0 Examples.task0 false
  /\ log (Cli.server p)
     = [Info "Starting application server...";
        Debug "Spinning up task workers...";
        Debug "Spinning up task api workers...";
        ErrorLogged "boom"; Fatal "boom";
        Info "Stopping application server..."].
Proof.
  intros p. split; [|repeat split; vm_compute; reflexivity].
  intros (_ & _ & code & Hcode & _).
  assert (Hnone : Cli.exit_code p = None) by (vm_compute; reflexivity).
  rewrite Hnone in Hcode. discriminate Hcode.
Qed.

(** C6, as amended.  When a worker emits an error while [start()] awaits
    its [Ready] message, the supervisor logs the error (as an error and as
    fatal) and calls [stop()] without awaiting it: [#exiting] is set and
    [Stop] is posted to the first worker of the set, whose exit that
    [stop()] then awaits; [start()] stays pending and the process is not
    exited.  When the error comes while [start()] still awaits the
    ['online'] event of that worker, the error is logged and [start()] is
    rejected with it; nothing is posted. *)
Theorem error_before_Ready (s : t) (j : nat) (w : Worker) (err : string) :
  Some w ∈ workers s ->
  (starting s = AwaitReady j w true ->
     exists k first,
       set_next_from 0 (workers s) = Some (k, first)
       /\ log (on_error w err s)
          = log s ++ [ErrorLogged err; Fatal err;
                      Info "Stopping application server..."]
       /\ exiting (on_error w err s) = true
       /\ posted (on_error w err s)
          = posted s
            ++ [(threadId first, {| type := Stop; payload := VUndefined |})]
       /\ stopping (on_error w err s)
          = stopping s ++ [AwaitExit (stop_calls s) k first]
       /\ starting (on_error w err s) = AwaitReady j w false
       /\ forall p,
            Cli.server p = s -> Cli.exit_code p = None ->
            Cli.awaited_stop p = None ->
            Cli.exit_code (Cli.handle (Cli.Supervisor (Errored w err)) p) = None)
  /\ (starting s = AwaitOnline j w ->
        log (on_error w err s) = log s ++ [ErrorLogged err]
        /\ starting (on_error w err s) = StartRejected err
        /\ posted (on_error w err s) = posted s
        /\ exiting (on_error w err s) = exiting s
        /\ stopping (on_error w err s) = stopping s).
Proof.
  intros Hlive. split.
  - intros Hstart.
    destruct (set_next_from_0_some _ _ Hlive) as (k & first & Hnext).
    exists k, first. split; [exact Hnext|].
    destruct (on_error_awaiting_Ready s j w err k first Hstart Hnext)
      as (Hlog & Hexit & Hposted & Hstop & Hstarting & _).
    repeat (split; [assumption|]).
    intros p Hp Hc Hawait. unfold Cli.handle. rewrite Hc.
    unfold Cli.settle. simpl. rewrite Hawait. simpl. exact Hc.
  - intros Hstart. exact (on_error_awaiting_online s j w err Hstart).
Qed.

Lemma error_before_Ready_witness :
  let s := on_online Examples.task0 Examples.started in
  posted (on_error Examples.task0 "boom" s)
  = [(1%nat, {| type := Stop; payload := VUndefined |})]
  /\ starting (on_error Examples.task0 "boom" s)
     = AwaitReady 0 Examples.task0 false
  /\ starting (on_error Examples.task0 "boom" Examples.started)
     = StartRejected "boom".
Proof.
  intros s.
  assert (Hlive : Some Examples.task0 ∈ workers s)
    by (vm_compute; apply list_elem_of_here).
  destruct (error_before_Ready s 0 Examples.task0 "boom" Hlive) as [HReady _].
  destruct HReady as (k & first & Hnext & _ & _ & Hposted & _ & Hstarting & _);
    [vm_compute; reflexivity|].
  assert (Hlive0 : Some Examples.task0 ∈ workers Examples.started)
    by (vm_compute; apply list_elem_of_here).
  destruct (error_before_Ready Examples.started 0 Examples.task0 "boom" Hlive0)
    as [_ Honline].
  destruct Honline as (_ & Hrejected & _); [vm_compute; reflexivity|].
  split; [|split; [exact Hstarting|exact Hrejected]].
  rewrite Hposted. vm_compute in Hnext. injection Hnext as <- <-.
  vm_compute. reflexivity.
Defined.

(** The supervisor on its expected course: every worker comes online and
    reports [Ready] in the order of the set, and [start()] resolves. *)
Example start_handshake :
  starting (run [Online Examples.task0;
                 Emitted Examples.task0 Ready VUndefined;
                 Online Examples.task1;
                 Emitted Examples.task1 Ready VUndefined;
                 Online Examples.api0;
                 Emitted Examples.api0 Ready VUndefined]
                Examples.started)
  = StartResolved.
Proof. vm_compute. reflexivity. Qed.

(** A graceful stop on its expected course: each worker is posted [Stop]
    when the one before it has exited, and [stop()] resolves after the
    last exit. *)
Example graceful_stop :
  let s := run [CallStop;
                Exited Examples.task0 0;
                Exited Examples.task1 0;
                Exited Examples.api0 0]
               Examples.started in
  posted s = [(1%nat, {| type := Stop; payload := VUndefined |});
              (2%nat, {| type := Stop; payload := VUndefined |});
              (3%nat, {| type := Stop; payload := VUndefined |})]
  /\ stopping s = []
  /\ stops_resolved s = [0%nat]
  /\ exiting s = false
  /\ workers s = [None; None; None].
Proof. vm_compute. repeat split; reflexivity. Qed.

(** A signal under the command line: the process exits with code [0] when
    [stop()] has resolved, or when the timer fires, whichever comes first. *)
Example signal_then_exits :
  Cli.exit_code
    (Cli.run [Cli.Signal;
              Cli.Supervisor (Exited Examples.task0 0);
              Cli.Supervisor (Exited Examples.task1 0);
              Cli.Supervisor (Exited Examples.api0 0)]
             (Cli.start Examples.options 1000))
  = Some 0%Z
  /\ Cli.exit_code
       (Cli.run [Cli.Signal; Cli.Tick; Cli.Tick; Cli.Tick]
                (Cli.start Examples.options 3))
     = Some 0%Z
  /\ Cli.exit_code
       (Cli.run [Cli.Signal; Cli.Tick; Cli.Tick]
                (Cli.start Examples.options 3))
     = None.
Proof. vm_compute. repeat split; reflexivity. Qed.

End StartupError.

(** ** The pool of task runners *)

Section PoolFacts.
Context {A : Type} `{EqDecision A}.
Implicit Types (p : Pool.t A) (x y : A) (l : list A).

Lemma pool_next_some p :
  Pool.items p <> [] -> exists x p', Pool.next p = Some (x, p').
Proof.
  intros Hne. unfold Pool.next.
  destruct (Pool.items p) as [|a l] eqn:Hitems; [contradiction|].
  assert (Hlt : (Pool.current p `mod` length (a :: l) < length (a :: l))%nat).
  { apply Nat.mod_upper_bound. discriminate. }
  destruct (lookup_lt_is_Some_2 _ _ Hlt) as [x Hx].
  rewrite Hx. eauto.
Qed.

Lemma pool_next_inv p x p' :
  Pool.next p = Some (x, p') ->
  Pool.items p !! (Pool.current p `mod` length (Pool.items p))%nat = Some x
  /\ Pool.items p' = Pool.items p
  /\ Pool.current p'
     = (S (Pool.current p `mod` length (Pool.items p))
        `mod` length (Pool.items p))%nat.
Proof.
  unfold Pool.next. intros Hn.
  destruct (Pool.items p) as [|a l] eqn:Hitems; [discriminate|].
  destruct ((a :: l) !! _) as [y|] eqn:Hy; [|discriminate].
  injection Hn as <- <-. simpl. auto.
Qed.

Lemma pool_next_elem p x p' : Pool.next p = Some (x, p') -> x ∈ Pool.items p.
Proof.
  intros Hn. destruct (pool_next_inv _ _ _ Hn) as (Hx & _ & _).
  eapply list_elem_of_lookup_2. exact Hx.
Qed.

(** Round robin: [k] calls of [next()] in a row return the members at the
    cursor, the cursor plus one, and so on round the cycle. *)
Lemma pool_take_next_cyclic k : forall p i,
  Pool.items p <> [] -> (i < k)%nat ->
  Pool.take_next k p !! i
  = Pool.items p !! ((Pool.current p + i) `mod` length (Pool.items p))%nat.
Proof.
  induction k as [|k IH]; intros p i Hne Hi; [lia|].
  simpl. destruct (pool_next_some p Hne) as (x & p' & Hn). rewrite Hn.
  destruct (pool_next_inv _ _ _ Hn) as (Hx & Hitems & Hcur).
  assert (Hlen : length (Pool.items p) <> 0%nat).
  { destruct (Pool.items p); [contradiction|discriminate]. }
  destruct i as [|i].
  - simpl. rewrite Nat.add_0_r. symmetry. exact Hx.
  - simpl. rewrite IH by (rewrite ?Hitems; first [exact Hne|lia]).
    rewrite Hitems, Hcur. f_equal.
    rewrite Nat.Div0.add_mod_idemp_l.
    replace (S (Pool.current p `mod` length (Pool.items p)) + i)%nat
      with (Pool.current p `mod` length (Pool.items p) + S i)%nat by lia.
    rewrite Nat.Div0.add_mod_idemp_l. reflexivity.
Qed.

Lemma pool_take_next_length k : forall p,
  Pool.items p <> [] -> length (Pool.take_next k p) = k.
Proof.
  induction k as [|k IH]; intros p Hne; [reflexivity|].
  simpl. destruct (pool_next_some p Hne) as (x & p' & Hn). rewrite Hn.
  destruct (pool_next_inv _ _ _ Hn) as (_ & Hitems & _).
  simpl. rewrite IH by (rewrite Hitems; exact Hne). reflexivity.
Qed.

Lemma index_of_lookup x l : forall i,
  Pool.index_of x l = Some i -> l !! i = Some x.
Proof.
  induction l as [|a l IH]; intros i Hi; [discriminate|].
  simpl in Hi. destruct (decide (a = x)) as [->|Hne].
  - injection Hi as <-. reflexivity.
  - destruct (Pool.index_of x l) as [j|]; [|discriminate].
    injection Hi as <-. simpl. apply IH. reflexivity.
Qed.

Lemma index_of_none x l : Pool.index_of x l = None -> x ∉ l.
Proof.
  induction l as [|a l IH]; intros Hi; [apply not_elem_of_nil|].
  simpl in Hi. destruct (decide (a = x)) as [->|Hne]; [discriminate|].
  destruct (Pool.index_of x l) as [j|]; [discriminate|].
  apply not_elem_of_cons. split; [congruence|]. apply IH. reflexivity.
Qed.

Lemma elem_of_delete_inv l : forall i y, y ∈ delete i l -> y ∈ l.
Proof.
  induction l as [|a l IH]; intros i y Hy; [destruct i; exact Hy|].
  destruct i as [|i]; simpl in Hy.
  - apply elem_of_cons. right. exact Hy.
  - apply elem_of_cons in Hy as [->|Hy]; [apply list_elem_of_here|].
    apply elem_of_cons. right. eapply IH. exact Hy.
Qed.

Lemma NoDup_delete l : forall i, NoDup l -> NoDup (delete i l).
Proof.
  induction l as [|a l IH]; intros i Hnd; [destruct i; exact Hnd|].
  apply NoDup_cons in Hnd as [Ha Hl].
  destruct i as [|i]; simpl; [exact Hl|].
  apply NoDup_cons. split; [|apply IH; exact Hl].
  intros Hin. apply Ha. eapply elem_of_delete_inv. exact Hin.
Qed.

Lemma NoDup_delete_lookup l : forall i x,
  NoDup l -> l !! i = Some x -> x ∉ delete i l.
Proof.
  induction l as [|a l IH]; intros i x Hnd Hx; [destruct i; discriminate|].
  apply NoDup_cons in Hnd as [Ha Hl].
  destruct i as [|i]; simpl in *.
  - injection Hx as <-. exact Ha.
  - apply not_elem_of_cons. split.
    + intros ->. apply Ha. eapply list_elem_of_lookup_2. exact Hx.
    + apply IH; assumption.
Qed.

(** [remove] takes the member out and keeps the others. *)
Lemma pool_remove_subset x y p :
  y ∈ Pool.items (Pool.remove x p) -> y ∈ Pool.items p.
Proof.
  unfold Pool.remove. destruct (Pool.index_of x (Pool.items p)) as [i|];
    [|auto]. simpl. apply elem_of_delete_inv.
Qed.

Lemma pool_remove_NoDup x p :
  NoDup (Pool.items p) -> NoDup (Pool.items (Pool.remove x p)).
Proof.
  unfold Pool.remove. destruct (Pool.index_of x (Pool.items p)) as [i|];
    [|auto]. simpl. apply NoDup_delete.
Qed.

Lemma pool_remove_gone x p :
  NoDup (Pool.items p) -> x ∉ Pool.items (Pool.remove x p).
Proof.
  intros Hnd. unfold Pool.remove.
  destruct (Pool.index_of x (Pool.items p)) as [i|] eqn:Hi.
  - simpl. apply NoDup_delete_lookup; [exact Hnd|].
    apply index_of_lookup. exact Hi.
  - apply index_of_none. exact Hi.
Qed.

End PoolFacts.

Section TaskRunners.
Import ApplicationServer.

Lemma settled_out_frame w s s' :
  workers s' = workers s -> taskRunners s' = taskRunners s ->
  next_threadId s' = next_threadId s ->
  settled_out w s -> settled_out w s'.
Proof.
  intros Hw Hp Hn [(Hnd & Hpool & Hset) [Hout Hlt]].
  unfold settled_out, threads_fresh, left_pool.
  rewrite Hw, Hp, Hn. auto.
Qed.

Lemma settled_out_stop_effect w s s' :
  stop_effect s s' -> settled_out w s -> settled_out w s'.
Proof.
  intros Heff. apply settled_out_frame;
    [apply (stop_workers _ _ Heff)|apply (stop_pool _ _ Heff)
    |apply (stop_threads _ _ Heff)].
Qed.

Lemma settled_out_stop w s : settled_out w s -> settled_out w (stop s).
Proof.
  intros H. unfold stop. eapply settled_out_stop_effect; [apply stop_from_effect|].
  revert H. apply settled_out_frame; reflexivity.
Qed.

Lemma settled_out_start_from w index s :
  settled_out w s -> settled_out w (start_from index s).
Proof.
  unfold start_from. destruct (set_next_from index (workers s)) as [[j x]|];
    apply settled_out_frame; reflexivity.
Qed.

(** A new worker has a thread of its own. *)
Lemma settled_out_createWorker w type i opts s :
  settled_out w s -> settled_out w (createWorker type i opts s).2.
Proof.
  intros [(Hnd & Hpool & Hset) [Hout Hlt]].
  destruct (createWorker_state type i opts s)
    as (Hws & Hnext & _ & _ & _ & _ & _ & Hrunners).
  rewrite createWorker_worker in Hws, Hrunners.
  set (nw := {| threadId := next_threadId s; workerData := _ |}) in *.
  assert (Hnew : nw ∉ Pool.items (taskRunners s)).
  { intros Hin. specialize (Hpool nw Hin). simpl in Hpool. lia. }
  assert (Hw : w <> nw).
  { intros ->. simpl in Hlt. lia. }
  unfold settled_out, threads_fresh, left_pool.
  rewrite Hws, Hnext, Hrunners. repeat split.
  - destruct (isTaskWorker nw); [|exact Hnd]. simpl.
    apply NoDup_app. split; [exact Hnd|]. split.
    + intros x Hx Hx'. apply list_elem_of_singleton in Hx'. subst x.
      contradiction.
    + apply NoDup_singleton.
  - intros x Hx. destruct (isTaskWorker nw);
      [|specialize (Hpool x Hx); lia]. simpl in Hx.
    apply elem_of_app in Hx as [Hx|Hx]; [specialize (Hpool x Hx); lia|].
    apply list_elem_of_singleton in Hx. subst x. simpl. lia.
  - intros x Hx. apply set_add_inv in Hx as [->|Hx];
      [simpl; lia|specialize (Hset x Hx); lia].
  - destruct (isTaskWorker nw); [|exact Hout]. simpl.
    intros Hin. apply elem_of_app in Hin as [Hin|Hin]; [contradiction|].
    apply list_elem_of_singleton in Hin. contradiction.
  - lia.
Qed.

Lemma settled_out_createWorkers w type ws s :
  settled_out w s -> settled_out w (createWorkers type ws s).
Proof.
  unfold createWorkers.
  generalize (seq 0 match ws with Count n => n | Configs l => length l end).
  intros ids. revert s. induction ids as [|i rest IH]; intros s H; [exact H|].
  simpl. apply IH. apply settled_out_createWorker. exact H.
Qed.

Lemma settled_out_start w s : settled_out w s -> settled_out w (start s).
Proof.
  intros H. unfold start. apply settled_out_start_from.
  apply settled_out_createWorkers.
  set (s3 := createWorkers Task _ _).
  apply (settled_out_frame w s3); [reflexivity..|].
  subst s3. apply settled_out_createWorkers. revert H.
  apply settled_out_frame; reflexivity.
Qed.

Lemma settled_out_set_delete w x s :
  settled_out w s -> settled_out w (set_workers (set_delete x (workers s)) s).
Proof.
  intros [(Hnd & Hpool & Hset) Hleft]. split; [|exact Hleft].
  split; [exact Hnd|]. split; [exact Hpool|].
  intros y Hy. simpl in Hy. apply set_delete_inv in Hy as [_ Hy]. auto.
Qed.

Lemma settled_out_pool_remove w x s :
  settled_out w s ->
  settled_out w (set_taskRunners (Pool.remove x (taskRunners s)) s).
Proof.
  intros [(Hnd & Hpool & Hset) [Hout Hlt]].
  split; [split; [|split]|split]; simpl.
  - apply pool_remove_NoDup. exact Hnd.
  - intros y Hy. apply Hpool. eapply pool_remove_subset. exact Hy.
  - exact Hset.
  - intros Hin. apply Hout. eapply pool_remove_subset. exact Hin.
  - exact Hlt.
Qed.

Lemma settled_out_exit_listener w x code s :
  settled_out w s -> settled_out w (exit_listener x code s).
Proof.
  intros H. unfold exit_listener.
  set (s1 := set_workers _ s).
  assert (H1 : settled_out w s1) by (apply settled_out_set_delete; exact H).
  set (s2 := if isTaskWorker x && Pool.includes x (taskRunners s1)
             then set_taskRunners _ s1 else s1).
  assert (H2 : settled_out w s2).
  { subst s2. destruct (_ && _); [|exact H1].
    apply settled_out_pool_remove. exact H1. }
  clearbody s2. clear H1 s1.
  destruct (decide (code ≠ 0%Z)).
  - set (s3 := logger _ s2).
    assert (H3 : settled_out w s3)
      by (revert H2; apply settled_out_frame; reflexivity).
    destruct (negb (exiting s3)); [|exact H3].
    pose proof (settled_out_createWorker w
                  (workerType (workerData x)) (id (workerData x))
                  (workerOptions (workerData x)) s3 H3) as H4.
    destruct (createWorker _ _ _ s3) as [nw s4]. simpl in H4.
    revert H4. apply settled_out_frame; reflexivity.
  - revert H2. apply settled_out_frame; reflexivity.
Qed.

Lemma settled_out_on_ExecuteInvoke w x payload s :
  settled_out w s -> settled_out w (on_ExecuteInvoke x payload s).
Proof.
  intros H. unfold on_ExecuteInvoke. destruct (isTaskWorker x); [exact H|].
  destruct (Pool.next (taskRunners s)) as [[target pool]|] eqn:Hn; [|exact H].
  destruct (pool_next_inv _ _ _ Hn) as (_ & Hitems & _).
  destruct H as [(Hnd & Hpool & Hset) [Hout Hlt]].
  unfold settled_out, threads_fresh, left_pool. simpl. rewrite Hitems. auto.
Qed.

Lemma settled_out_handle w i s : settled_out w s -> settled_out w (handle i s).
Proof.
  intros H. destruct i as [| |x|x ty payload|x err|x code]; simpl.
  - apply settled_out_start. exact H.
  - apply settled_out_stop. exact H.
  - unfold on_online. destruct (starting s) as [|j w'|j w' b| |]; try exact H.
    destruct (decide (w' = x)); [|exact H].
    revert H. apply settled_out_frame; reflexivity.
  - destruct ty; try exact H.
    + unfold on_Ready. destruct (starting s) as [|j w'|j w' b| |]; try exact H.
      destruct (decide (w' = x)); [|exact H].
      apply settled_out_start_from. exact H.
    + apply settled_out_on_ExecuteInvoke. exact H.
  - unfold on_error.
    assert (H1 : settled_out w (logger (ErrorLogged err) s))
      by (revert H; apply settled_out_frame; reflexivity).
    destruct (starting (logger (ErrorLogged err) s)) as [|j w'|j w' [|]| |];
      try exact H1.
    + destruct (decide (w' = x)); [|exact H1].
      revert H1. apply settled_out_frame; reflexivity.
    + destruct (decide (w' = x)); [|exact H1].
      apply settled_out_stop.
      revert H1. apply settled_out_frame; reflexivity.
  - unfold on_exit.
    eapply settled_out_stop_effect; [apply resume_stops_effect|].
    apply settled_out_exit_listener. exact H.
Qed.

Lemma settled_out_steps w s inputs s' :
  steps s inputs s' -> settled_out w s -> settled_out w s'.
Proof.
  induction 1 as [s|s i inputs s' _ _ IH]; intros H; [exact H|].
  apply IH. apply settled_out_handle. exact H.
Qed.

(** In every state the supervisor reaches, the threads are fresh. *)
Lemma reachable_threads_fresh s : reachable s -> threads_fresh s.
Proof.
  intros (opts & inputs & Hsteps).
  pose (main := {| threadId := 0;
                   workerData :=
                     {| wd_applicationPath := ""; id := 0; workerType := Api;
                        workerOptions := VUndefined; hasTaskRunners := false;
                        isServer := false |} |}).
  assert (H0 : settled_out main (new opts)).
  { split; [split; [|split]|split]; simpl.
    - apply NoDup_nil_2.
    - intros x Hx. apply elem_of_nil in Hx. destruct Hx.
    - intros x Hx. apply elem_of_nil in Hx. destruct Hx.
    - apply not_elem_of_nil.
    - lia. }
  exact (proj1 (settled_out_steps main _ _ _ Hsteps H0)).
Qed.

(** After its exit a task worker is out of the pool. *)
Lemma exit_leaves_pool w code s :
  threads_fresh s -> Some w ∈ workers s -> isTaskWorker w = true ->
  settled_out w (on_exit w code s).
Proof.
  intros (Hnd & Hpool & Hset) Hlive Htask.
  pose proof (Hset w Hlive) as Hlt.
  unfold on_exit.
  eapply settled_out_stop_effect; [apply resume_stops_effect|].
  destruct (decide (w ∈ Pool.items (taskRunners s))) as [Hin|Hout].
  - (* in the pool: the listener removes it *)
    unfold exit_listener.
    set (s1 := set_workers _ s).
    assert (Hs1 : threads_fresh s1).
    { split; [exact Hnd|]. split; [exact Hpool|].
      intros y Hy. simpl in Hy. apply set_delete_inv in Hy as [_ Hy]. auto. }
    set (s2 := if isTaskWorker w && Pool.includes w (taskRunners s1)
               then set_taskRunners _ s1 else s1).
    assert (Hinc : Pool.includes w (taskRunners s1) = true).
    { unfold Pool.includes. apply bool_decide_eq_true. exact Hin. }
    assert (H2 : settled_out w s2).
    { subst s2. rewrite Htask, Hinc. simpl.
      destruct Hs1 as (Hnd1 & Hpool1 & Hset1).
      split; [split; [|split]|split]; simpl.
      - apply pool_remove_NoDup. exact Hnd.
      - intros y Hy. apply Hpool. eapply pool_remove_subset. exact Hy.
      - exact Hset1.
      - apply pool_remove_gone. exact Hnd.
      - exact Hlt. }
    clearbody s2.
    destruct (decide (code ≠ 0%Z)).
    + set (s3 := logger _ s2).
      assert (H3 : settled_out w s3)
        by (revert H2; apply settled_out_frame; reflexivity).
      destruct (negb (exiting s3)); [|exact H3].
      pose proof (settled_out_createWorker w
                    (workerType (workerData w)) (id (workerData w))
                    (workerOptions (workerData w)) s3 H3) as H4.
      destruct (createWorker _ _ _ s3) as [nw s4]. simpl in H4.
      revert H4. apply settled_out_frame; reflexivity.
    + revert H2. apply settled_out_frame; reflexivity.
  - apply settled_out_exit_listener.
    split; [split; [exact Hnd|split; [exact Hpool|exact Hset]]|].
    split; [exact Hout|exact Hlt].
Qed.

End TaskRunners.

Section RoundRobin.
Import ApplicationServer.

(** Every [ExecuteInvoke] of a worker that is not a task worker is posted
    to the member [next()] returns, one call of [next()] per message. *)
Lemma invokes_forwarded payloads : forall s api,
  isTaskWorker api = false ->
  Pool.items (taskRunners s) <> [] ->
  posted (run (invokes api payloads) s)
  = posted s
    ++ zip_with forwarded
         (Pool.take_next (length payloads) (taskRunners s)) payloads.
Proof.
  induction payloads as [|payload rest IH]; intros s api Hapi Hne.
  - simpl. symmetry. apply app_nil_r.
  - change (run (invokes api (payload :: rest)) s)
      with (run (invokes api rest) (on_ExecuteInvoke api payload s)).
    destruct (pool_next_some _ Hne) as (target & pool & Hn).
    destruct (pool_next_inv _ _ _ Hn) as (_ & Hitems & _).
    assert (Hstep : on_ExecuteInvoke api payload s
                    = postMessage target
                        {| type := ExecuteInvoke; payload := payload |}
                        (set_taskRunners pool s)).
    { unfold on_ExecuteInvoke. rewrite Hapi, Hn. reflexivity. }
    rewrite Hstep, (IH _ api Hapi) by (simpl; rewrite Hitems; exact Hne).
    simpl. rewrite Hn. simpl. rewrite <- app_assoc. reflexivity.
Qed.

Lemma started_reachable : reachable Examples.started.
Proof.
  exists Examples.options, [CallStart]. unfold Examples.started.
  refine (steps_cons (new Examples.options) CallStart [] _ _ _);
    [reflexivity|].
  cbn [handle]. exact (steps_nil _).
Qed.

(** With no member in the pool nothing is posted. *)
Lemma invokes_empty_pool payloads : forall s api,
  Pool.items (taskRunners s) = [] ->
  run (invokes api payloads) s = s.
Proof.
  induction payloads as [|payload rest IH]; intros s api Hempty; [reflexivity|].
  change (run (invokes api (payload :: rest)) s)
    with (run (invokes api rest) (on_ExecuteInvoke api payload s)).
  assert (Hstep : on_ExecuteInvoke api payload s = s).
  { unfold on_ExecuteInvoke. destruct (isTaskWorker api); [reflexivity|].
    unfold Pool.next. rewrite Hempty. reflexivity. }
  rewrite Hstep. apply IH. exact Hempty.
Qed.

(** C7, counterexample.  The example supervisor starts and its two task
    workers exit gracefully: the API worker is still in the set, the pool
    has no member, and an [ExecuteInvoke] of the API worker is forwarded to
    no worker. *)
Lemma invoke_on_empty_pool_not_forwarded :
  let s := run [CallStart; Exited Examples.task0 0; Exited Examples.task1 0]
               (new Examples.options) in
  steps (new Examples.options)
        [CallStart; Exited Examples.task0 0; Exited Examples.task1 0] s
  /\ Some Examples.api0 ∈ workers s
  /\ isTaskWorker Examples.api0 = false
  /\ Pool.items (taskRunners s) = []
  /\ posted s = []
  /\ posted (handle (Emitted Examples.api0 ExecuteInvoke (VNumber 1)) s) = [].
Proof.
  intros s. split; [|split; [|repeat split; vm_compute; reflexivity]].
  - subst s.
    refine (steps_cons _ CallStart _ _ _ _); [reflexivity|].
    refine (steps_cons _ (Exited Examples.task0 0) _ _ _ _);
      [vm_compute; apply list_elem_of_here|].
    refine (steps_cons _ (Exited Examples.task1 0) _ _ _ _);
      [vm_compute; apply list_elem_of_further, list_elem_of_here|].
    exact (steps_nil _).
  - vm_compute. apply list_elem_of_further, list_elem_of_further,
      list_elem_of_here.
Qed.

(** C7, as amended.  In every state the supervisor reaches, the
    [ExecuteInvoke] messages of an API worker received while the pool of
    task runners has a member are forwarded, each one to the task worker
    that [next()] of the pool returns; [next()] goes round the members of
    the pool in their order, starting at the cursor; while the pool has no
    member nothing is forwarded; and a task worker that has exited is out
    of the pool and is never returned by [next()] afterwards, whatever
    happens next. *)
Theorem invokes_go_round_robin
  (s : t) (api : Worker) (payloads : list JsValue) :
  reachable s ->
  isTaskWorker api = false ->
  let pool := taskRunners s in
  let chosen := Pool.take_next (length payloads) pool in
  (Pool.items pool <> [] ->
     posted (run (invokes api payloads) s)
     = posted s ++ zip_with forwarded chosen payloads
     /\ length chosen = length payloads
     /\ (forall i, (i < length payloads)%nat ->
           chosen !! i
           = Pool.items pool
               !! ((Pool.current pool + i) `mod` length (Pool.items pool))%nat))
  /\ (Pool.items pool = [] -> run (invokes api payloads) s = s)
  /\ (forall w code inputs s',
        Some w ∈ workers s -> isTaskWorker w = true ->
        steps (on_exit w code s) inputs s' ->
        (w ∉ Pool.items (taskRunners s'))
        /\ forall target pool',
             Pool.next (taskRunners s') = Some (target, pool') -> target <> w).
Proof.
  intros Hreach Hapi pool chosen.
  split; [|split].
  - intros Hne.
    split; [apply invokes_forwarded; assumption|].
    split; [apply pool_take_next_length; exact Hne|].
    intros i Hi; apply pool_take_next_cyclic; assumption.
  - apply invokes_empty_pool.
  - intros w code inputs s' Hlive Htask Hsteps.
    pose proof (exit_leaves_pool w code s
                  (reachable_threads_fresh s Hreach) Hlive Htask) as Hout.
    destruct (settled_out_steps w _ _ _ Hsteps Hout) as [_ [Hgone _]].
    split; [exact Hgone|].
    intros target pool' Hn ->. apply Hgone. eapply pool_next_elem. exact Hn.
Qed.

Lemma invokes_go_round_robin_witness :
  posted (run (invokes Examples.api0 [VNumber 1; VNumber 2; VNumber 3])
              Examples.started)
  = [forwarded Examples.task0 (VNumber 1);
     forwarded Examples.task1 (VNumber 2);
     forwarded Examples.task0 (VNumber 3)]
  /\ Examples.task0
       ∉ Pool.items
           (taskRunners (handle (Emitted Examples.api0 ExecuteInvoke VNull)
                                (on_exit Examples.task0 0 Examples.started))).
Proof.
  pose proof (invokes_go_round_robin Examples.started Examples.api0
                [VNumber 1; VNumber 2; VNumber 3] started_reachable) as H.
  destruct H as (Hfull & _ & Hexit).
  - vm_compute. reflexivity.
  - destruct Hfull as (Hposted & _ & _); [vm_compute; discriminate|].
    split.
    + etransitivity; [exact Hposted|]. vm_compute. reflexivity.
    + refine (proj1 (Hexit Examples.task0 0%Z
                       [Emitted Examples.api0 ExecuteInvoke VNull]
                       (handle (Emitted Examples.api0 ExecuteInvoke VNull)
                               (on_exit Examples.task0 0 Examples.started))
                       _ _ _)).
      * vm_compute. apply list_elem_of_here.
      * vm_compute. reflexivity.
      * refine (steps_cons _ _ _ _ _ (steps_nil _)).
        vm_compute. apply list_elem_of_further, list_elem_of_further,
          list_elem_of_here.
Defined.

End RoundRobin.

(** * Further properties *)

(** ** BaseClient.stream: outcome and upstream map *)

Section StreamFacts.
Import BaseClient.
Local Open Scope Z_scope.

(** X1.  [stream()] throws exactly when the source is a ReadableStream and
    [metadata.size] is missing or falsy, and then the client is left as it
    was; in every other case it returns a stream. *)
Theorem stream_throws_iff (source : Source) (metadata : Metadata) (c : t) :
  ((stream source metadata c).1 = Thrown "Size is required for ReadableStream"
   <-> source = SReadableStream /\ truthy_number (size metadata) = false)
  /\ ((exists msg, (stream source metadata c).1 = Thrown msg)
      -> (stream source metadata c).2 = c
         /\ (stream source metadata c).1
            = Thrown "Size is required for ReadableStream")
  /\ ((source <> SReadableStream \/ truthy_number (size metadata) = true)
      -> exists s, (stream source metadata c).1 = Returned s
                   /\ up_source s = source).
Proof.
  assert (Hsz : size (fill_type source metadata) = size metadata).
  { unfold fill_type.
    destruct (instanceof_File source && negb (truthy_string (filename metadata)));
      reflexivity. }
  unfold stream, fill_size. rewrite Hsz.
  destruct (truthy_number (size metadata)) eqn:Htruthy; simpl.
  - split; [split; [discriminate|intros [_ H]; discriminate]|].
    split; [intros [msg H]; discriminate|]. intros _. eauto.
  - destruct source as [n ty name|n ty|n|]; simpl;
      (split; [split; [try discriminate; auto|intros [H _]; try discriminate; auto]|]);
      (split; [intros [msg H]; try discriminate; auto|]);
      intros [H|H]; try discriminate; try contradiction; eauto.
Qed.

(** A call either leaves the client alone or stores one stream under the
    incremented counter, whatever the source. *)
Lemma stream_state source metadata c :
  (stream source metadata c).2 = c
  \/ exists s,
       (stream source metadata c).1 = Returned s
       /\ up_id s = js_incr (streamId c)
       /\ (stream source metadata c).2
          = {| up := <[up_id s := s]> (up c); down := down c;
               streamId := up_id s |}.
Proof.
  destruct (stream_cases source metadata c) as [[msg ->]|[m ->]];
    [left; reflexivity|right]. eexists. simpl. eauto.
Qed.

(** X2.  While the counter is in the exact range, a successful call adds
    exactly one entry to the upstream map, under an id the map did not
    hold: the map grows by one, every stream stored before is still
    there, and the downstream map is not touched. *)
Theorem stream_adds_one_entry
  (source : Source) (metadata : Metadata) (c : t) (s : UpStream) :
  0 <= streamId c -> streamId c < MAX_EXACT -> keys_allocated c ->
  (stream source metadata c).1 = Returned s ->
  let c' := (stream source metadata c).2 in
  up c !! up_id s = None
  /\ up c' !! up_id s = Some s
  /\ base.size (up c') = S (base.size (up c))
  /\ (forall k old, up c !! k = Some old -> up c' !! k = Some old)
  /\ down c' = down c
  /\ streamId c' = streamId c + 1.
Proof.
  intros H0 Hlt Hinv Hret c'. subst c'.
  destruct (stream_cases source metadata c) as [[msg Hs]|[m Hs]];
    rewrite Hs in Hret |- *; simpl in Hret; [discriminate|].
  injection Hret as <-. simpl. rewrite (js_incr_exact _ Hlt).
  assert (Hfresh : up c !! (streamId c + 1) = None).
  { destruct (up c !! (streamId c + 1)) eqn:Hl; [|reflexivity].
    specialize (Hinv _ (mk_is_Some _ _ Hl)). lia. }
  split; [exact Hfresh|]. split; [apply lookup_insert_eq|].
  split; [apply map_size_insert_None; exact Hfresh|].
  split; [|split; reflexivity].
  intros k old Hk. rewrite lookup_insert_ne; [exact Hk|].
  intros <-. rewrite Hfresh in Hk. discriminate.
Qed.

Lemma stream_adds_one_entry_witness :
  base.size (up (stream (SArrayBuffer 16) no_metadata new).2) = 1%nat
  /\ streamId (stream (SArrayBuffer 16) no_metadata new).2 = 1.
Proof.
  destruct (stream_adds_one_entry (SArrayBuffer 16) no_metadata new
              {| up_id := 1;
                 up_metadata := {| filename := None; type := None;
                                   size := Some 16 |};
                 up_source := SArrayBuffer 16 |})
    as (_ & _ & Hsize & _ & _ & Hid).
  - simpl. lia.
  - unfold MAX_EXACT. simpl. lia.
  - exact keys_allocated_new.
  - reflexivity.
  - split; [exact Hsize|exact Hid].
Defined.

End StreamFacts.

Section StreamSequences.
Import BaseClient.
Local Open Scope Z_scope.

(** A run of calls never disturbs a stream stored under a key up to the
    counter it started from. *)
Lemma stream_all_keeps calls : forall c k v,
  0 <= streamId c ->
  streamId c + Z.of_nat (length calls) <= MAX_EXACT ->
  up c !! k = Some v -> k <= streamId c ->
  up (stream_all calls c).2 !! k = Some v.
Proof.
  induction calls as [|[source metadata] rest IH]; intros c k v H0 Hlen Hk Hle;
    [exact Hk|].
  rewrite length_cons, Nat2Z.inj_succ in Hlen. simpl.
  destruct (stream_cases source metadata c) as [[msg Hs]|[m Hs]];
    rewrite Hs; clear Hs.
  - specialize (IH c k v H0 ltac:(lia) Hk Hle).
    destruct (stream_all rest c) as [rs c2]. exact IH.
  - rewrite (js_incr_exact (streamId c)) by lia.
    set (c1 := {| up := _; down := _; streamId := streamId c + 1 |}).
    assert (Hk1 : up c1 !! k = Some v).
    { subst c1. simpl. rewrite lookup_insert_ne by lia. exact Hk. }
    specialize (IH c1 k v ltac:(simpl; lia) ltac:(simpl; lia) Hk1
                  ltac:(simpl; lia)).
    destruct (stream_all rest c1) as [rs c2]. exact IH.
Qed.

(** X3.  While the counter is in the exact range, no call of a sequence
    overwrites the stream of an earlier one: every stream a call returned
    is still stored under its id when the sequence is over. *)
Theorem stream_all_keeps_returned
  (calls : list (Source * Metadata)) (c : t) (s : UpStream) :
  0 <= streamId c ->
  streamId c + Z.of_nat (length calls) <= MAX_EXACT ->
  Returned s ∈ (stream_all calls c).1 ->
  up (stream_all calls c).2 !! up_id s = Some s.
Proof.
  revert c. induction calls as [|[source metadata] rest IH]; intros c H0 Hlen Hin.
  - simpl in Hin. apply elem_of_nil in Hin. destruct Hin.
  - rewrite length_cons, Nat2Z.inj_succ in Hlen. simpl in Hin |- *.
    destruct (stream_cases source metadata c) as [[msg Hs]|[m Hs]];
      rewrite Hs in Hin |- *; clear Hs.
    + specialize (IH c H0 ltac:(lia)).
      destruct (stream_all rest c) as [rs c2]. simpl in *.
      apply elem_of_cons in Hin as [Heq|Hin]; [discriminate|]. auto.
    + rewrite (js_incr_exact (streamId c)) in Hin |- * by lia.
      set (s0 := {| up_id := streamId c + 1; up_metadata := m;
                    up_source := source |}) in *.
      set (c1 := {| up := _; down := _; streamId := streamId c + 1 |}) in *.
      specialize (IH c1 ltac:(simpl; lia) ltac:(simpl; lia)).
      pose proof (stream_all_keeps rest c1 (streamId c + 1) s0
                    ltac:(simpl; lia) ltac:(simpl; lia)
                    ltac:(subst c1; simpl; apply lookup_insert_eq)
                    ltac:(simpl; lia)) as Hkept.
      destruct (stream_all rest c1) as [rs c2]. simpl in *.
      apply elem_of_cons in Hin as [Heq|Hin]; [|auto].
      injection Heq as ->. exact Hkept.
Qed.

Lemma stream_all_keeps_returned_witness :
  let calls := [(SBlob 5 "text/plain", no_metadata);
                (SReadableStream, no_metadata);
                (SArrayBuffer 16, no_metadata)] in
  up (stream_all calls new).2 !! 1
  = Some {| up_id := 1;
            up_metadata := {| filename := None; type := None; size := Some 5 |};
            up_source := SBlob 5 "text/plain" |}.
Proof.
  intros calls.
  apply (stream_all_keeps_returned calls new
           {| up_id := 1;
              up_metadata := {| filename := None; type := None; size := Some 5 |};
              up_source := SBlob 5 "text/plain" |}).
  - simpl. lia.
  - unfold MAX_EXACT. simpl. lia.
  - vm_compute. apply list_elem_of_here.
Defined.

(** X4.  While the counter is in the exact range, the ids of the
    successful calls of a sequence are consecutive: they count up by one
    from the counter the sequence started from, a call that throws using up
    no id, and the counter ends at the last id given out. *)
Theorem stream_ids_consecutive (calls : list (Source * Metadata)) (c : t) :
  0 <= streamId c ->
  streamId c + Z.of_nat (length calls) <= MAX_EXACT ->
  let ids := allocated (stream_all calls c).1 in
  ids = seqZ (streamId c + 1) (Z.of_nat (length ids))
  /\ streamId (stream_all calls c).2 = streamId c + Z.of_nat (length ids).
Proof.
  revert c. induction calls as [|[source metadata] rest IH]; intros c H0 Hlen.
  - simpl. split; [reflexivity|lia].
  - rewrite length_cons, Nat2Z.inj_succ in Hlen. simpl.
    destruct (stream_cases source metadata c) as [[msg Hs]|[m Hs]];
      rewrite Hs; clear Hs.
    + specialize (IH c H0 ltac:(lia)).
      destruct (stream_all rest c) as [rs c2]. simpl in *. exact IH.
    + rewrite (js_incr_exact (streamId c)) by lia.
      set (c1 := {| up := _; down := _; streamId := streamId c + 1 |}).
      specialize (IH c1 ltac:(simpl; lia) ltac:(simpl; lia)).
      destruct (stream_all rest c1) as [rs c2]. simpl in *.
      destruct IH as [Hids Hend]. split; [|lia].
      rewrite seqZ_cons by lia. f_equal.
      etransitivity; [exact Hids|]. f_equal; lia.
Qed.

Lemma stream_ids_consecutive_witness :
  let calls := [(SBlob 5 "text/plain", no_metadata);
                (SReadableStream, no_metadata);
                (SArrayBuffer 16, no_metadata)] in
  allocated (stream_all calls new).1 = [1; 2]
  /\ streamId (stream_all calls new).2 = 2.
Proof.
  intros calls.
  destruct (stream_ids_consecutive calls new) as [_ Hend].
  - simpl. lia.
  - unfold MAX_EXACT. simpl. lia.
  - split; [reflexivity|exact Hend].
Defined.

End StreamSequences.

(** ** ApiError: the text of an error *)

Section ApiErrorText.
Import ApiError.

(** X5.  [toString()] gives the code, a space and the message; since the
    message of an error built without one is the code (see
    [message_of_new_without_text]), such an error prints its code twice. *)
Theorem toString_of_new (c : string) (text : option string) (d : JsValue) :
  toString (new c text d)
  = c +:+ " " +:+ match text with Some m => m | None => c end
  /\ wire_message (toJSON (new c text d))
     = match text with Some m => m | None => c end.
Proof.
  unfold toString, toJSON. cbn [wire_message code new].
  destruct text as [m|].
  - rewrite message_of_new_with_text. split; reflexivity.
  - fold (new c None d). rewrite message_of_new_without_text.
    split; reflexivity.
Qed.

End ApiErrorText.

(** ** Application: [start()] *)

Section StartFacts.
Import Application Starting.

(** A sequential pass over bindings none of which fails invokes every one
    in the order given and resolves, whatever the kind. *)
Lemma call_sequential_pass kind fns app :
  forallb (fun f => negb (hook_throws f)) fns = true ->
  call_sequential kind fns app = (hook_events kind fns, app, Fulfilled tt).
Proof.
  induction fns as [|f rest IH]; intros Hpass; [reflexivity|].
  simpl in Hpass. apply andb_prop in Hpass as [Hf Hrest].
  apply negb_true_iff in Hf. simpl. rewrite Hf.
  erewrite bind_fulfilled by reflexivity.
  rewrite (IH Hrest). reflexivity.
Qed.

Lemma hooks_call_pass kind app :
  hooks_pass kind app = true ->
  hooks_call kind sequential app
  = (hook_events kind (bindings kind (hooks (registry app))), app, Fulfilled tt).
Proof.
  intros Hpass. unfold hooks_call.
  erewrite bind_fulfilled by reflexivity. simpl.
  rewrite call_sequential_pass by exact Hpass. reflexivity.
Qed.

Lemma initializeEssential_runs app :
  initializeEssential app
  = ([CommandRegistered APP_COMMAND "task";
      CommandRegistered APP_COMMAND "registry"],
     with_essentials app, Fulfilled tt).
Proof. reflexivity. Qed.

(** Starting the transports: every one is started, in order; a rejection
    is logged and the loop goes on. *)
Lemma start_transports trs app :
  for_each trs (fun transport =>
    catch (transport_start transport)
          (fun cause => logger_error "Transport start error" cause)) app
  = (transport_start_events trs, app, Fulfilled tt).
Proof.
  induction trs as [|tr rest IH]; [reflexivity|].
  simpl for_each.
  assert (Hone :
    catch (transport_start tr)
          (fun cause => logger_error "Transport start error" cause) app
    = (TransportStart (transport_name tr)
       :: match start_rejects tr with
          | Some cause =>
              [LoggerError "Transport start error" (TransportRejected cause)]
          | None => []
          end, app, Fulfilled tt)).
  { unfold catch, transport_start.
    destruct (start_rejects tr) as [cause|]; reflexivity. }
  erewrite bind_fulfilled by exact Hone.
  rewrite IH. reflexivity.
Qed.

(** [initialize()] up to and including [registry.load()]. *)
Lemma initialize_to_registry_load app (k : Async unit) :
  hooks_pass BeforeInitialize app = true ->
  (hooks_call BeforeInitialize sequential;;
   initializeEssential;;
   registry_load;; k) app
  = match registry_load_rejects app with
    | Some cause =>
        (hook_events BeforeInitialize
           (bindings BeforeInitialize (hooks (registry app)))
         ++ [CommandRegistered APP_COMMAND "task";
             CommandRegistered APP_COMMAND "registry"; RegistryLoad],
         with_essentials app, Rejected (LoadRejected "registry" cause))
    | None =>
        (hook_events BeforeInitialize
           (bindings BeforeInitialize (hooks (registry app)))
         ++ [CommandRegistered APP_COMMAND "task";
             CommandRegistered APP_COMMAND "registry"; RegistryLoad]
         ++ trace_of (k (with_essentials app)),
         app_of (k (with_essentials app)),
         settled_of (k (with_essentials app)))
    end.
Proof.
  intros Hpass.
  erewrite bind_fulfilled by (apply hooks_call_pass; exact Hpass).
  erewrite (bind_fulfilled initializeEssential)
    by apply initializeEssential_runs.
  unfold registry_load.
  destruct (registry_load_rejects app) as [cause|] eqn:Hload.
  - assert (Hrej :
      (app0 ← this; emit RegistryLoad;;
       match registry_load_rejects app0 with
       | Some cause => reject (LoadRejected "registry" cause)
       | None => mret tt
       end) (with_essentials app)
      = ([RegistryLoad], with_essentials app,
         Rejected (LoadRejected "registry" cause))).
    { unfold mbind, Async_bind, this, emit. simpl. rewrite Hload. reflexivity. }
    erewrite bind_rejected by exact Hrej. reflexivity.
  - assert (Hok :
      (app0 ← this; emit RegistryLoad;;
       match registry_load_rejects app0 with
       | Some cause => reject (LoadRejected "registry" cause)
       | None => mret tt
       end) (with_essentials app)
      = ([RegistryLoad], with_essentials app, Fulfilled tt)).
    { unfold mbind, Async_bind, this, emit. simpl. rewrite Hload. reflexivity. }
    erewrite bind_fulfilled by exact Hok. reflexivity.
Qed.

End StartFacts.

Section StartOrder.
Import Application Starting.

Lemma hooks_pass_with_essentials kind app :
  hooks_pass kind (with_essentials app) = hooks_pass kind app.
Proof. reflexivity. Qed.

Lemma container_load_runs app :
  container_load app
  = ([ContainerLoad], app,
     match container_load_rejects app with
     | Some cause => Rejected (LoadRejected "container" cause)
     | None => Fulfilled tt
     end).
Proof.
  unfold container_load, mbind, Async_bind, this, emit. simpl.
  destruct (container_load_rejects app); reflexivity.
Qed.

Lemma initialize_runs app :
  hooks_pass BeforeInitialize app = true ->
  hooks_pass AfterInitialize app = true ->
  registry_load_rejects app = None ->
  container_load_rejects app = None ->
  initialize app
  = (hook_events BeforeInitialize
       (bindings BeforeInitialize (hooks (registry app)))
     ++ [CommandRegistered APP_COMMAND "task";
         CommandRegistered APP_COMMAND "registry"; RegistryLoad; ContainerLoad]
     ++ hook_events AfterInitialize
          (bindings AfterInitialize (hooks (registry app))),
     with_essentials app, Fulfilled tt).
Proof.
  intros Hbefore Hafter Hreg Hcont. unfold initialize.
  rewrite initialize_to_registry_load by exact Hbefore. rewrite Hreg.
  assert (Hrest :
    (container_load;; hooks_call AfterInitialize sequential)
      (with_essentials app)
    = (ContainerLoad
       :: hook_events AfterInitialize
            (bindings AfterInitialize (hooks (registry app))),
       with_essentials app, Fulfilled tt)).
  { erewrite bind_fulfilled
      by (rewrite container_load_runs; simpl; rewrite Hcont; reflexivity).
    rewrite hooks_call_pass by exact Hafter. reflexivity. }
  rewrite Hrest. unfold trace_of, app_of, settled_of. simpl.
  rewrite <- ?app_assoc. reflexivity.
Qed.

(** X6.  When no [*Initialize] or [*Start] hook fails and the registry and
    the container load, [start()] runs the [BeforeInitialize] hooks,
    registers the commands [task] and [registry], loads the registry and
    then the container, runs the [AfterInitialize] and the [BeforeStart]
    hooks, on an API worker starts every transport in insertion order (a
    failure is logged and the loop goes on), runs the [AfterStart] hooks,
    and resolves. *)
Theorem start_runs (app : t) :
  hooks_pass BeforeInitialize app = true ->
  hooks_pass AfterInitialize app = true ->
  hooks_pass BeforeStart app = true ->
  hooks_pass AfterStart app = true ->
  registry_load_rejects app = None ->
  container_load_rejects app = None ->
  let hs := hooks (registry app) in
  start app
  = (hook_events BeforeInitialize (bindings BeforeInitialize hs)
     ++ [CommandRegistered APP_COMMAND "task";
         CommandRegistered APP_COMMAND "registry"; RegistryLoad; ContainerLoad]
     ++ hook_events AfterInitialize (bindings AfterInitialize hs)
     ++ hook_events BeforeStart (bindings BeforeStart hs)
     ++ (if isApiWorker app then transport_start_events (transports app) else [])
     ++ hook_events AfterStart (bindings AfterStart hs),
     with_essentials app, Fulfilled tt).
Proof.
  intros HBI HAI HBS HAS Hreg Hcont hs. subst hs. unfold start.
  erewrite bind_fulfilled by (apply initialize_runs; assumption).
  erewrite (bind_fulfilled (hooks_call BeforeStart sequential))
    by (apply hooks_call_pass; exact HBS).
  erewrite (bind_fulfilled this) by reflexivity.
  assert (Htr :
    (if isApiWorker (with_essentials app)
     then for_each (transports (with_essentials app)) (fun transport =>
            catch (transport_start transport)
                  (fun cause => logger_error "Transport start error" cause))
     else mret tt) (with_essentials app)
    = ((if isApiWorker app then transport_start_events (transports app) else []),
       with_essentials app, Fulfilled tt)).
  { change (isApiWorker (with_essentials app)) with (isApiWorker app).
    destruct (isApiWorker app); [apply start_transports|reflexivity]. }
  erewrite (bind_fulfilled _ _ (with_essentials app)) by exact Htr.
  rewrite hooks_call_pass by exact HAS.
  unfold trace_of, app_of, settled_of. simpl.
  rewrite <- ?app_assoc. reflexivity.
Qed.

Lemma start_runs_witness :
  start Examples.app
  = ([CommandRegistered APP_COMMAND "task";
      CommandRegistered APP_COMMAND "registry"; RegistryLoad; ContainerLoad;
      HookInvoked BeforeStart "warm-up";
      TransportStart "ws"; TransportStart "http"],
     with_essentials Examples.app, Fulfilled tt).
Proof.
  exact (start_runs Examples.app eq_refl eq_refl eq_refl eq_refl eq_refl eq_refl).
Defined.

(** X7.  When [registry.load()] rejects, [start()] rejects with that
    failure right after the call: the container is not loaded, no
    [AfterInitialize] or [*Start] hook runs and no transport is started;
    when the registry loads and [container.load()] rejects, [start()]
    rejects right after that call.  In both cases the two commands stay
    registered. *)
Theorem start_aborts_when_load_rejects (app : t) (cause : string) :
  hooks_pass BeforeInitialize app = true ->
  let before :=
    hook_events BeforeInitialize
      (bindings BeforeInitialize (hooks (registry app)))
    ++ [CommandRegistered APP_COMMAND "task";
        CommandRegistered APP_COMMAND "registry"; RegistryLoad] in
  (registry_load_rejects app = Some cause ->
     start app
     = (before, with_essentials app, Rejected (LoadRejected "registry" cause)))
  /\ (registry_load_rejects app = None ->
      container_load_rejects app = Some cause ->
      start app
      = (before ++ [ContainerLoad], with_essentials app,
         Rejected (LoadRejected "container" cause))).
Proof.
  intros HBI before. subst before. split.
  - intros Hreg. unfold start.
    erewrite bind_rejected; [reflexivity|].
    unfold initialize.
    rewrite initialize_to_registry_load by exact HBI. rewrite Hreg.
    reflexivity.
  - intros Hreg Hcont. unfold start.
    erewrite bind_rejected; [reflexivity|].
    unfold initialize.
    rewrite initialize_to_registry_load by exact HBI. rewrite Hreg.
    erewrite bind_rejected
      by (rewrite container_load_runs; simpl; rewrite Hcont; reflexivity).
    unfold trace_of, app_of, settled_of. simpl.
    rewrite <- app_assoc. reflexivity.
Qed.

Lemma start_aborts_when_load_rejects_witness :
  start broken_registry
  = ([CommandRegistered APP_COMMAND "task";
      CommandRegistered APP_COMMAND "registry"; RegistryLoad],
     with_essentials broken_registry,
     Rejected (LoadRejected "registry" "no such module"))
  /\ start broken_container
     = ([CommandRegistered APP_COMMAND "task";
         CommandRegistered APP_COMMAND "registry"; RegistryLoad; ContainerLoad],
        with_essentials broken_container,
        Rejected (LoadRejected "container" "no database")).
Proof.
  split.
  - exact (proj1 (start_aborts_when_load_rejects broken_registry
                    "no such module" eq_refl) eq_refl).
  - exact (proj2 (start_aborts_when_load_rejects broken_container
                    "no database" eq_refl) eq_refl eq_refl).
Defined.

End StartOrder.

(** ** Application: transports and the worker type *)

Section TransportFree.
Import Application Starting.

Lemma free_ret {A} (a : A) : transport_free (mret a).
Proof. intros app. split; [reflexivity|constructor]. Qed.

Lemma free_this : transport_free this.
Proof. intros app. split; [reflexivity|constructor]. Qed.

Lemma free_reject {A} e : transport_free (@reject A e).
Proof. intros app. split; [reflexivity|constructor]. Qed.

Lemma free_emit e : is_transport_event e = false -> transport_free (emit e).
Proof.
  intros He app. split; [reflexivity|].
  constructor; [exact He|constructor].
Qed.

Lemma free_set_registry r : transport_free (set_registry r).
Proof. intros app. split; [reflexivity|constructor]. Qed.

Lemma free_bind {A B} (m : Async A) (k : A -> Async B) :
  transport_free m -> (forall a, transport_free (k a)) ->
  transport_free (m ≫= k).
Proof.
  intros Hm Hk app. specialize (Hm app).
  destruct (m app) as [[tr app1] [a|e]] eqn:Heq.
  - erewrite bind_fulfilled by exact Heq.
    destruct Hm as [Hty Htr]. destruct (Hk a app1) as [Hty2 Htr2].
    unfold app_of, trace_of in *. simpl in *. split; [congruence|].
    apply Forall_app. split; assumption.
  - erewrite bind_rejected by exact Heq. exact Hm.
Qed.

Lemma free_for_each {A} (xs : list A) (body : A -> Async unit) :
  (forall x, transport_free (body x)) -> transport_free (for_each xs body).
Proof.
  intros Hbody. induction xs as [|x rest IH]; simpl.
  - apply free_ret.
  - apply free_bind; [apply Hbody|intros _; exact IH].
Qed.

Lemma free_call_sequential kind fns : transport_free (call_sequential kind fns).
Proof.
  induction fns as [|f rest IH]; simpl; [apply free_ret|].
  apply free_bind; [apply free_emit; reflexivity|intros _].
  destruct (hook_throws f); [|exact IH].
  destruct (start_sensitive kind); [apply free_reject|].
  apply free_bind; [apply free_emit; reflexivity|intros _; exact IH].
Qed.

Lemma free_call_concurrent kind fns : transport_free (call_concurrent kind fns).
Proof.
  unfold call_concurrent.
  apply free_bind;
    [apply free_for_each; intros f; apply free_emit; reflexivity|intros _].
  apply free_bind;
    [apply free_for_each; intros f; apply free_emit; reflexivity|intros _].
  destruct (_ && _); [apply free_reject|apply free_ret].
Qed.

Lemma free_hooks_call kind options : transport_free (hooks_call kind options).
Proof.
  unfold hooks_call. apply free_bind; [apply free_this|intros app].
  destruct (concurrent options);
    [apply free_call_concurrent|apply free_call_sequential].
Qed.

Lemma free_registerCommand namespace name :
  transport_free (registerCommand namespace name).
Proof.
  unfold registerCommand. apply free_bind; [apply free_this|intros app].
  apply free_bind; [apply free_emit; reflexivity|intros _].
  apply free_set_registry.
Qed.

Lemma free_initialize : transport_free initialize.
Proof.
  unfold initialize, initializeEssential, registry_load, container_load.
  apply free_bind; [apply free_hooks_call|intros _].
  apply free_bind;
    [apply free_bind; [apply free_registerCommand|intros _];
     apply free_registerCommand|intros _].
  apply free_bind.
  { apply free_bind; [apply free_this|intros app].
    apply free_bind; [apply free_emit; reflexivity|intros _].
    destruct (registry_load_rejects app); [apply free_reject|apply free_ret]. }
  intros _. apply free_bind; [|intros _; apply free_hooks_call].
  apply free_bind; [apply free_this|intros app].
  apply free_bind; [apply free_emit; reflexivity|intros _].
  destruct (container_load_rejects app); [apply free_reject|apply free_ret].
Qed.

Lemma free_terminate : transport_free terminate.
Proof.
  unfold terminate, container_dispose, registry_clear.
  apply free_bind; [apply free_hooks_call|intros _].
  apply free_bind; [apply free_emit; reflexivity|intros _].
  apply free_bind; [|intros _; apply free_hooks_call].
  apply free_bind; [apply free_this|intros app].
  apply free_bind; [apply free_emit; reflexivity|intros _].
  apply free_set_registry.
Qed.

(** What follows [initialize()] in [start()], on a worker that is not an API
    worker. *)
Lemma start_loop_skipped app (k : Async unit) :
  options_type app = Task -> transport_free k ->
  options_type
    (app_of ((app0 ← this;
              (if isApiWorker app0 then
                 for_each (transports app0) (fun transport =>
                   catch (transport_start transport)
                         (fun cause => logger_error "Transport start error" cause))
               else mret tt);; k) app)) = options_type app
  /\ Forall (fun e => is_transport_event e = false)
       (trace_of ((app0 ← this;
              (if isApiWorker app0 then
                 for_each (transports app0) (fun transport =>
                   catch (transport_start transport)
                         (fun cause => logger_error "Transport start error" cause))
               else mret tt);; k) app)).
Proof.
  intros Hty Hk.
  erewrite (bind_fulfilled this) by reflexivity.
  assert (Hapi : isApiWorker app = false).
  { unfold isApiWorker. rewrite Hty. reflexivity. }
  rewrite Hapi.
  erewrite (bind_fulfilled (mret tt)) by reflexivity.
  unfold app_of, trace_of. simpl. apply Hk.
Qed.

Lemma stop_loop_skipped app (k : Async unit) :
  options_type app = Task -> transport_free k ->
  options_type
    (app_of ((app0 ← this;
              (if isApiWorker app0 then
                 for_each (transports app0) (fun transport =>
                   catch (transport_stop transport)
                         (fun cause => logger_error "Transport stop error" cause))
               else mret tt);; k) app)) = options_type app
  /\ Forall (fun e => is_transport_event e = false)
       (trace_of ((app0 ← this;
              (if isApiWorker app0 then
                 for_each (transports app0) (fun transport =>
                   catch (transport_stop transport)
                         (fun cause => logger_error "Transport stop error" cause))
               else mret tt);; k) app)).
Proof.
  intros Hty Hk.
  erewrite (bind_fulfilled this) by reflexivity.
  assert (Hapi : isApiWorker app = false).
  { unfold isApiWorker. rewrite Hty. reflexivity. }
  rewrite Hapi.
  erewrite (bind_fulfilled (mret tt)) by reflexivity.
  unfold app_of, trace_of. simpl. apply Hk.
Qed.

(** A prefix [m] that is transport-free, followed by a rest that is so on
    task workers. *)
Lemma free_then {A} (m : Async A) (k : Async unit) app :
  transport_free m ->
  (forall app1, options_type app1 = options_type app ->
     options_type (app_of (k app1)) = options_type app1
     /\ Forall (fun e => is_transport_event e = false) (trace_of (k app1))) ->
  Forall (fun e => is_transport_event e = false) (trace_of ((m;; k) app)).
Proof.
  intros Hm Hk. specialize (Hm app).
  destruct (m app) as [[tr app1] [a|e]] eqn:Heq.
  - erewrite bind_fulfilled by exact Heq.
    destruct Hm as [Hty Htr]. unfold app_of, trace_of in *. simpl in *.
    apply Forall_app. split; [exact Htr|]. apply Hk. exact Hty.
  - erewrite bind_rejected by exact Heq. apply Hm.
Qed.

(** X8.  On a task worker neither [start()] nor [stop()] does anything on a
    transport, whatever the hooks and the loads do: the trace of either
    holds no [transport.start()] and no [transport.stop()]. *)
Theorem task_worker_leaves_transports (app : t) :
  options_type app = Task ->
  Forall (fun e => is_transport_event e = false) (trace_of (start app))
  /\ Forall (fun e => is_transport_event e = false) (trace_of (stop app)).
Proof.
  intros Hty. split.
  - unfold start. apply free_then; [apply free_initialize|].
    intros app1 Hty1.
    assert (Hgoal :
      Forall (fun e => is_transport_event e = false)
        (trace_of
           ((hooks_call BeforeStart sequential;;
             app0 ← this;
             (if isApiWorker app0 then
                for_each (transports app0) (fun transport =>
                  catch (transport_start transport)
                        (fun cause =>
                           logger_error "Transport start error" cause))
              else mret tt);; hooks_call AfterStart sequential) app1))
      /\ options_type
           (app_of
              ((hooks_call BeforeStart sequential;;
                app0 ← this;
                (if isApiWorker app0 then
                   for_each (transports app0) (fun transport =>
                     catch (transport_start transport)
                           (fun cause =>
                              logger_error "Transport start error" cause))
                 else mret tt);; hooks_call AfterStart sequential) app1))
         = options_type app1).
    { destruct (free_hooks_call BeforeStart sequential app1) as [Hty2 Htr2].
      destruct (hooks_call BeforeStart sequential app1)
        as [[tr app2] [[]|e]] eqn:Heq.
      - erewrite bind_fulfilled by exact Heq.
        unfold app_of, trace_of in Hty2, Htr2. simpl in Hty2, Htr2.
        destruct (start_loop_skipped app2 (hooks_call AfterStart sequential))
          as [Hty3 Htr3];
          [congruence|apply free_hooks_call|].
        unfold app_of, trace_of in *. simpl in *.
        split; [apply Forall_app; split; assumption|congruence].
      - erewrite bind_rejected by exact Heq.
        unfold app_of, trace_of in *. simpl in *. split; assumption. }
    destruct Hgoal as [Htr Hty2]. split; assumption.
  - unfold stop.
    destruct (free_hooks_call BeforeStop sequential app) as [Hty2 Htr2].
    destruct (hooks_call BeforeStop sequential app)
      as [[tr app2] [[]|e]] eqn:Heq.
    + erewrite bind_fulfilled by exact Heq.
      unfold app_of, trace_of in Hty2, Htr2. simpl in Hty2, Htr2.
      destruct (stop_loop_skipped app2
                  (hooks_call AfterStop sequential;; terminate))
        as [_ Htr3]; [congruence| |].
      * apply free_bind; [apply free_hooks_call|intros _; apply free_terminate].
      * unfold trace_of in *. simpl in *. apply Forall_app. split; assumption.
    + erewrite bind_rejected by exact Heq. exact Htr2.
Qed.

Lemma task_worker_leaves_transports_witness :
  Forall (fun e => is_transport_event e = false) (trace_of (start task_app))
  /\ Forall (fun e => is_transport_event e = false) (trace_of (stop task_app)).
Proof. exact (task_worker_leaves_transports task_app eq_refl). Defined.

End TransportFree.

(** ** Application: the connections *)

Section ConnectionFacts.
Import Connections.

Lemma addConnection_filed c st :
  filed_by_id st -> filed_by_id (addConnection c st).2.
Proof.
  intros Hst k x. simpl. intros Hk.
  destruct (decide (k = id c)) as [->|Hne].
  - rewrite lookup_insert_eq in Hk. congruence.
  - rewrite lookup_insert_ne in Hk by congruence. apply Hst. exact Hk.
Qed.

Lemma removeConnection_subset x st k c :
  connections (removeConnection x st).2 !! k = Some c ->
  connections st !! k = Some c.
Proof.
  unfold removeConnection.
  destruct (match x with ById i => connections st !! i | ByConnection c0 => Some c0 end)
    as [c0|]; simpl; [|auto].
  intros Hk. apply lookup_delete_Some in Hk as [_ Hk]. exact Hk.
Qed.

Lemma removeConnection_filed x st :
  filed_by_id st -> filed_by_id (removeConnection x st).2.
Proof.
  intros Hst k c Hk. apply Hst. eapply removeConnection_subset. exact Hk.
Qed.

Lemma apply_filed op st : filed_by_id st -> filed_by_id (apply op st).2.
Proof.
  destruct op; [apply addConnection_filed|apply removeConnection_filed].
Qed.

Lemma run_filed ops : forall st, filed_by_id st -> filed_by_id (run ops st).2.
Proof.
  induction ops as [|op rest IH]; intros st Hst; [exact Hst|].
  simpl. pose proof (apply_filed op st Hst) as H1.
  destruct (apply op st) as [ev st1]. simpl in H1.
  specialize (IH st1 H1). destruct (run rest st1) as [evs st2]. exact IH.
Qed.

Lemma init_filed a : filed_by_id (init a).
Proof. intros k c Hk. simpl in Hk. rewrite lookup_empty in Hk. discriminate. Qed.

(** X9.  Whatever connections the transports add and remove, by id or by
    object and in whatever order, every connection the application holds
    is stored under its own id: [getConnection(id)] never returns a
    connection with another id. *)
Theorem connections_filed_by_id (a : Application.t) (ops : list Op) :
  filed_by_id (run ops (init a)).2.
Proof. apply run_filed. apply init_filed. Qed.

Lemma for_each_emit {A} (g : A -> Application.Event) (xs : list A) a :
  Application.for_each xs (fun x => Application.emit (g x)) a
  = (g <$> xs, a, Application.Fulfilled tt).
Proof.
  induction xs as [|x rest IH]; [reflexivity|].
  simpl Application.for_each.
  erewrite bind_fulfilled by reflexivity. rewrite IH. reflexivity.
Qed.

(** The hooks of a connection kind when they are called. *)
Lemma fire_events kind st :
  Application.start_sensitive kind = false ->
  fire kind st = connection_hook_events kind (app st).
Proof.
  intros Hkind. unfold fire, Application.hooks_call.
  erewrite bind_fulfilled by reflexivity. simpl.
  unfold Application.call_concurrent.
  erewrite bind_fulfilled by apply for_each_emit.
  erewrite bind_fulfilled by apply for_each_emit.
  rewrite Hkind. cbn [andb]. unfold Application.trace_of. cbn [fst snd].
  unfold connection_hook_events, mret, Application.Async_ret. cbn [fst snd].
  rewrite !app_nil_r. reflexivity.
Qed.

(** X10.  After [addConnection(c)], [getConnection(c.id)] is [c], whatever
    was stored under that id before; the connections with other ids are as
    they were; and every [OnConnection] hook has been invoked, in
    registration order, a failing one being logged. *)
Theorem addConnection_then_get (c : BaseTransportConnection) (st : t) :
  let st1 := (addConnection c st).2 in
  getConnection (id c) st1 = Some c
  /\ (forall k, k <> id c -> getConnection k st1 = getConnection k st)
  /\ (addConnection c st).1
     = connection_hook_events Application.OnConnection (app st)
  /\ app st1 = app st.
Proof.
  intros st1. subst st1. unfold getConnection.
  split; [apply lookup_insert_eq|].
  split; [intros k Hk; apply lookup_insert_ne; congruence|].
  split; [|reflexivity].
  apply (fire_events Application.OnConnection). reflexivity.
Qed.

Lemma removeConnection_unknown i st :
  connections st !! i = None -> removeConnection (ById i) st = ([], st).
Proof. intros Hi. unfold removeConnection. rewrite Hi. reflexivity. Qed.

Lemma removeConnection_known i c st :
  connections st !! i = Some c ->
  removeConnection (ById i) st
  = (connection_hook_events Application.OnDisconnection (app st),
     {| app := app st; connections := delete (id c) (connections st) |}).
Proof.
  intros Hi. unfold removeConnection. rewrite Hi.
  rewrite (fire_events Application.OnDisconnection) by reflexivity.
  reflexivity.
Qed.

(** X11.  [removeConnection(id)] with an id under which nothing is stored
    does nothing and invokes no hook.  With an id under which a connection
    is stored it invokes every [OnDisconnection] hook, in registration
    order (a failing one is logged), after which [getConnection(id)] is
    [undefined], the other connections are as they were, and a second
    [removeConnection(id)] does nothing. *)
Theorem removeConnection_by_id (i : string) (st : t) :
  filed_by_id st ->
  let st1 := (removeConnection (ById i) st).2 in
  (getConnection i st = None -> removeConnection (ById i) st = ([], st))
  /\ (forall c, getConnection i st = Some c ->
        (removeConnection (ById i) st).1
        = connection_hook_events Application.OnDisconnection (app st))
  /\ getConnection i st1 = None
  /\ (forall k, k <> i -> getConnection k st1 = getConnection k st)
  /\ removeConnection (ById i) st1 = ([], st1).
Proof.
  intros Hst st1. unfold getConnection.
  assert (Hgone : connections st1 !! i = None).
  { subst st1. destruct (connections st !! i) as [c|] eqn:Hi.
    - rewrite (removeConnection_known i c st Hi). simpl.
      rewrite (Hst i c Hi). apply lookup_delete_eq.
    - rewrite (removeConnection_unknown i st Hi). exact Hi. }
  split; [apply removeConnection_unknown|].
  split; [intros c Hi; rewrite (removeConnection_known i c st Hi); reflexivity|].
  split; [exact Hgone|].
  split; [|apply removeConnection_unknown; exact Hgone].
  intros k Hk. subst st1. destruct (connections st !! i) as [c|] eqn:Hi.
  - rewrite (removeConnection_known i c st Hi). simpl.
    rewrite (Hst i c Hi). apply lookup_delete_ne. congruence.
  - rewrite (removeConnection_unknown i st Hi). reflexivity.
Qed.

Lemma removeConnection_by_id_witness :
  let c := {| id := "c1"; transport := "ws" |} in
  let st := (addConnection c (init chat_app)).2 in
  let st1 := (removeConnection (ById "c1") st).2 in
  (removeConnection (ById "c1") st).1
  = [Application.HookInvoked Application.OnDisconnection "forget";
     Application.HookInvoked Application.OnDisconnection "audit";
     Application.HookFailureLogged Application.OnDisconnection "forget"]
  /\ getConnection "c1" st1 = None
  /\ removeConnection (ById "c1") st1 = ([], st1).
Proof.
  intros c st st1.
  assert (Hst : filed_by_id st)
    by (apply addConnection_filed, init_filed).
  destruct (removeConnection_by_id "c1" st Hst)
    as (_ & Hfired & Hgone & _ & Hagain).
  split; [exact (Hfired c eq_refl)|]. split; [exact Hgone|exact Hagain].
Defined.

(** X12.  [removeConnection(connection)] with a connection object invokes
    every [OnDisconnection] hook, in registration order (a failing one is
    logged), whether or not that connection is stored, and again when it
    is called again; it removes whatever is stored under the id of the
    object, be it that object or another one with the same id; the
    connections with other ids are as they were. *)
Theorem removeConnection_by_object (c : BaseTransportConnection) (st : t) :
  let st1 := (removeConnection (ByConnection c) st).2 in
  (removeConnection (ByConnection c) st).1
  = connection_hook_events Application.OnDisconnection (app st)
  /\ getConnection (id c) st1 = None
  /\ (forall k, k <> id c -> getConnection k st1 = getConnection k st)
  /\ (removeConnection (ByConnection c) st1).1
     = connection_hook_events Application.OnDisconnection (app st).
Proof.
  intros st1. subst st1. unfold getConnection.
  split; [apply (fire_events Application.OnDisconnection); reflexivity|].
  split; [apply lookup_delete_eq|].
  split; [intros k Hk; apply lookup_delete_ne; congruence|].
  apply (fire_events Application.OnDisconnection
           (removeConnection (ByConnection c) st).2). reflexivity.
Qed.

End ConnectionFacts.

(** ** The command line: the name of a command *)

Section ExecuteFacts.
Import Execute.

Lemma split_colon_cons s : exists piece pieces, split_colon s = piece :: pieces.
Proof.
  destruct s as [|a rest]; simpl; [eauto|].
  destruct (Ascii.eqb a colon); [eauto|].
  destruct (split_colon rest); eauto.
Qed.

Lemma split_colon_plain s : has_colon s = false -> split_colon s = [s].
Proof.
  induction s as [|a rest IH]; intros Hs; [reflexivity|].
  simpl in Hs. apply orb_false_elim in Hs as [Ha Hrest].
  simpl. rewrite Ha, (IH Hrest). reflexivity.
Qed.

Lemma split_colon_app a b :
  has_colon a = false ->
  split_colon (a +:+ String colon b) = a :: split_colon b.
Proof.
  induction a as [|x a IH]; intros Ha.
  - reflexivity.
  - simpl in Ha. apply orb_false_elim in Ha as [Hx Ha].
    change (String x a +:+ String colon b)
      with (String x (a +:+ String colon b)).
    simpl. rewrite Hx, (IH Ha). reflexivity.
Qed.

(** X13.  A command name without a colon is looked up among the commands
    of the application itself, and so is one whose part after the first
    colon is empty ([name:], [name::rest]). *)
Theorem resolve_app_command (s rest : string) :
  has_colon s = false ->
  resolve s = (AppCommand, s)
  /\ resolve (s +:+ ":") = (AppCommand, s)
  /\ resolve (s +:+ "::" +:+ rest) = (AppCommand, s).
Proof.
  intros Hs. unfold resolve. split; [|split].
  - rewrite (split_colon_plain s Hs). reflexivity.
  - change ":" with (String colon "").
    rewrite (split_colon_app s "" Hs). reflexivity.
  - change ("::" +:+ rest) with (String colon (String colon rest)).
    rewrite (split_colon_app s _ Hs). reflexivity.
Qed.

Lemma resolve_app_command_witness :
  resolve "task" = (AppCommand, "task")
  /\ resolve "task:" = (AppCommand, "task")
  /\ resolve "task::x" = (AppCommand, "task").
Proof. exact (resolve_app_command "task" "x" eq_refl). Defined.

(** X14.  [extension:name] is looked up as the command [name] of the
    extension [extension], an empty extension name included ([:name]); what
    follows a second colon is ignored. *)
Theorem resolve_extension_command (extension name rest : string) :
  has_colon extension = false -> has_colon name = false -> name <> "" ->
  resolve (extension +:+ ":" +:+ name) = (Extension extension, name)
  /\ resolve (extension +:+ ":" +:+ name +:+ ":" +:+ rest)
     = (Extension extension, name).
Proof.
  intros Hext Hname Hne.
  assert (Htruthy : truthy_string (Some name) = true).
  { simpl. apply negb_true_iff. apply String.eqb_neq. exact Hne. }
  unfold resolve. split.
  - change (":" +:+ name) with (String colon name).
    rewrite (split_colon_app extension name Hext),
      (split_colon_plain name Hname).
    simpl. simpl in Htruthy. rewrite Htruthy. reflexivity.
  - change (":" +:+ name +:+ ":" +:+ rest)
      with (String colon (name +:+ String colon rest)).
    rewrite (split_colon_app extension _ Hext),
      (split_colon_app name rest Hname).
    simpl. simpl in Htruthy. rewrite Htruthy. reflexivity.
Qed.

Lemma resolve_extension_command_witness :
  resolve ":migrate" = (Extension "", "migrate")
  /\ resolve ":migrate:up" = (Extension "", "migrate").
Proof.
  refine (resolve_extension_command "" "migrate" "up" eq_refl eq_refl _).
  discriminate.
Defined.

End ExecuteFacts.

(** ** The command line: when the process exits *)

Section ExitFacts.
Import Cli.

(** Without a signal nothing arms the timer and nothing is awaited. *)
Lemma handle_without_signal i p :
  i <> Signal ->
  exit_code p = None -> exitTimeout p = None -> awaited_stop p = None ->
  exit_code (handle i p) = None
  /\ exitTimeout (handle i p) = None
  /\ awaited_stop (handle i p) = None.
Proof.
  intros Hi Hc Ht Ha. unfold handle. rewrite Hc.
  destruct i as [| |i]; [contradiction| |].
  - unfold tick. rewrite Ht. auto.
  - unfold settle. simpl. rewrite Ha. simpl. auto.
Qed.

Lemma run_without_signal inputs : forall p,
  Forall (fun i => i <> Signal) inputs ->
  exit_code p = None -> exitTimeout p = None -> awaited_stop p = None ->
  exit_code (run inputs p) = None.
Proof.
  induction inputs as [|i rest IH]; intros p Hall Hc Ht Ha; [exact Hc|].
  apply Forall_cons in Hall as [Hi Hrest].
  destruct (handle_without_signal i p Hi Hc Ht Ha) as (Hc1 & Ht1 & Ha1).
  unfold run. simpl. apply (IH _ Hrest Hc1 Ht1 Ha1).
Qed.

Lemma run_exit_after_signal inputs : forall p code,
  exit_code p = None -> exitTimeout p = None -> awaited_stop p = None ->
  exit_code (run inputs p) = Some code -> Signal ∈ inputs.
Proof.
  induction inputs as [|i rest IH]; intros p code Hc Ht Ha Hexit.
  - simpl in Hexit. congruence.
  - destruct i as [| |i]; [apply list_elem_of_here| |];
      apply list_elem_of_further.
    + destruct (handle_without_signal Tick p) as (Hc1 & Ht1 & Ha1);
        [discriminate|assumption..|].
      exact (IH _ code Hc1 Ht1 Ha1 Hexit).
    + destruct (handle_without_signal (Supervisor i) p) as (Hc1 & Ht1 & Ha1);
        [discriminate|assumption..|].
      exact (IH _ code Hc1 Ht1 Ha1 Hexit).
Qed.

(** X15.  When the process that runs the [start] command has called
    [process.exit], it has passed the code [0] and a signal has come
    before: whatever the workers do, without [SIGTERM] or [SIGINT] the
    command line never calls [process.exit]. *)
Theorem process_exit_only_after_signal
  (opts : ApplicationServer.ApplicationServerOptions) (timeout : nat)
  (inputs : list Input) (code : Z) :
  exit_code (run inputs (start opts timeout)) = Some code ->
  code = 0%Z /\ Signal ∈ inputs.
Proof.
  intros Hexit. split.
  - destruct (exit_code_is_zero inputs _ (started_running opts timeout))
      as [Hnone|Hzero]; congruence.
  - apply (run_exit_after_signal inputs (start opts timeout) code);
      [reflexivity..|exact Hexit].
Qed.

Lemma process_exit_only_after_signal_witness :
  0%Z = 0%Z /\ Signal ∈ [Tick; Signal; Tick; Tick; Tick].
Proof.
  refine (process_exit_only_after_signal Examples.options 3
            [Tick; Signal; Tick; Tick; Tick] 0 _).
  vm_compute. reflexivity.
Defined.

Lemma handle_signal_twice p :
  handle Signal (handle Signal p) = handle Signal p.
Proof.
  destruct (exit_code p) as [c|] eqn:Hc.
  - rewrite (handle_exited Signal p c Hc). apply (handle_exited Signal p c Hc).
  - assert (Hh : handle Signal p = tryExit p)
      by (unfold handle; rewrite Hc; reflexivity).
    rewrite Hh. destruct (exitTimeout p) as [n|] eqn:Ht.
    + assert (Hp : tryExit p = p) by (unfold tryExit; rewrite Ht; reflexivity).
      rewrite Hp. rewrite Hh. exact Hp.
    + assert (Hq : exitTimeout (tryExit p) = Some (shutdownTimeout p))
        by (unfold tryExit; rewrite Ht, settle_exitTimeout; reflexivity).
      set (q := tryExit p) in *.
      unfold handle. destruct (exit_code q); [reflexivity|].
      unfold tryExit. rewrite Hq. reflexivity.
Qed.

(** X16.  A first signal calls [stop()] on the supervisor and arms the
    exit timer; a second signal does nothing; and once as many ticks as the
    shutdown timeout have passed (one at least) the process has exited with
    code [0], whether or not a worker ever exits. *)
Theorem signal_exits_within_timeout (p : t) (inputs : list Input) :
  exit_code p = None -> exitTimeout p = None ->
  (Nat.max 1 (shutdownTimeout p)
   <= length (filter (fun i => is_Tick i = true) inputs))%nat ->
  ApplicationServer.stop_calls (server (handle Signal p))
  = S (ApplicationServer.stop_calls (server p))
  /\ handle Signal (handle Signal p) = handle Signal p
  /\ exit_code (run (Signal :: inputs) p) = Some 0%Z.
Proof.
  intros Hc Ht Hticks. split; [|split].
  - unfold handle, tryExit. rewrite Hc, Ht.
    unfold settle. simpl.
    destruct (bool_decide _); simpl;
      unfold ApplicationServer.stop, ApplicationServer.stop_from;
      destruct (ApplicationServer.set_next_from _ _) as [[j w]|]; reflexivity.
  - apply handle_signal_twice.
  - apply signal_bounds_shutdown; assumption.
Qed.

Lemma signal_exits_within_timeout_witness :
  exit_code (run [Signal; Tick; Signal; Tick; Tick] (start Examples.options 3))
  = Some 0%Z.
Proof.
  refine (proj2 (proj2
    (signal_exits_within_timeout (start Examples.options 3)
       [Tick; Signal; Tick; Tick] eq_refl eq_refl _))).
  vm_compute. lia.
Defined.

End ExitFacts.

(** ** The supervisor: the workers [start()] creates *)

Section Spawning.
Import ApplicationServer Supervision.

Lemma set_add_fresh w entries :
  (Some w ∉ entries) -> set_add w entries = entries ++ [Some w].
Proof.
  intros Hnew. unfold set_add, set_has.
  case_bool_decide; [contradiction|reflexivity].
Qed.

(** The state after the first [n] rounds of the loop of [createWorkers]. *)
Lemma createWorkers_rounds type ws s n :
  (forall x, Some x ∈ workers s -> (threadId x < next_threadId s)%nat) ->
  let s' :=
    foldl (fun s id =>
             let opts :=
               match ws with
               | Count _ => VUndefined
               | Configs l => default VUndefined (l !! id)
               end in
             (createWorker type id opts s).2)
          s (seq 0 n) in
  let created := spawn (options s) type (next_threadId s) ws <$> seq 0 n in
  workers s' = workers s ++ (Some <$> created)
  /\ Pool.items (taskRunners s')
     = Pool.items (taskRunners s)
       ++ (if decide (type = Task) then created else [])
  /\ Pool.current (taskRunners s') = Pool.current (taskRunners s)
  /\ next_threadId s' = (next_threadId s + n)%nat
  /\ options s' = options s
  /\ posted s' = posted s
  /\ log s' = log s
  /\ exiting s' = exiting s
  /\ starting s' = starting s
  /\ stopping s' = stopping s
  /\ stop_calls s' = stop_calls s
  /\ stops_resolved s' = stops_resolved s.
Proof.
  intros Hfresh. induction n as [|n IH].
  - simpl. rewrite !app_nil_r. destruct (decide (type = Task));
      rewrite ?app_nil_r; repeat split; try reflexivity; lia.
  - rewrite seq_S, foldl_app, fmap_app. cbn [foldl fmap list_fmap Nat.add].
    set (s1 := foldl _ s (seq 0 n)) in *.
    set (created := spawn (options s) type (next_threadId s) ws <$> seq 0 n) in *.
    cbv zeta in IH.
    destruct IH as (Hws & Hitems & Hcur & Hnext & Hopts & Hposted & Hlog
                    & Hexit & Hstart & Hstop & Hcalls & Hres).
    set (opts := match ws with
                 | Count _ => VUndefined
                 | Configs l => default VUndefined (l !! n)
                 end).
    assert (Hw : (createWorker type n opts s1).1
                 = spawn (options s) type (next_threadId s) ws n).
    { rewrite createWorker_worker, Hnext, Hopts. reflexivity. }
    destruct (createWorker_state type n opts s1)
      as (Hws2 & Hnext2 & Hposted2 & Hlog2 & Hexit2 & Hstart2 & Hstop2 & Hpool2).
    rewrite Hw in Hws2, Hpool2.
    assert (Hnew : Some (spawn (options s) type (next_threadId s) ws n)
                     ∉ workers s1).
    { rewrite Hws. intros [Hin|Hin]%elem_of_app.
      - specialize (Hfresh _ Hin). simpl in Hfresh. lia.
      - apply list_elem_of_fmap in Hin as (x & Hx & Hin).
        injection Hx as Hx. subst created.
        apply list_elem_of_fmap in Hin as (i & -> & Hi).
        apply elem_of_seq in Hi. apply (f_equal threadId) in Hx.
        simpl in Hx. lia. }
    rewrite (set_add_fresh _ _ Hnew) in Hws2.
    assert (Htask : isTaskWorker (spawn (options s) type (next_threadId s) ws n)
                    = bool_decide (type = Task)) by reflexivity.
    rewrite Htask in Hpool2.
    assert (Hrest :
      options (createWorker type n opts s1).2 = options s1
      /\ stop_calls (createWorker type n opts s1).2 = stop_calls s1
      /\ stops_resolved (createWorker type n opts s1).2 = stops_resolved s1).
    { unfold createWorker. simpl. destruct (isTaskWorker _); repeat split. }
    destruct Hrest as (Hopts2 & Hcalls2 & Hres2).
    split; [rewrite Hws2, Hws, fmap_app, <- app_assoc; reflexivity|].
    split.
    { rewrite Hpool2. destruct (decide (type = Task)) as [Ht|Ht].
      - rewrite bool_decide_eq_true_2 by exact Ht. simpl.
        rewrite Hitems, <- app_assoc. reflexivity.
      - rewrite bool_decide_eq_false_2 by exact Ht. exact Hitems. }
    split.
    { rewrite Hpool2. destruct (bool_decide (type = Task)); exact Hcur. }
    split; [rewrite Hnext2, Hnext; lia|].
    repeat split; congruence.
Qed.

Lemma createWorkers_spawns type ws s :
  (forall x, Some x ∈ workers s -> (threadId x < next_threadId s)%nat) ->
  let s' := createWorkers type ws s in
  let created := spawned (options s) type (next_threadId s) ws in
  workers s' = workers s ++ (Some <$> created)
  /\ Pool.items (taskRunners s')
     = Pool.items (taskRunners s)
       ++ (if decide (type = Task) then created else [])
  /\ Pool.current (taskRunners s') = Pool.current (taskRunners s)
  /\ next_threadId s' = (next_threadId s + count ws)%nat
  /\ options s' = options s
  /\ posted s' = posted s
  /\ log s' = log s
  /\ exiting s' = exiting s
  /\ starting s' = starting s
  /\ stopping s' = stopping s
  /\ stop_calls s' = stop_calls s
  /\ stops_resolved s' = stops_resolved s.
Proof.
  intros Hfresh. exact (createWorkers_rounds type ws s (count ws) Hfresh).
Qed.

End Spawning.

Section Startup.
Import ApplicationServer Supervision.

(** An iterator over a set without holes. *)
Lemma set_next_from_full (l : list Worker) : forall k,
  set_next_from k (Some <$> l) = (fun w => (k, w)) <$> (l !! k).
Proof.
  induction l as [|x l IH]; intros k; [reflexivity|].
  destruct k as [|k]; [reflexivity|].
  simpl. rewrite IH. destruct (l !! k); reflexivity.
Qed.

Lemma live_full (l : list Worker) : omap Datatypes.id (Some <$> l) = l.
Proof.
  induction l as [|x l IH]; [reflexivity|]. simpl. f_equal. exact IH.
Qed.

Lemma start_state opts :
  let s := start (new opts) in
  let tasks := spawned opts Task 1 (taskWorkers opts) in
  let apis := spawned opts Api (1 + count (taskWorkers opts)) (apiWorkers opts) in
  workers s = Some <$> (tasks ++ apis)
  /\ Pool.items (taskRunners s) = tasks
  /\ Pool.current (taskRunners s) = 0%nat
  /\ next_threadId s
     = (1 + count (taskWorkers opts) + count (apiWorkers opts))%nat
  /\ posted s = []
  /\ exiting s = false
  /\ stopping s = []
  /\ starting s
     = match tasks ++ apis with
       | w :: _ => AwaitOnline 0 w
       | [] => StartResolved
       end.
Proof.
  intros s tasks apis. subst s. unfold start.
  set (s2 := logger (Debug "Spinning up task workers...") _).
  assert (Hfresh2 : forall x, Some x ∈ workers s2 ->
                      (threadId x < next_threadId s2)%nat).
  { intros x Hx. apply elem_of_nil in Hx. destruct Hx. }
  destruct (createWorkers_spawns Task (taskWorkers (options s2)) s2 Hfresh2)
    as (Hws & Hitems & Hcur & Hnext & Hopts & Hposted & _ & Hexit & Hstart
        & Hstop & _).
  set (s3 := createWorkers Task _ s2) in *.
  set (s4 := logger (Debug "Spinning up task api workers...") s3).
  change (options s2) with opts in *. change (next_threadId s2) with 1%nat in *.
  change (workers s2) with (@nil (option Worker)) in Hws.
  change (Pool.items (taskRunners s2)) with (@nil Worker) in Hitems.
  simpl in Hws, Hitems. fold tasks in Hws, Hitems.
  assert (Hfresh4 : forall x, Some x ∈ workers s4 ->
                      (threadId x < next_threadId s4)%nat).
  { intros x Hx. change (workers s4) with (workers s3) in Hx.
    change (next_threadId s4) with (next_threadId s3).
    rewrite Hws in Hx. rewrite Hnext.
    apply list_elem_of_fmap in Hx as (y & Hy & Hin). injection Hy as ->.
    subst tasks. apply list_elem_of_fmap in Hin as (i & -> & Hi).
    apply elem_of_seq in Hi. simpl. lia. }
  destruct (createWorkers_spawns Api (apiWorkers (options s4)) s4 Hfresh4)
    as (Hws5 & Hitems5 & Hcur5 & Hnext5 & Hopts5 & Hposted5 & _ & Hexit5
        & Hstart5 & Hstop5 & _).
  set (s5 := createWorkers Api _ s4) in *.
  change (options s4) with (options s3) in *.
  change (next_threadId s4) with (next_threadId s3) in *.
  change (workers s4) with (workers s3) in *.
  change (taskRunners s4) with (taskRunners s3) in *.
  change (posted s4) with (posted s3) in *.
  change (exiting s4) with (exiting s3) in *.
  change (stopping s4) with (stopping s3) in *.
  rewrite Hopts, Hnext in Hws5. fold apis in Hws5.
  simpl in Hitems5. rewrite app_nil_r in Hitems5.
  assert (Hall : workers s5 = Some <$> (tasks ++ apis))
    by (rewrite Hws5, Hws, fmap_app; reflexivity).
  unfold start_from. rewrite Hall, set_next_from_full.
  clearbody s5. generalize dependent (tasks ++ apis). intros l Hall.
  destruct l as [|w rest]; simpl;
    (split; [exact Hall|]);
    (split; [congruence|]);
    (split; [rewrite Hcur5, Hcur; reflexivity|]);
    (split; [rewrite Hnext5, Hnext, Hopts; reflexivity|]);
    (split; [rewrite Hposted5, Hposted; reflexivity|]);
    (split; [rewrite Hexit5, Hexit; reflexivity|]);
    (split; [rewrite Hstop5, Hstop; reflexivity|reflexivity]).
Qed.

(** X17.  [start()] on a new supervisor creates the task workers and then
    the API workers, one per configured id, with ids counting from [0]
    within each type, the options of its id (none when a number of workers
    is configured) and a thread of its own; the set of workers holds them
    in that order, the pool of task runners holds the task workers, no
    message has been posted, and [start()] awaits the ['online'] event of
    the first worker, or has resolved when no worker is configured. *)
Theorem start_creates_workers (opts : ApplicationServerOptions) :
  let s := start (new opts) in
  let tasks := spawned opts Task 1 (taskWorkers opts) in
  let apis := spawned opts Api (1 + count (taskWorkers opts)) (apiWorkers opts) in
  workers s = Some <$> (tasks ++ apis)
  /\ Pool.items (taskRunners s) = tasks
  /\ length tasks = count (taskWorkers opts)
  /\ length apis = count (apiWorkers opts)
  /\ posted s = []
  /\ starting s
     = match tasks ++ apis with
       | w :: _ => AwaitOnline 0 w
       | [] => StartResolved
       end.
Proof.
  intros s tasks apis.
  destruct (start_state opts) as (Hws & Hitems & _ & _ & Hposted & _ & _ & Hst).
  split; [exact Hws|]. split; [exact Hitems|].
  split; [unfold tasks, spawned; rewrite length_fmap, length_seq; reflexivity|].
  split; [unfold apis, spawned; rewrite length_fmap, length_seq; reflexivity|].
  split; [exact Hposted|exact Hst].
Qed.

(** The loop of [start()] over a set without holes: each worker in turn
    comes online and reports [Ready]. *)
Lemma handshake_from (pre : list Worker) : forall done post s,
  workers s = Some <$> (done ++ pre ++ post) ->
  starting s = match pre ++ post with
               | w :: _ => AwaitOnline (length done) w
               | [] => StartResolved
               end ->
  let s' := run (handshake pre) s in
  workers s' = workers s
  /\ posted s' = posted s
  /\ exiting s' = exiting s
  /\ stopping s' = stopping s
  /\ starting s' = match post with
                   | w :: _ => AwaitOnline (length done + length pre) w
                   | [] => StartResolved
                   end.
Proof.
  induction pre as [|w pre IH]; intros done post s Hws Hst.
  - simpl in *. rewrite Nat.add_0_r. repeat (split; [reflexivity|]). exact Hst.
  - simpl in Hst. rewrite <- app_comm_cons in Hws.
    change (run (handshake (w :: pre)) s)
      with (run (handshake pre) (on_Ready w (on_online w s))).
    assert (H1 : on_online w s = set_starting (AwaitReady (length done) w true) s).
    { unfold on_online. rewrite Hst.
      destruct (decide (w = w)) as [_|Hne]; [reflexivity|contradiction]. }
    assert (H2 : on_Ready w (on_online w s)
                 = start_from (S (length done)) (on_online w s)).
    { unfold on_Ready. rewrite H1. simpl.
      destruct (decide (w = w)) as [_|Hne]; [reflexivity|contradiction]. }
    set (s2 := on_Ready w (on_online w s)) in *.
    assert (Hws2 : workers s2 = Some <$> ((done ++ [w]) ++ pre ++ post)).
    { rewrite H2, H1. unfold start_from. simpl.
      destruct (set_next_from _ _) as [[j x]|]; simpl;
        rewrite Hws, <- app_assoc; reflexivity. }
    assert (Hlook : (done ++ w :: pre ++ post) !! S (length done)
                    = (pre ++ post) !! 0%nat).
    { rewrite lookup_app_r by lia.
      replace (S (length done) - length done)%nat with 1%nat by lia.
      reflexivity. }
    assert (Hst2 : starting s2
                   = match pre ++ post with
                     | x :: _ => AwaitOnline (length (done ++ [w])) x
                     | [] => StartResolved
                     end).
    { rewrite H2, H1. unfold start_from. simpl.
      rewrite Hws, set_next_from_full, Hlook, length_app. simpl.
      rewrite Nat.add_1_r. destruct (pre ++ post); reflexivity. }
    destruct (IH (done ++ [w]) post s2 Hws2 Hst2)
      as (Hw & Hp & He & Hs & Hstart).
    assert (Hframe : workers s2 = workers s /\ posted s2 = posted s
                     /\ exiting s2 = exiting s /\ stopping s2 = stopping s).
    { subst s2. rewrite H2, H1. unfold start_from. simpl.
      destruct (set_next_from _ _) as [[j x]|]; repeat split. }
    destruct Hframe as (Hw0 & Hp0 & He0 & Hs0).
    rewrite length_app in Hstart. simpl in Hstart.
    replace (length done + 1 + length pre)%nat
      with (length done + S (length pre))%nat in Hstart by lia.
    cbv zeta. rewrite Hw, Hp, He, Hs, Hstart. simpl.
    repeat split; assumption.
Qed.

(** X18.  After [start()], when each worker in the order of the set comes
    online and reports [Ready], [start()] has resolved, without the
    supervisor having posted a message; and while only the first workers
    have done so, [start()] awaits the ['online'] event of the one after
    them. *)
Theorem handshake_resolves_start (opts : ApplicationServerOptions) :
  let s := start (new opts) in
  starting (run (handshake (live s)) s) = StartResolved
  /\ posted (run (handshake (live s)) s) = []
  /\ (forall pre w post,
        live s = pre ++ w :: post ->
        starting (run (handshake pre) s) = AwaitOnline (length pre) w).
Proof.
  intros s.
  destruct (start_state opts) as (Hws & _ & _ & _ & Hposted & _ & _ & Hst).
  fold s in Hws, Hposted, Hst.
  set (l := spawned opts Task 1 (taskWorkers opts)
            ++ spawned opts Api (1 + count (taskWorkers opts)) (apiWorkers opts))
    in *.
  assert (Hlive : live s = l) by (unfold live; rewrite Hws; apply live_full).
  rewrite Hlive. split; [|split].
  - destruct (handshake_from l [] [] s) as (_ & _ & _ & _ & H);
      [rewrite app_nil_r; exact Hws|rewrite app_nil_r; exact Hst|exact H].
  - destruct (handshake_from l [] [] s) as (_ & Hp & _);
      [rewrite app_nil_r; exact Hws|rewrite app_nil_r; exact Hst|].
    rewrite Hp. exact Hposted.
  - intros pre w post Hl.
    destruct (handshake_from pre [] (w :: post) s) as (_ & _ & _ & _ & H);
      [simpl; rewrite <- Hl; exact Hws|rewrite <- Hl; exact Hst|exact H].
Qed.

End Startup.

(** ** The supervisor: the set of workers *)

Section WorkerSet.
Import ApplicationServer Supervision.

Lemma elem_of_live (w : Worker) (entries : list (option Worker)) :
  w ∈ omap Datatypes.id entries <-> Some w ∈ entries.
Proof.
  rewrite list_elem_of_omap. split.
  - intros (e & He & Hw). destruct e as [x|]; [|discriminate].
    simpl in Hw. injection Hw as ->. exact He.
  - intros Hin. exists (Some w). split; [exact Hin|reflexivity].
Qed.

Lemma live_set_add w (entries : list (option Worker)) :
  NoDup (omap Datatypes.id entries) ->
  NoDup (omap Datatypes.id (set_add w entries)).
Proof.
  intros Hnd. unfold set_add, set_has. case_bool_decide as Hin; [exact Hnd|].
  rewrite omap_app. simpl. apply NoDup_app. split; [exact Hnd|]. split.
  - intros x Hx Hx'. apply list_elem_of_singleton in Hx'. subst x.
    apply Hin. apply elem_of_live. exact Hx.
  - apply NoDup_singleton.
Qed.

Lemma live_set_delete w (entries : list (option Worker)) :
  omap Datatypes.id (set_delete w entries)
  = filter (fun x => x <> w) (omap Datatypes.id entries).
Proof.
  unfold set_delete. induction entries as [|e rest IH]; [reflexivity|].
  rewrite fmap_cons. destruct e as [x|].
  - destruct (decide (Some x = Some w)) as [Heq|Hne].
    + injection Heq as ->. simpl. rewrite filter_cons.
      destruct (decide (w <> w)) as [Hf|_]; [contradiction|]. exact IH.
    + simpl. rewrite filter_cons.
      destruct (decide (x <> w)) as [_|Hf];
        [f_equal; exact IH|exfalso; apply Hf; congruence].
  - destruct (decide (None = Some w)) as [Heq|_]; [discriminate|].
    simpl. exact IH.
Qed.

Lemma createWorker_live type i opts s :
  NoDup (live s) -> NoDup (live (createWorker type i opts s).2).
Proof.
  intros Hnd. unfold live.
  destruct (createWorker_state type i opts s) as (Hws & _).
  rewrite Hws. apply live_set_add. exact Hnd.
Qed.

Lemma createWorkers_live type ws s :
  NoDup (live s) -> NoDup (live (createWorkers type ws s)).
Proof.
  unfold createWorkers.
  generalize (seq 0 match ws with Count n => n | Configs l => length l end).
  intros ids. revert s. induction ids as [|i rest IH]; intros s H; [exact H|].
  simpl. apply IH. apply createWorker_live. exact H.
Qed.

Lemma start_from_workers index s : workers (start_from index s) = workers s.
Proof.
  unfold start_from. destruct (set_next_from index (workers s)) as [[j w]|];
    reflexivity.
Qed.

Lemma stop_workers_same s : workers (stop s) = workers s.
Proof. unfold stop. rewrite (stop_workers _ _ (stop_from_effect _ _ _)). reflexivity. Qed.

Lemma on_error_workers w err s : workers (on_error w err s) = workers s.
Proof.
  unfold on_error. simpl.
  destruct (starting s) as [|j w'|j w' [|]| |]; simpl; try reflexivity.
  - destruct (decide (w' = w)); reflexivity.
  - destruct (decide (w' = w)); [|reflexivity].
    rewrite stop_workers_same. reflexivity.
Qed.

Lemma exit_listener_live w code s :
  NoDup (live s) -> NoDup (live (exit_listener w code s)).
Proof.
  intros Hnd. unfold live.
  assert (Hdel : NoDup (omap Datatypes.id (set_delete w (workers s)))).
  { rewrite live_set_delete. apply NoDup_filter. exact Hnd. }
  destruct (decide (code = 0%Z)) as [Hc|Hc].
  - destruct (exit_listener_no_restart w code s (or_introl Hc)) as (Hws & _).
    rewrite Hws. exact Hdel.
  - destruct (exiting s) eqn:Hexit.
    + destruct (exit_listener_no_restart w code s (or_intror Hexit)) as (Hws & _).
      rewrite Hws. exact Hdel.
    + destruct (exit_listener_crash w code s Hc Hexit) as (Hws & _).
      rewrite Hws. apply live_set_add. exact Hdel.
Qed.

(** The set holds no worker twice. *)
Lemma handle_live i s : NoDup (live s) -> NoDup (live (handle i s)).
Proof.
  intros Hnd. destruct i as [| |w|w ty payload|w err|w code]; simpl.
  - unfold start, live. rewrite start_from_workers.
    apply createWorkers_live. unfold live.
    change (NoDup (live (createWorkers Task (taskWorkers (options s))
                           (logger (Debug "Spinning up task workers...")
                              (logger (Info "Starting application server...") s))))).
    apply createWorkers_live. exact Hnd.
  - unfold live. rewrite stop_workers_same. exact Hnd.
  - unfold on_online. destruct (starting s) as [|j w'|j w' b| |]; try exact Hnd.
    destruct (decide (w' = w)); exact Hnd.
  - destruct ty; try exact Hnd.
    + unfold on_Ready. destruct (starting s) as [|j w'|j w' b| |]; try exact Hnd.
      destruct (decide (w' = w)); [|exact Hnd].
      unfold live. rewrite start_from_workers. exact Hnd.
    + unfold on_ExecuteInvoke. destruct (isTaskWorker w); [exact Hnd|].
      destruct (Pool.next (taskRunners s)) as [[x p]|]; exact Hnd.
  - unfold live. rewrite on_error_workers. exact Hnd.
  - unfold on_exit, live.
    rewrite (stop_workers _ _ (resume_stops_effect _ _)).
    apply exit_listener_live. exact Hnd.
Qed.

Lemma steps_live s inputs s' :
  steps s inputs s' -> NoDup (live s) -> NoDup (live s').
Proof.
  induction 1 as [s|s i inputs s' _ _ IH]; intros H; [exact H|].
  apply IH. apply handle_live. exact H.
Qed.

Lemma reachable_live s : reachable s -> NoDup (live s).
Proof.
  intros (opts & inputs & Hsteps).
  apply (steps_live _ _ _ Hsteps). apply NoDup_nil_2.
Qed.

(** *** Iterating over a set with holes *)

Lemma set_next_from_holes (post : list (option Worker)) w : forall n k,
  (k <= n)%nat ->
  set_next_from k (replicate n None ++ Some w :: post) = Some (n, w).
Proof.
  induction n as [|n IH]; intros k Hk.
  - assert (k = 0)%nat as -> by lia. reflexivity.
  - simpl. destruct k as [|k].
    + rewrite (IH 0%nat) by lia. reflexivity.
    + rewrite (IH k) by lia. reflexivity.
Qed.

Lemma set_next_from_all_holes : forall n k,
  set_next_from k (replicate n None) = None.
Proof.
  induction n as [|n IH]; intros k; [reflexivity|].
  simpl. destruct k as [|k]; rewrite IH; reflexivity.
Qed.

Lemma live_nil_holes (entries : list (option Worker)) :
  omap Datatypes.id entries = [] -> entries = replicate (length entries) None.
Proof.
  induction entries as [|e rest IH]; intros H; [reflexivity|].
  destruct e as [x|]; [discriminate|]. simpl in *. f_equal. apply IH. exact H.
Qed.

Lemma live_cons_holes (entries : list (option Worker)) w l :
  omap Datatypes.id entries = w :: l ->
  exists m post,
    entries = replicate m None ++ Some w :: post /\ omap Datatypes.id post = l.
Proof.
  induction entries as [|e rest IH]; intros H; [discriminate|].
  destruct e as [x|].
  - simpl in H. injection H as -> <-. exists 0%nat, rest. split; reflexivity.
  - simpl in H. destruct (IH H) as (m & post & -> & Hl).
    exists (S m), post. split; [reflexivity|exact Hl].
Qed.

Lemma live_holes n : omap Datatypes.id (replicate n (@None Worker)) = [].
Proof. induction n as [|n IH]; [reflexivity|exact IH]. Qed.

Lemma set_delete_holes w n (post : list (option Worker)) :
  (Some w ∉ post) ->
  set_delete w (replicate n None ++ Some w :: post)
  = replicate (S n) None ++ post.
Proof.
  intros Hout. unfold set_delete.
  rewrite fmap_app, fmap_replicate, fmap_cons.
  destruct (decide (None = Some w)) as [Heq|_]; [discriminate|].
  destruct (decide (Some w = Some w)) as [_|Hne]; [|contradiction].
  assert (Hpost : (fun e => if decide (e = Some w) then None else e) <$> post
                  = post).
  { induction post as [|e post IH]; [reflexivity|].
    rewrite fmap_cons.
    destruct (decide (e = Some w)) as [->|_].
    - exfalso. apply Hout. apply list_elem_of_here.
    - f_equal. apply IH. intros Hin. apply Hout.
      apply list_elem_of_further. exact Hin. }
  rewrite Hpost, replicate_S_end, <- app_assoc. reflexivity.
Qed.

End WorkerSet.

(** ** The supervisor: a [stop()] that runs its course *)

Section StopCourse.
Import ApplicationServer Supervision.

(** The ['exit'] of the worker the only pending [stop()] awaits. *)
Lemma exit_during_stop s call j w code :
  stopping s = [AwaitExit call j w] -> exiting s = true ->
  let s1 := on_exit w code s in
  workers s1 = set_delete w (workers s)
  /\ next_threadId s1 = next_threadId s
  /\ match set_next_from (S j) (set_delete w (workers s)) with
     | Some (k, next) =>
         posted s1 = posted s ++ [stop_message next]
         /\ stopping s1 = [AwaitExit call k next]
         /\ exiting s1 = true
         /\ stops_resolved s1 = stops_resolved s
     | None =>
         posted s1 = posted s
         /\ stopping s1 = []
         /\ exiting s1 = false
         /\ stops_resolved s1 = stops_resolved s ++ [call]
     end.
Proof.
  intros Hstop Hexit s1. subst s1.
  destruct (exit_listener_no_restart w code s (or_intror Hexit))
    as (Hws & Hposted & Hnext).
  destruct (exit_listener_exiting w code s Hexit) as [Hexit1 Hres1].
  pose proof (exit_listener_stopping w code s) as Hstop1.
  pose proof (resume_stops_effect w (exit_listener w code s)) as Heff.
  split; [unfold on_exit; rewrite (stop_workers _ _ Heff); exact Hws|].
  split; [unfold on_exit; rewrite (stop_threads _ _ Heff); exact Hnext|].
  unfold on_exit, resume_stops. rewrite Hstop1, Hstop. simpl.
  destruct (decide (w = w)) as [_|Hne]; [|contradiction].
  unfold stop_from. simpl. rewrite Hws.
  destruct (set_next_from (S j) (set_delete w (workers s))) as [[k next]|];
    simpl; rewrite ?Hposted, ?Hexit1, ?Hres1; repeat split; reflexivity.
Qed.

(** The loop of a [stop()] that awaits [w], the first worker left in the
    set, when the workers exit in the order of the set. *)
Lemma stop_loop (codes : Worker -> Z) (l : list Worker) :
  forall s j w post call,
  workers s = replicate j None ++ Some w :: post ->
  omap Datatypes.id post = l ->
  NoDup (w :: l) ->
  stopping s = [AwaitExit call j w] -> exiting s = true ->
  let s' := run (exits codes (w :: l)) s in
  posted s' = posted s ++ (stop_message <$> l)
  /\ stopping s' = []
  /\ exiting s' = false
  /\ stops_resolved s' = stops_resolved s ++ [call]
  /\ workers s' = replicate (length (workers s)) None
  /\ next_threadId s' = next_threadId s.
Proof.
  induction l as [|w' l IH]; intros s j w post call Hws Hlive Hnd Hstop Hexit.
  - change (run (exits codes [w]) s) with (on_exit w (codes w) s).
    destruct (exit_during_stop s call j w (codes w) Hstop Hexit)
      as (Hws1 & Hnext1 & Hcase).
    rewrite (live_nil_holes post Hlive) in Hws.
    assert (Hout : Some w ∉ replicate (length post) (@None Worker)).
    { intros Hin. apply elem_of_replicate in Hin as [Heq _]. discriminate. }
    rewrite Hws, (set_delete_holes w j _ Hout), <- replicate_add in Hws1, Hcase.
    rewrite set_next_from_all_holes in Hcase.
    destruct Hcase as (Hp & Hs & He & Hr).
    cbv zeta. rewrite Hp, Hs, He, Hr, Hws1, Hnext1, Hws. simpl.
    rewrite app_nil_r, length_app, length_replicate. simpl.
    rewrite length_replicate.
    repeat (split; [reflexivity|]). split; [|reflexivity].
    change (None :: replicate (j + length post) None)
      with (replicate (S (j + length post)) (@None Worker)).
    f_equal. lia.
  - change (run (exits codes (w :: w' :: l)) s)
      with (run (exits codes (w' :: l)) (on_exit w (codes w) s)).
    destruct (exit_during_stop s call j w (codes w) Hstop Hexit)
      as (Hws1 & Hnext1 & Hcase).
    destruct (live_cons_holes post w' l Hlive) as (m & post' & -> & Hlive').
    assert (Hout : Some w ∉ replicate m None ++ Some w' :: post').
    { intros Hin. apply elem_of_live in Hin. rewrite Hlive in Hin.
      apply NoDup_cons in Hnd as [Hw _]. contradiction. }
    rewrite Hws, (set_delete_holes w j _ Hout), app_assoc, <- replicate_add
      in Hws1, Hcase.
    rewrite set_next_from_holes in Hcase by lia.
    destruct Hcase as (Hp & Hs & He & Hr).
    apply NoDup_cons in Hnd as [_ Hnd'].
    destruct (IH (on_exit w (codes w) s) (S j + m)%nat w' post' call
                Hws1 Hlive' Hnd' Hs He)
      as (Hp2 & Hs2 & He2 & Hr2 & Hws2 & Hnext2).
    cbv zeta. rewrite Hp2, Hs2, He2, Hr2, Hws2, Hnext2, Hp, Hr, Hnext1, Hws1, Hws.
    rewrite fmap_cons, <- app_assoc.
    repeat (split; [reflexivity|]). split; [|reflexivity].
    f_equal. rewrite !length_app, !length_replicate. simpl.
    rewrite length_app, length_replicate. simpl. lia.
Qed.

(** [stop()] on a set without a worker. *)
Lemma stop_empty s :
  set_next_from 0 (workers s) = None ->
  posted (stop s) = posted s
  /\ stopping (stop s) = stopping s
  /\ exiting (stop s) = false
  /\ stops_resolved (stop s) = stops_resolved s ++ [stop_calls s]
  /\ next_threadId (stop s) = next_threadId s.
Proof.
  intros Hnone. unfold stop, stop_from. simpl. rewrite Hnone.
  repeat split; reflexivity.
Qed.

Lemma stop_course (codes : Worker -> Z) (s : t) :
  NoDup (live s) -> stopping s = [] ->
  let s' := run (CallStop :: exits codes (live s)) s in
  posted s' = posted s ++ (stop_message <$> live s)
  /\ stopping s' = []
  /\ exiting s' = false
  /\ stops_resolved s' = stops_resolved s ++ [stop_calls s]
  /\ live s' = []
  /\ next_threadId s' = next_threadId s.
Proof.
  intros Hnd Hstop.
  change (run (CallStop :: exits codes (live s)) s)
    with (run (exits codes (live s)) (stop s)).
  unfold live in *. destruct (omap Datatypes.id (workers s)) as [|w l] eqn:Hlive.
  - pose proof (live_nil_holes _ Hlive) as Hholes.
    assert (Hnone : set_next_from 0 (workers s) = None)
      by (rewrite Hholes; apply set_next_from_all_holes).
    destruct (stop_empty s Hnone) as (Hp & Hs & He & Hr & Hn).
    change (run (exits codes []) (stop s)) with (stop s).
    cbv zeta. rewrite Hp, Hs, He, Hr, Hn, stop_workers_same, Hlive, Hstop.
    simpl. rewrite app_nil_r. repeat split; reflexivity.
  - destruct (live_cons_holes _ w l Hlive) as (m & post & Hws & Hpost).
    assert (Hfirst : set_next_from 0 (workers s) = Some (m, w))
      by (rewrite Hws; apply set_next_from_holes; lia).
    destruct (stop_first_worker s m w Hfirst) as (Hp & He & Hs & _ & _ & Hr).
    rewrite Hstop in Hs. simpl in Hs.
    assert (Hws0 : workers (stop s) = replicate m None ++ Some w :: post)
      by (rewrite stop_workers_same; exact Hws).
    destruct (stop_loop codes l (stop s) m w post (stop_calls s)
                Hws0 Hpost Hnd Hs He)
      as (Hp2 & Hs2 & He2 & Hr2 & Hws2 & Hn2).
    assert (Hn : next_threadId (stop s) = next_threadId s).
    { unfold stop, stop_from. simpl. rewrite Hfirst. reflexivity. }
    cbv zeta. rewrite Hp2, Hs2, He2, Hr2, Hws2, Hn2, Hp, Hr, Hn, live_holes.
    rewrite fmap_cons, <- app_assoc. repeat split; reflexivity.
Qed.

(** X19.  In a state the supervisor reaches in which no [stop()] is
    pending, [stop()] followed by the exit of every worker, in the order
    of the set and with whatever exit codes, posts [Stop] to each worker
    in that order (to each one only after the exit of the one before it),
    creates no worker even for a non-zero exit code, leaves the set empty,
    resets [#exiting] and resolves. *)
Theorem stop_stops_each_worker (s : t) (codes : Worker -> Z) :
  reachable s -> stopping s = [] ->
  let s' := run (CallStop :: exits codes (live s)) s in
  posted s' = posted s ++ (stop_message <$> live s)
  /\ stopping s' = []
  /\ exiting s' = false
  /\ stops_resolved s' = stops_resolved s ++ [stop_calls s]
  /\ live s' = []
  /\ next_threadId s' = next_threadId s.
Proof.
  intros Hreach Hstop. apply stop_course; [|exact Hstop].
  apply reachable_live. exact Hreach.
Qed.

Lemma stop_stops_each_worker_witness :
  posted (run [CallStop; Exited Examples.task0 0; Exited Examples.task1 9;
               Exited Examples.api0 0] Examples.started)
  = [stop_message Examples.task0; stop_message Examples.task1;
     stop_message Examples.api0]
  /\ next_threadId
       (run [CallStop; Exited Examples.task0 0; Exited Examples.task1 9;
             Exited Examples.api0 0] Examples.started) = 4%nat.
Proof.
  pose proof (stop_stops_each_worker Examples.started
                (fun w => if decide (w = Examples.task1) then 9%Z else 0%Z)
                started_reachable eq_refl) as H.
  destruct H as (Hposted & _ & _ & _ & _ & Hnext).
  split; [exact Hposted|exact Hnext].
Defined.

End StopCourse.

(** ** The supervisor: the [Start] message *)

Section StartMessages.
Import ApplicationServer Supervision.

Lemma createWorkers_posted type ws s :
  posted (createWorkers type ws s) = posted s.
Proof.
  unfold createWorkers.
  generalize (seq 0 match ws with Count n => n | Configs l => length l end).
  intros ids. revert s. induction ids as [|i rest IH]; intros s; [reflexivity|].
  simpl. rewrite IH.
  destruct (createWorker_state type i
              match ws with
              | Count _ => VUndefined
              | Configs l => default VUndefined (l !! i)
              end s) as (_ & _ & Hp & _).
  exact Hp.
Qed.

Lemma start_from_posted index s : posted (start_from index s) = posted s.
Proof.
  unfold start_from. destruct (set_next_from index (workers s)) as [[j w]|];
    reflexivity.
Qed.

Lemma start_posted s : posted (start s) = posted s.
Proof.
  unfold start. rewrite start_from_posted, createWorkers_posted.
  cbn [posted logger]. rewrite createWorkers_posted. reflexivity.
Qed.

Lemma stop_starts s : starts_posted (stop s) = starts_posted s.
Proof.
  unfold stop.
  rewrite (starts_posted_stop_effect _ _ (stop_from_effect _ _ _)).
  reflexivity.
Qed.

Lemma on_error_starts w err s :
  starts_posted (on_error w err s) = starts_posted s.
Proof.
  unfold on_error. simpl.
  destruct (starting s) as [|j w'|j w' [|]| |]; simpl; try reflexivity.
  - destruct (decide (w' = w)); reflexivity.
  - destruct (decide (w' = w)); [|reflexivity].
    rewrite stop_starts. reflexivity.
Qed.

Lemma on_ExecuteInvoke_starts w payload s :
  starts_posted (on_ExecuteInvoke w payload s) = starts_posted s.
Proof.
  unfold on_ExecuteInvoke. destruct (isTaskWorker w); [reflexivity|].
  destruct (Pool.next (taskRunners s)) as [[x p]|]; [|reflexivity].
  unfold starts_posted. simpl. rewrite filter_app, filter_cons.
  simpl. destruct (decide (ExecuteInvoke = Start)) as [Heq|_]; [discriminate|].
  rewrite filter_nil. apply app_nil_r.
Qed.

Lemma on_exit_starts w code s :
  (length (starts_posted (on_exit w code s))
   <= length (starts_posted s) + (if is_crash (Exited w code) then 1 else 0))%nat.
Proof.
  unfold on_exit.
  rewrite (starts_posted_stop_effect _ _ (resume_stops_effect _ _)).
  simpl. destruct (decide (code = 0%Z)) as [Hc|Hc].
  - destruct (exit_listener_no_restart w code s (or_introl Hc)) as (_ & Hp & _).
    unfold starts_posted. rewrite Hp. lia.
  - assert (Hcrash : negb (code =? 0)%Z = true)
      by (apply negb_true_iff, Z.eqb_neq; exact Hc).
    rewrite Hcrash. destruct (exiting s) eqn:Hexit.
    + destruct (exit_listener_no_restart w code s (or_intror Hexit))
        as (_ & Hp & _).
      unfold starts_posted. rewrite Hp. lia.
    + destruct (exit_listener_crash w code s Hc Hexit) as (_ & Hp & _).
      unfold starts_posted. rewrite Hp, filter_app, length_app.
      rewrite filter_cons, filter_nil. simpl.
      destruct (decide (Start = Start)); simpl; lia.
Qed.

Lemma handle_starts i s :
  (length (starts_posted (handle i s))
   <= length (starts_posted s) + (if is_crash i then 1 else 0))%nat.
Proof.
  destruct i as [| |w|w ty payload|w err|w code].
  - simpl. unfold starts_posted. rewrite start_posted. lia.
  - simpl. rewrite stop_starts. lia.
  - simpl. unfold on_online. destruct (starting s) as [|j w'|j w' b| |];
      try (simpl; lia).
    destruct (decide (w' = w)); unfold starts_posted;
      cbn [posted set_starting]; lia.
  - destruct ty; try (simpl; lia).
    + simpl. unfold on_Ready. destruct (starting s) as [|j w'|j w' b| |];
        try (simpl; lia).
      destruct (decide (w' = w)); [|simpl; lia].
      unfold starts_posted. rewrite start_from_posted. lia.
    + simpl. rewrite on_ExecuteInvoke_starts. lia.
  - simpl. rewrite on_error_starts. lia.
  - apply on_exit_starts.
Qed.

Lemma run_starts inputs : forall s,
  (length (starts_posted (run inputs s))
   <= length (starts_posted s)
      + length (filter (fun i => is_crash i = true) inputs))%nat.
Proof.
  induction inputs as [|i rest IH]; intros s; [simpl; lia|].
  change (run (i :: rest) s) with (run rest (handle i s)).
  specialize (IH (handle i s)). pose proof (handle_starts i s) as Hi.
  rewrite filter_cons. destruct (decide (is_crash i = true)) as [Hc|Hc].
  - rewrite Hc in Hi. simpl. lia.
  - destruct (is_crash i); [contradiction|]. lia.
Qed.

(** X20.  The supervisor posts [Start] only when a worker has exited with
    a non-zero code: over any course of events it posts at most one
    [Start] per such exit, and from its creation on, as long as no worker
    crashes, it posts none; the workers that [start()] creates are never
    sent [Start]. *)
Theorem start_posted_only_after_crash
  (opts : ApplicationServerOptions) (s : t) (inputs : list Input) :
  (length (starts_posted (run inputs s))
   <= length (starts_posted s)
      + length (filter (fun i => is_crash i = true) inputs))%nat
  /\ (filter (fun i => is_crash i = true) inputs = [] ->
      starts_posted (run inputs (new opts)) = []).
Proof.
  split; [apply run_starts|].
  intros Hnone. pose proof (run_starts inputs (new opts)) as H.
  rewrite Hnone in H. simpl in H.
  destruct (starts_posted (run inputs (new opts))); [reflexivity|].
  simpl in H. lia.
Qed.

End StartMessages.

(** ** The supervisor: the pool and the set *)

Section PoolAndSet.
Import ApplicationServer Supervision.

Lemma elem_of_delete_other {A} (l : list A) : forall i x y,
  l !! i = Some x -> y ∈ l -> y <> x -> y ∈ delete i l.
Proof.
  induction l as [|a l IH]; intros i x y Hi Hy Hne; [destruct i; discriminate|].
  destruct i as [|i]; simpl in *.
  - injection Hi as ->. apply elem_of_cons in Hy as [->|Hy];
      [contradiction|exact Hy].
  - apply elem_of_cons in Hy as [->|Hy]; [apply list_elem_of_here|].
    apply list_elem_of_further. eapply IH; eassumption.
Qed.

Lemma pool_remove_keeps (x y : Worker) (p : Pool.t Worker) :
  y ∈ Pool.items p -> y <> x -> y ∈ Pool.items (Pool.remove x p).
Proof.
  intros Hy Hne. unfold Pool.remove.
  destruct (Pool.index_of x (Pool.items p)) as [i|] eqn:Hi; [|exact Hy].
  simpl. eapply elem_of_delete_other; [|exact Hy|exact Hne].
  apply index_of_lookup. exact Hi.
Qed.

Lemma set_add_keeps w x entries : Some x ∈ entries -> Some x ∈ set_add w entries.
Proof.
  intros Hin. unfold set_add. destruct (set_has w entries); [exact Hin|].
  apply elem_of_app. left. exact Hin.
Qed.

Lemma set_delete_keeps w x entries :
  Some x ∈ entries -> x <> w -> Some x ∈ set_delete w entries.
Proof.
  intros Hin Hne. unfold set_delete. apply list_elem_of_fmap.
  exists (Some x). split; [|exact Hin].
  destruct (decide (Some x = Some w)) as [Heq|_]; [congruence|reflexivity].
Qed.

Lemma createWorker_pool type i opts s :
  pool_is_live_tasks s -> pool_is_live_tasks (createWorker type i opts s).2.
Proof.
  intros Hinv x.
  destruct (createWorker_state type i opts s)
    as (Hws & _ & _ & _ & _ & _ & _ & Hpool).
  rewrite Hws, Hpool. set (w := (createWorker type i opts s).1).
  destruct (isTaskWorker w) eqn:Htask.
  - simpl. rewrite elem_of_app, list_elem_of_singleton, (Hinv x). split.
    + intros [[Hin Hx]| ->].
      * split; [apply set_add_keeps; exact Hin|exact Hx].
      * split; [apply set_add_elem|exact Htask].
    + intros [Hin Hx]. apply set_add_inv in Hin as [-> |Hin]; [right|left]; auto.
  - rewrite (Hinv x). split.
    + intros [Hin Hx]. split; [apply set_add_keeps; exact Hin|exact Hx].
    + intros [Hin Hx]. apply set_add_inv in Hin as [-> |Hin]; [congruence|auto].
Qed.

Lemma createWorkers_pool type ws s :
  pool_is_live_tasks s -> pool_is_live_tasks (createWorkers type ws s).
Proof.
  unfold createWorkers.
  generalize (seq 0 match ws with Count n => n | Configs l => length l end).
  intros ids. revert s. induction ids as [|i rest IH]; intros s H; [exact H|].
  simpl. apply IH. apply createWorker_pool. exact H.
Qed.

Lemma pool_frame s s' :
  workers s' = workers s ->
  Pool.items (taskRunners s') = Pool.items (taskRunners s) ->
  pool_is_live_tasks s -> pool_is_live_tasks s'.
Proof. intros Hw Hp H x. rewrite Hw, Hp. apply H. Qed.

Lemma pool_stop_effect s s' :
  stop_effect s s' -> pool_is_live_tasks s -> pool_is_live_tasks s'.
Proof.
  intros Heff. apply pool_frame;
    [apply (stop_workers _ _ Heff)|rewrite (stop_pool _ _ Heff); reflexivity].
Qed.

Lemma exit_listener_pool w code s :
  NoDup (Pool.items (taskRunners s)) ->
  pool_is_live_tasks s -> pool_is_live_tasks (exit_listener w code s).
Proof.
  intros Hnd Hinv. unfold exit_listener.
  set (s1 := set_workers (set_delete w (workers s)) s).
  set (s2 := if isTaskWorker w && Pool.includes w (taskRunners s1)
             then set_taskRunners (Pool.remove w (taskRunners s1)) s1 else s1).
  assert (H2 : pool_is_live_tasks s2).
  { intros x. subst s2.
    destruct (isTaskWorker w && Pool.includes w (taskRunners s1)) eqn:Hcase.
    - simpl. split.
      + intros Hx.
        assert (Hxw : x <> w).
        { intros ->. exact (pool_remove_gone w (taskRunners s) Hnd Hx). }
        apply pool_remove_subset in Hx. apply Hinv in Hx as [Hin Htask].
        split; [apply set_delete_keeps; assumption|exact Htask].
      + intros [Hin Htask]. apply set_delete_inv in Hin as [Hne Hin].
        apply pool_remove_keeps; [|exact Hne]. apply Hinv. auto.
    - simpl. split.
      + intros Hx. pose proof (proj1 (Hinv x) Hx) as [Hin Htask].
        split; [|exact Htask]. apply set_delete_keeps; [exact Hin|].
        intros ->. apply andb_false_iff in Hcase as [Hcase|Hcase];
          [congruence|].
        unfold Pool.includes in Hcase. apply bool_decide_eq_false in Hcase.
        apply Hcase. exact Hx.
      + intros [Hin Htask]. apply set_delete_inv in Hin as [_ Hin].
        apply Hinv. auto. }
  clearbody s2. clear s1.
  destruct (decide (code ≠ 0%Z)).
  - set (s3 := logger _ s2).
    assert (H3 : pool_is_live_tasks s3)
      by (revert H2; apply pool_frame; reflexivity).
    destruct (negb (exiting s3)); [|exact H3].
    pose proof (createWorker_pool (workerType (workerData w)) (id (workerData w))
                  (workerOptions (workerData w)) s3 H3) as H4.
    destruct (createWorker _ _ _ s3) as [nw s4]. simpl in H4.
    revert H4. apply pool_frame; reflexivity.
  - revert H2. apply pool_frame; reflexivity.
Qed.

Lemma handle_pool i s :
  NoDup (Pool.items (taskRunners s)) ->
  pool_is_live_tasks s -> pool_is_live_tasks (handle i s).
Proof.
  intros Hnd H. destruct i as [| |w|w ty payload|w err|w code]; simpl.
  - unfold start.
    apply (pool_frame (createWorkers Api
             (apiWorkers (options (logger (Debug "Spinning up task api workers...")
                (createWorkers Task (taskWorkers (options s))
                   (logger (Debug "Spinning up task workers...")
                      (logger (Info "Starting application server...") s))))))
             (logger (Debug "Spinning up task api workers...")
                (createWorkers Task (taskWorkers (options s))
                   (logger (Debug "Spinning up task workers...")
                      (logger (Info "Starting application server...") s)))))).
    + apply start_from_workers.
    + unfold start_from. destruct (set_next_from _ _) as [[j x]|]; reflexivity.
    + apply createWorkers_pool.
      apply (pool_frame (createWorkers Task (taskWorkers (options s))
               (logger (Debug "Spinning up task workers...")
                  (logger (Info "Starting application server...") s))));
        [reflexivity..|].
      apply createWorkers_pool. revert H. apply pool_frame; reflexivity.
  - unfold stop. eapply pool_stop_effect; [apply stop_from_effect|].
    revert H. apply pool_frame; reflexivity.
  - unfold on_online. destruct (starting s) as [|j w'|j w' b| |]; try exact H.
    destruct (decide (w' = w)); [|exact H].
    revert H. apply pool_frame; reflexivity.
  - destruct ty; try exact H.
    + unfold on_Ready. destruct (starting s) as [|j w'|j w' b| |]; try exact H.
      destruct (decide (w' = w)); [|exact H].
      revert H. apply pool_frame; [apply start_from_workers|].
      unfold start_from. destruct (set_next_from _ _) as [[k x]|]; reflexivity.
    + unfold on_ExecuteInvoke. destruct (isTaskWorker w); [exact H|].
      destruct (Pool.next (taskRunners s)) as [[target pool]|] eqn:Hn; [|exact H].
      destruct (pool_next_inv _ _ _ Hn) as (_ & Hitems & _).
      revert H. apply pool_frame; [reflexivity|exact Hitems].
  - revert H. apply pool_frame; [apply on_error_workers|].
    unfold on_error. simpl.
    destruct (starting s) as [|j w'|j w' [|]| |]; simpl; try reflexivity.
    + destruct (decide (w' = w)); reflexivity.
    + destruct (decide (w' = w)); [|reflexivity].
      unfold stop. rewrite (stop_pool _ _ (stop_from_effect _ _ _)). reflexivity.
  - unfold on_exit. eapply pool_stop_effect; [apply resume_stops_effect|].
    apply exit_listener_pool; assumption.
Qed.

Lemma steps_pool s inputs s' :
  steps s inputs s' ->
  forall main, settled_out main s ->
  pool_is_live_tasks s -> pool_is_live_tasks s'.
Proof.
  induction 1 as [s|s i inputs s' _ _ IH]; intros main Hout H; [exact H|].
  apply (IH main); [apply settled_out_handle; exact Hout|].
  apply handle_pool; [|exact H]. destruct Hout as [(Hnd & _) _]. exact Hnd.
Qed.

(** X21.  In every state the supervisor reaches, the pool of task runners
    holds the task workers that are in the set of workers and no other:
    an API worker, and a worker that has exited, is not in it.  So the
    worker an [ExecuteInvoke] is forwarded to is a live task worker. *)
Theorem pool_holds_live_task_workers (s : t) :
  reachable s ->
  pool_is_live_tasks s
  /\ forall target pool,
       Pool.next (taskRunners s) = Some (target, pool) ->
       Some target ∈ workers s /\ isTaskWorker target = true.
Proof.
  intros Hreach.
  assert (Hinv : pool_is_live_tasks s).
  { destruct Hreach as (opts & inputs & Hsteps).
    pose (main := {| threadId := 0;
                     workerData :=
                       {| wd_applicationPath := ""; id := 0; workerType := Api;
                          workerOptions := VUndefined; hasTaskRunners := false;
                          isServer := false |} |}).
    apply (steps_pool _ _ _ Hsteps main).
    - split; [split; [|split]|split]; simpl.
      + apply NoDup_nil_2.
      + intros x Hx. apply elem_of_nil in Hx. destruct Hx.
      + intros x Hx. apply elem_of_nil in Hx. destruct Hx.
      + apply not_elem_of_nil.
      + lia.
    - intros x. simpl. split.
      + intros Hx. apply elem_of_nil in Hx. destruct Hx.
      + intros [Hx _]. apply elem_of_nil in Hx. destruct Hx. }
  split; [exact Hinv|].
  intros target pool Hn. apply Hinv. eapply pool_next_elem. exact Hn.
Qed.

Lemma pool_holds_live_task_workers_witness :
  Some Examples.task0 ∈ workers Examples.started
  /\ isTaskWorker Examples.task0 = true.
Proof.
  refine (proj2 (pool_holds_live_task_workers Examples.started started_reachable)
            Examples.task0
            {| Pool.items := [Examples.task0; Examples.task1];
               Pool.current := 1 |} _).
  vm_compute. reflexivity.
Defined.

End PoolAndSet.

(** ** The supervisor: a worker that exits during startup *)

Section EarlyExit.
Import ApplicationServer Supervision.

Lemma exit_listener_starting w code s :
  starting (exit_listener w code s) = starting s.
Proof.
  unfold exit_listener.
  destruct (isTaskWorker w && Pool.includes w _); simpl;
    destruct (decide (code ≠ 0%Z)); simpl; try reflexivity;
    destruct (exiting s); simpl; try reflexivity;
    unfold createWorker; simpl; destruct (isTaskWorker _); reflexivity.
Qed.

(** What an exit leaves of a worker that is not, or no longer, in the
    set. *)
Lemma on_exit_gone w x code s :
  (Some w ∉ set_delete x (workers s)) ->
  (threadId w < next_threadId s)%nat ->
  starting (on_exit x code s) = starting s
  /\ (Some w ∉ workers (on_exit x code s))
  /\ (threadId w < next_threadId (on_exit x code s))%nat.
Proof.
  intros Hout Hlt. unfold on_exit.
  pose proof (resume_stops_effect x (exit_listener x code s)) as Heff.
  rewrite (stop_starting _ _ Heff), (stop_workers _ _ Heff),
    (stop_threads _ _ Heff), exit_listener_starting.
  split; [reflexivity|].
  destruct (decide (code = 0%Z)) as [Hc|Hc].
  - destruct (exit_listener_no_restart x code s (or_introl Hc))
      as (Hws & _ & Hn).
    rewrite Hws, Hn. split; assumption.
  - destruct (exiting s) eqn:Hexit.
    + destruct (exit_listener_no_restart x code s (or_intror Hexit))
        as (Hws & _ & Hn).
      rewrite Hws, Hn. split; assumption.
    + destruct (exit_listener_crash x code s Hc Hexit) as (Hws & _ & Hn & _).
      rewrite Hws, Hn. split; [|lia].
      intros Hin. apply set_add_inv in Hin as [Heq|Hin]; [|contradiction].
      apply (f_equal threadId) in Heq. simpl in Heq. lia.
Qed.

Lemma set_delete_gone w (entries : list (option Worker)) :
  Some w ∉ set_delete w entries.
Proof. intros Hin. apply set_delete_inv in Hin as [Hne _]. contradiction. Qed.

Lemma handle_abandoned i s w :
  awaits w (starting s) -> (Some w ∉ workers s) ->
  (threadId w < next_threadId s)%nat -> enabled i s ->
  starting (handle i s) = starting s
  /\ (Some w ∉ workers (handle i s))
  /\ (threadId w < next_threadId (handle i s))%nat.
Proof.
  intros Haw Hout Hlt Hen.
  destruct i as [| |x|x ty payload|x err|x code]; simpl in Hen |- *.
  - rewrite Hen in Haw. destruct Haw.
  - unfold stop.
    pose proof (stop_from_effect (stop_calls s) 0
                  (set_exiting true
                     (logger (Info "Stopping application server...")
                        (set_stop_calls (S (stop_calls s)) s)))) as Heff.
    rewrite (stop_starting _ _ Heff), (stop_workers _ _ Heff),
      (stop_threads _ _ Heff).
    repeat split; assumption.
  - assert (Hx : x <> w) by (intros ->; contradiction).
    unfold on_online.
    destruct (starting s) as [|j w'|j w' b| |] eqn:Hst;
      try (repeat split; assumption).
    simpl in Haw. subst w'.
    destruct (decide (w = x)) as [Heq|_]; [congruence|].
    repeat split; assumption.
  - assert (Hx : x <> w) by (intros ->; contradiction).
    destruct ty; try (repeat split; first [assumption|reflexivity]).
    + unfold on_Ready.
      destruct (starting s) as [|j w'|j w' b| |] eqn:Hst;
        try (repeat split; assumption).
      simpl in Haw. subst w'.
      destruct (decide (w = x)) as [Heq|_]; [congruence|].
      repeat split; assumption.
    + unfold on_ExecuteInvoke. destruct (isTaskWorker x);
        [repeat split; first [assumption|reflexivity]|].
      destruct (Pool.next (taskRunners s)) as [[target pool]|];
        repeat split; first [assumption|reflexivity].
  - assert (Hx : x <> w) by (intros ->; contradiction).
    rewrite on_error_workers. unfold on_error. simpl.
    destruct (starting s) as [|j w'|j w' [|]| |] eqn:Hst; simpl in Haw |- *;
      try (repeat split; first [assumption|reflexivity]).
    + subst w'. destruct (decide (w = x)) as [Heq|_]; [congruence|].
      repeat split; first [assumption|reflexivity].
    + subst w'. destruct (decide (w = x)) as [Heq|_]; [congruence|].
      repeat split; first [assumption|reflexivity].
  - apply on_exit_gone; [|exact Hlt].
    intros Hin. apply set_delete_inv in Hin as [_ Hin]. contradiction.
Qed.

Lemma steps_abandoned s inputs s' :
  steps s inputs s' ->
  forall w, awaits w (starting s) -> (Some w ∉ workers s) ->
  (threadId w < next_threadId s)%nat ->
  starting s' = starting s.
Proof.
  induction 1 as [s|s i inputs s' Hen _ IH]; intros w Haw Hout Hlt;
    [reflexivity|].
  destruct (handle_abandoned i s w Haw Hout Hlt Hen) as (Hst & Hout1 & Hlt1).
  rewrite <- Hst. apply (IH w); [rewrite Hst; exact Haw|exact Hout1|exact Hlt1].
Qed.

(** X22.  When the worker whose ['online'] event or [Ready] message
    [start()] awaits exits, with whatever code, [start()] stays suspended
    on that worker: whatever the supervisor receives afterwards, a
    replacement that comes online and reports [Ready] included, [start()]
    neither resolves nor rejects nor goes on to the next worker. *)
Theorem start_hangs_when_awaited_worker_exits
  (s : t) (w : Worker) (code : Z) (inputs : list Input) (s' : t) :
  reachable s -> Some w ∈ workers s -> awaits w (starting s) ->
  steps (on_exit w code s) inputs s' ->
  starting s' = starting s /\ (Some w ∉ workers s').
Proof.
  intros Hreach Hlive Haw Hsteps.
  destruct (reachable_threads_fresh s Hreach) as (_ & _ & Hset).
  pose proof (Hset w Hlive) as Hlt.
  destruct (on_exit_gone w w code s (set_delete_gone w _) Hlt)
    as (Hst & Hout & Hlt1).
  split.
  - rewrite <- Hst. apply (steps_abandoned _ _ _ Hsteps w);
      [rewrite Hst; exact Haw|exact Hout|exact Hlt1].
  - clear Hst. revert Haw Hout Hlt1.
    assert (Hgen : forall s0, steps s0 inputs s' ->
              awaits w (starting s0) -> (Some w ∉ workers s0) ->
              (threadId w < next_threadId s0)%nat -> Some w ∉ workers s').
    { clear. intros s0 Hsteps0.
      induction Hsteps0 as [s0|s0 i inputs s' Hen _ IH]; intros Haw Hout Hlt;
        [exact Hout|].
      destruct (handle_abandoned i s0 w Haw Hout Hlt Hen) as (Hst & Hout1 & Hlt1).
      apply IH; [rewrite Hst; exact Haw|exact Hout1|exact Hlt1]. }
    intros Haw Hout Hlt1. apply (Hgen _ Hsteps); [|exact Hout|exact Hlt1].
    destruct (on_exit_gone w w code s (set_delete_gone w _) Hlt) as (Hst & _).
    rewrite Hst. exact Haw.
Qed.

Lemma start_hangs_when_awaited_worker_exits_witness :
  starting (run [Online (Examples.worker 4 Task 0);
                 Emitted (Examples.worker 4 Task 0) Ready VUndefined]
                (on_exit Examples.task0 1 Examples.started))
  = AwaitOnline 0 Examples.task0.
Proof.
  refine (proj1 (start_hangs_when_awaited_worker_exits
                   Examples.started Examples.task0 1
                   [Online (Examples.worker 4 Task 0);
                    Emitted (Examples.worker 4 Task 0) Ready VUndefined]
                   _ started_reachable _ _ _)).
  - vm_compute. apply list_elem_of_here.
  - vm_compute. reflexivity.
  - refine (steps_cons _ _ _ _ _ (steps_cons _ _ _ _ _ (steps_nil _))).
    + vm_compute. do 3 apply list_elem_of_further. apply list_elem_of_here.
    + vm_compute. do 3 apply list_elem_of_further. apply list_elem_of_here.
Defined.

End EarlyExit.
